(** * A shallow embedding of the tree-walking evaluator of the interpreter

    The development follows [lib/AST/AbstractSyntaxTree.{hpp,cpp}] (the node
    family, [EvalVisitor] and its [Visit] overloads) and
    [lib/interpreter/interpreter.cpp] (the entry point [interpret]).

    - a [double] is a primitive binary64 float;
    - [std::shared_ptr<std::string>] and [std::shared_ptr<List>] are addresses
      into two stores of shared objects kept beside the visitor's fields, so
      that aliasing and in-place mutation are visible through every holder;
    - a member function [void f(...)] of [EvalVisitor] is a state transformer
      that may finish normally, leave with a C++ exception in flight, run into
      undefined behaviour, or exhaust the fuel that bounds recursion and loops;
    - [node->Calculate( *this )] is the recursive call of the evaluator. *)

From Stdlib Require Import ZArith Lia Bool.
From Stdlib Require Import Floats.PrimFloat Floats.SpecFloat Floats.FloatOps.
From Stdlib Require Import Numbers.Cyclic.Int63.Uint63.
From Stdlib Require Import Numbers.DecimalString Numbers.DecimalZ.
From Stdlib Require Import Strings.String Strings.Ascii.
From stdpp Require Import base option list gmap strings.

Set Warnings "-register-all".

(** ** Lexer.hpp: token kinds *)

Inductive TokenType : Set :=
| kEOF | kIncorrect | kEndLine
| kIdentifier | kString | kNumber | kTrue | kFalse | kNil
| kWhile | kFor | kFunction | kBreak | kContinue
| kEnd | kReturn | kIf | kElse | kIn | kThen | kElseIf
| kComma | kColon
| kLParen | kRParen
| kLBracket | kRBracket
| kPlus | kMinus | kMultiply
| kDivide | kModulo | kPower
| kEqual | kNotEqual | kLess | kGreater
| kLessOrEqual | kGreaterOrEqual
| kLogicalAnd | kLogicalOr | kLogicalNot
| kAssign | kAddAssign | kSubAssign
| kMultAssign | kDivAssign | kModAssign | kPowAssign.

(** ** AbstractSyntaxTree.hpp: the node family *)

(** [GlobalFunctionNode::Name]. *)
Inductive Name : Set :=
| kPrint | kPrintln | kRead | kStackTrace
| kLen | kLower | kUpper | kSplit | kJoin | kReplace | kCapitalize
| kAbs | kSqrt | kCeil | kFloor | kRound | kRnd | kParseNumber | kToString
| kRange | kPush | kPop | kInsert | kRemove | kSort | kSlice.

(** An address of a shared object. *)
Definition ptr : Set := nat.

(** The classes derived from [BaseNode], one constructor each, with the
    members of the class as arguments.  A [FunctionDefinition] is held through
    a [std::shared_ptr]: [address] is the address of the object the parser
    made, which is all that comparing two function values looks at.
    [ValueNode] is left out: the parser never builds one. *)
Inductive BaseNode : Type :=
| NumberLiteralNode (value_ : float)
| StringLiteralNode (value_ : string)
| ListLiteralNode (elements_ : list BaseNode)
| NilLiteralNode
| VariableNode (name_ : string)
| BinaryOperationNode (operation_ : TokenType) (lhs_ rhs_ : BaseNode)
| UnaryOperationNode (operation_ : TokenType) (arg_ : BaseNode)
| FunctionCallNode (function_name_ : string) (args_ : list BaseNode)
| UnnamedFunctionCallNode (function_ : BaseNode) (args_ : list BaseNode)
| FunctionImplementationNode (function_ : FunctionDefinition)
| IfNode (then_statements_ else_statements_ : list BaseNode)
         (condition_ : BaseNode)
| WhileNode (condition_ : BaseNode) (statements_ : list BaseNode)
| ForNode (iterable_name_ : string) (sequence_ : BaseNode)
          (statements_ : list BaseNode)
| RootNode (statements_ : list BaseNode)
| GlobalFunctionNode (name_ : Name) (args_ : list BaseNode)
| BreakNode
| ContinueNode
| ReturnNode (value_ : BaseNode)
with FunctionDefinition : Type :=
| MkFunctionDefinition (address : ptr) (body_ : list BaseNode)
                       (arg_names_ : list string).

Definition body (f : FunctionDefinition) : list BaseNode :=
  match f with MkFunctionDefinition _ b _ => b end.

Definition arg_names (f : FunctionDefinition) : list string :=
  match f with MkFunctionDefinition _ _ a => a end.

Definition address_of (f : FunctionDefinition) : ptr :=
  match f with MkFunctionDefinition a _ _ => a end.

(** ** EvalVisitor: values, scopes and the visitor's fields *)

(** [EvalVisitor::ValueType], the variant
    [<std::monostate, double, StringPtr, FunctionPtr, ListPtr>]. *)
Inductive ValueType : Type :=
| Monostate
| Double (d : float)
| StringPtr (p : ptr)
| FunctionPtr (f : FunctionDefinition)
| ListPtr (p : ptr).

Inductive ControlFlow : Set := kContinueFlow | kBreakFlow | kReturnFlow | kDefault.

Global Instance ControlFlow_eq_dec : EqDecision ControlFlow.
Proof. solve_decision. Defined.

(** [EvalVisitor::Scope], a [std::unordered_map<std::string, ValueType>]. *)
Abbreviation Scope := (gmap string ValueType).

(** The fields of [EvalVisitor], the two stores of shared objects, and the
    state of what lies outside the class.

    [scopes_] and [function_names_] are [std::vector]s used as stacks: the
    head of the list is [back()].  [out_] holds the characters written to the
    output stream so far and [in_] the characters still to be read from the
    input stream.  [string_store] and [list_store] hold the objects behind
    [StringPtr] and [ListPtr]; a new object takes the next free address.
    [rand_calls] counts the calls of [std::rand].

    [unpopped] is a ghost field with no counterpart in the source: it counts
    how often the string branch of [Visit(ForNode&)] was left through its
    [return] statement, the one exit of the evaluator that follows a
    [PushScope()] without reaching the matching [PopScope()].  Nothing reads
    it; it only lets the scope-balance theorem name those runs. *)
Record EvalVisitor : Type := MkEvalVisitor {
  result_ : ValueType;
  scopes_ : list Scope;
  function_names_ : list (gset string);
  out_ : string;
  in_ : string;
  control_flow_ : ControlFlow;
  string_store : list string;
  list_store : list (list ValueType);
  rand_calls : nat;
  unpopped : nat
}.

Definition set_result_ (x : ValueType) (v : EvalVisitor) : EvalVisitor :=
  MkEvalVisitor x (scopes_ v) (function_names_ v) (out_ v) (in_ v)
    (control_flow_ v) (string_store v) (list_store v) (rand_calls v) (unpopped v).

Definition set_scopes_ (x : list Scope) (v : EvalVisitor) : EvalVisitor :=
  MkEvalVisitor (result_ v) x (function_names_ v) (out_ v) (in_ v)
    (control_flow_ v) (string_store v) (list_store v) (rand_calls v) (unpopped v).

Definition set_function_names_ (x : list (gset string)) (v : EvalVisitor)
  : EvalVisitor :=
  MkEvalVisitor (result_ v) (scopes_ v) x (out_ v) (in_ v)
    (control_flow_ v) (string_store v) (list_store v) (rand_calls v) (unpopped v).

Definition set_out_ (x : string) (v : EvalVisitor) : EvalVisitor :=
  MkEvalVisitor (result_ v) (scopes_ v) (function_names_ v) x (in_ v)
    (control_flow_ v) (string_store v) (list_store v) (rand_calls v) (unpopped v).

Definition set_in_ (x : string) (v : EvalVisitor) : EvalVisitor :=
  MkEvalVisitor (result_ v) (scopes_ v) (function_names_ v) (out_ v) x
    (control_flow_ v) (string_store v) (list_store v) (rand_calls v) (unpopped v).

Definition set_control_flow_ (x : ControlFlow) (v : EvalVisitor) : EvalVisitor :=
  MkEvalVisitor (result_ v) (scopes_ v) (function_names_ v) (out_ v) (in_ v)
    x (string_store v) (list_store v) (rand_calls v) (unpopped v).

Definition set_string_store (x : list string) (v : EvalVisitor) : EvalVisitor :=
  MkEvalVisitor (result_ v) (scopes_ v) (function_names_ v) (out_ v) (in_ v)
    (control_flow_ v) x (list_store v) (rand_calls v) (unpopped v).

Definition set_list_store (x : list (list ValueType)) (v : EvalVisitor)
  : EvalVisitor :=
  MkEvalVisitor (result_ v) (scopes_ v) (function_names_ v) (out_ v) (in_ v)
    (control_flow_ v) (string_store v) x (rand_calls v) (unpopped v).

Definition set_rand_calls (x : nat) (v : EvalVisitor) : EvalVisitor :=
  MkEvalVisitor (result_ v) (scopes_ v) (function_names_ v) (out_ v) (in_ v)
    (control_flow_ v) (string_store v) (list_store v) x (unpopped v).

Definition set_unpopped (x : nat) (v : EvalVisitor) : EvalVisitor :=
  MkEvalVisitor (result_ v) (scopes_ v) (function_names_ v) (out_ v) (in_ v)
    (control_flow_ v) (string_store v) (list_store v) (rand_calls v) x.

(** ** Exceptions and outcomes *)

(** The exception classes that leave the lexer, the parser and the
    evaluator.  All derive from [std::exception]; [what_arg] is the message
    the exception was built with. *)
Inductive exception : Type :=
| runtime_error (what_arg : string)
| out_of_range (what_arg : string)
| invalid_argument (what_arg : string)
| bad_variant_access
| bad_alloc.

(** How a call of a member function ends: normally or with an exception,
    with the visitor as it then stands; in undefined behaviour; or not
    within the fuel it was given, be it that more fuel is needed, that the
    call does not come to an end, or that it comes to one only when the
    statements of a loop of the program have used up the memory. *)
Inductive Outcome (A : Type) : Type :=
| Normal (a : A) (v : EvalVisitor)
| Thrown (e : exception) (v : EvalVisitor)
| Undefined
| OutOfFuel.

Arguments Normal {A} a v.
Arguments Thrown {A} e v.
Arguments Undefined {A}.
Arguments OutOfFuel {A}.

Definition M (A : Type) : Type := EvalVisitor → Outcome A.

(** Sequencing: the first computation, then the rest on its value, unless
    the first one does not finish normally. *)
Class Then (F : Type → Type) := and_then : ∀ {A B}, F A → (A → F B) → F B.

Declare Scope eval_scope.
Delimit Scope eval_scope with eval.
Notation "x ← y ; z" := (and_then y (λ x, z))
  (at level 20, y at level 100, z at level 200, only parsing) : eval_scope.
Notation "x ;; z" := (and_then x (λ _, z))
  (at level 100, z at level 200, only parsing, right associativity) : eval_scope.
Local Open Scope eval_scope.

Global Instance M_ret : MRet M := λ A a v, Normal a v.

Global Instance M_then : Then M := λ A B m k v,
  match m v with
  | Normal a v' => k a v'
  | Thrown e v' => Thrown e v'
  | Undefined => Undefined
  | OutOfFuel => OutOfFuel
  end.

Definition throw {A} (e : exception) : M A := λ v, Thrown e v.
Definition undefined {A} : M A := λ _, Undefined.
Definition out_of_fuel {A} : M A := λ _, OutOfFuel.
Definition gets {A} (f : EvalVisitor → A) : M A := λ v, Normal (f v) v.
Definition modify (f : EvalVisitor → EvalVisitor) : M unit := λ v, Normal tt (f v).

(** A value that undefined behaviour may stand behind: [None] is a
    precondition of the C++ operation that does not hold. *)
Definition defined {A} (x : option A) : M A :=
  match x with Some a => mret a | None => undefined end.

(** How the evaluation of an expression that changes nothing ends. *)
Inductive Result (A : Type) : Type :=
| Value (a : A)
| Raise (e : exception)
| UB
| NoFuel.

Arguments Value {A} a.
Arguments Raise {A} e.
Arguments UB {A}.
Arguments NoFuel {A}.

Global Instance Result_ret : MRet Result := λ A a, Value a.

Global Instance Result_then : Then Result := λ A B m k,
  match m with
  | Value a => k a
  | Raise e => Raise e
  | UB => UB
  | NoFuel => NoFuel
  end.

(** How a loop ends whose round has put one more element into a container
    and has left the loop where it was, or has made a string longer and
    will do so again: the same happens in every round that follows, and
    the loop is left when the memory for the container is used up, by the
    [std::bad_alloc] of the allocation that fails.  Every other allocation
    is taken to succeed. *)
Definition fills_the_memory {A} : Result A := Raise bad_alloc.

(** ** The C and C++ library as the evaluator uses it *)

(** What the language fixes exactly is defined here; what it leaves to the
    implementation is a field of [Platform] below. *)
Module cxx.

Definition newline : string := String (ascii_of_nat 10) EmptyString.
Definition quote : string := String (ascii_of_nat 34) EmptyString.

(** The integer part of a [double], as a conversion to an integer type
    computes it (truncation toward zero); [None] for NaN and the infinities. *)
Definition truncate (d : float) : option Z :=
  match Prim2SF d with
  | S754_zero _ => Some 0%Z
  | S754_finite s m e =>
      let a := Z.shiftl (Zpos m) e in Some (if s then (- a)%Z else a)
  | S754_infinity _ | S754_nan => None
  end.

(** [static_cast<std::size_t>(d)]: undefined unless the truncated value is
    representable. *)
Definition to_size_t (d : float) : option nat :=
  match truncate d with
  | Some z => if decide (0 ≤ z < 2 ^ 64)%Z then Some (Z.to_nat z) else None
  | None => None
  end.

(** [static_cast<int64_t>(d)]. *)
Definition to_int64 (d : float) : option Z :=
  match truncate d with
  | Some z => if decide (- 2 ^ 63 ≤ z < 2 ^ 63)%Z then Some z else None
  | None => None
  end.

(** The value of a [double] that holds the integer [n], [0 <= n < 2^63],
    with the sign bit [neg]. *)
Definition from_magnitude (neg : bool) (n : Z) : float :=
  let f := PrimFloat.of_uint63 (Uint63.of_Z n) in
  if neg then (- f)%float else f.

(** [static_cast<double>(n)] for a size or an [int]. *)
Definition of_size (n : nat) : float := from_magnitude false (Z.of_nat n).

(** [static_cast<double>(b)]. *)
Definition of_bool (b : bool) : float := if b then 1%float else 0%float.

(** [std::floor], [std::ceil] and [std::round]: a value with no fractional
    bits is returned as it is; otherwise its magnitude is below 2^53. *)
Definition round_with (up : bool → Z → Z → Z → bool) (d : float) : float :=
  match Prim2SF d with
  | S754_finite s m e =>
      if (0 <=? e)%Z then d
      else
        let q := Z.shiftl (Zpos m) e in
        let r := (Zpos m - Z.shiftl q (- e))%Z in
        from_magnitude s (if up s r (Z.shiftl 1 (- e)) q then q + 1 else q)%Z
  | _ => d
  end.

Definition floor : float → float :=
  round_with (λ s r _ _, s && negb (r =? 0)%Z).

Definition ceil : float → float :=
  round_with (λ s r _ _, negb s && negb (r =? 0)%Z).

Definition round : float → float :=
  round_with (λ _ r unit _, (unit <=? 2 * r)%Z).

(** [std::to_string(long long)]. *)
Definition to_string (z : Z) : string := NilZero.string_of_int (Z.to_int z).

(** [std::string] members. *)
Definition find (s pattern : string) (pos : nat) : option nat :=
  String.index pos pattern s.

Definition ends_with (s suffix : string) : bool :=
  let n := String.length s in
  let k := String.length suffix in
  (k <=? n)%nat && bool_decide (substring (n - k) k s = suffix).

(** [s.erase(pos)] for [pos <= s.size()]. *)
Definition erase (s : string) (pos : nat) : string := substring 0 pos s.

(** [s.substr(pos, count)] with the arguments as [std::size_t]; [None] when
    [pos > s.size()], where it throws [std::out_of_range]. *)
Definition substr (s : string) (pos count : Z) : option string :=
  let size := Z.of_nat (String.length s) in
  if decide (size < pos)%Z then None
  else Some (substring (Z.to_nat pos) (Z.to_nat (Z.min count (size - pos))) s).

(** [s.replace(pos, len, str)] for [pos <= s.size()]. *)
Definition replace (s : string) (pos len : nat) (str : string) : string :=
  substring 0 pos s +:+ str
    +:+ substring (pos + len) (String.length s - (pos + len)) s.

(** An integer converted to [std::size_t], and the result of arithmetic on
    [std::size_t]: the value modulo 2^64. *)
Definition as_size_t (z : Z) : Z := (z mod 2 ^ 64)%Z.

Definition map_string (f : ascii → ascii) : string → string :=
  fix go s := match s with
              | EmptyString => EmptyString
              | String c s' => String (f c) (go s')
              end.

(** [::tolower] and [::toupper] in the C locale. *)
Definition tolower (c : ascii) : ascii :=
  let n := nat_of_ascii c in
  if (65 <=? n)%nat && (n <=? 90)%nat then ascii_of_nat (n + 32) else c.

Definition toupper (c : ascii) : ascii :=
  let n := nat_of_ascii c in
  if (97 <=? n)%nat && (n <=? 122)%nat then ascii_of_nat (n - 32) else c.

(** [std::getline(in, line)]: the characters up to the first newline, which
    is taken from the stream and dropped, or up to the end. *)
Fixpoint getline (input : string) : string * string :=
  match input with
  | EmptyString => (EmptyString, EmptyString)
  | String c rest =>
      if decide (c = ascii_of_nat 10) then (EmptyString, rest)
      else let '(line, rest') := getline rest in (String c line, rest')
  end.

End cxx.

(** What the implementation decides: the parts of [<cmath>], [<cstdlib>],
    [<string>] and [<algorithm>] whose results the source relies on without
    fixing them, and the [what()] of the library's own exceptions. *)
Record Platform : Type := MkPlatform {
  fmod : float → float → float;
  pow : float → float → float;
  (** [std::to_string(double)] *)
  to_string_double : float → string;
  (** [strtod]: the value and the number of characters consumed *)
  strtod : string → float * nat;
  (** the value of the [n]-th call of [std::rand()] *)
  rand : nat → nat;
  (** [std::sort] with a comparator that may throw: the range as it is left
      and the exception in flight, if any; [None] when the comparator breaks
      the preconditions of [std::sort] *)
  sort : (ValueType → ValueType → Result bool) → list ValueType →
         option (list ValueType * option exception);
  (** [what()] of a [std::bad_variant_access] *)
  what_bad_variant_access : string;
  (** the message of the [std::out_of_range] that [substr(pos, count)] throws
      on a string of the given size *)
  what_substr : Z → nat → string;
  (** [what()] of a [std::bad_alloc] *)
  what_bad_alloc : string
}.

(** [e.what()]. *)
Definition what (libc : Platform) (e : exception) : string :=
  match e with
  | runtime_error what_arg
  | out_of_range what_arg
  | invalid_argument what_arg => what_arg
  | bad_variant_access => what_bad_variant_access libc
  | bad_alloc => what_bad_alloc libc
  end.

(** ** Const member functions and the primitive steps of the evaluator *)

(** A const member function run on the visitor. *)
Definition reads {A} (f : EvalVisitor → Result A) : M A := λ v,
  match f v with
  | Value a => Normal a v
  | Raise e => Thrown e v
  | UB => Undefined
  | NoFuel => OutOfFuel
  end.

(** [*p] for a [StringPtr] and a [ListPtr]; an address with no object behind
    it has no meaning. *)
Definition string_at (this : EvalVisitor) (p : ptr) : Result string :=
  match string_store this !! p with Some s => Value s | None => UB end.

Definition list_at (this : EvalVisitor) (p : ptr) : Result (list ValueType) :=
  match list_store this !! p with Some l => Value l | None => UB end.

(** [std::make_shared<std::string>(s)] and [std::make_shared<List>(l)].  An
    object is known by its place in the store and keeps it; the store
    frees nothing.  Where two pointers are compared, the places stand for
    the addresses: an allocator that hands out ever higher addresses and
    uses none again.  The allocator of a run may give a new object a lower
    address, or the address of one that was freed; so which of two
    different objects [<] puts first is an example of what a run may
    show, while that they are different, and that of two different
    objects just one is below the other, holds of every allocator. *)
Definition make_shared_string (s : string) : M ValueType := λ v,
  Normal (StringPtr (length (string_store v)))
         (set_string_store (string_store v ++ [s]) v).

Definition make_shared_List (l : list ValueType) : M ValueType := λ v,
  Normal (ListPtr (length (list_store v)))
         (set_list_store (list_store v ++ [l]) v).

(** An assignment through a [StringPtr] or to [p->elements]. *)
Definition assign_string (p : ptr) (s : string) : M unit :=
  modify (λ v, set_string_store (<[p := s]> (string_store v)) v).

Definition assign_elements (p : ptr) (l : list ValueType) : M unit :=
  modify (λ v, set_list_store (<[p := l]> (list_store v)) v).

(** [out_ << s]. *)
Definition write (s : string) : M unit :=
  modify (λ v, set_out_ (out_ v +:+ s) v).

Definition HoldsNumber (result : ValueType) : bool :=
  match result with Double _ => true | _ => false end.

Definition HoldsString (result : ValueType) : bool :=
  match result with StringPtr _ => true | _ => false end.

Definition HoldsList (result : ValueType) : bool :=
  match result with ListPtr _ => true | _ => false end.

Definition HoldsFunction (result : ValueType) : bool :=
  match result with FunctionPtr _ => true | _ => false end.

Definition HoldsIterable (result : ValueType) : bool :=
  HoldsList result || HoldsString result.

(** [std::get<T>(value)] throws [std::bad_variant_access] when the variant
    holds another alternative. *)
Definition get_double (value : ValueType) : Result float :=
  match value with Double d => Value d | _ => Raise bad_variant_access end.

Definition get_StringPtr (value : ValueType) : Result ptr :=
  match value with StringPtr p => Value p | _ => Raise bad_variant_access end.

Definition get_FunctionPtr (value : ValueType) : Result FunctionDefinition :=
  match value with FunctionPtr f => Value f | _ => Raise bad_variant_access end.

Definition get_ListPtr (value : ValueType) : Result ptr :=
  match value with ListPtr p => Value p | _ => Raise bad_variant_access end.

(** [*std::get<StringPtr>(value)] and [std::get<ListPtr>(value)->elements]. *)
Definition get_string (this : EvalVisitor) (value : ValueType) : Result string :=
  p ← get_StringPtr value; string_at this p.

Definition get_elements (this : EvalVisitor) (value : ValueType)
  : Result (list ValueType) :=
  p ← get_ListPtr value; list_at this p.

Definition is_empty (s : string) : bool :=
  match s with EmptyString => true | String _ _ => false end.

Definition GetBool (this : EvalVisitor) (value : ValueType) : Result bool :=
  match value with
  | Monostate => Value false
  | Double arg => Value (negb (arg =? 0)%float)
  | StringPtr arg => s ← string_at this arg; Value (negb (is_empty s))
  | FunctionPtr _ => Value false
  | ListPtr arg =>
      elements ← list_at this arg;
      Value (negb (bool_decide (elements = [])))
  end.

Section Evaluator.

Context (libc : Platform).

(** [ToString] calls itself on the elements of a list; a list may hold
    itself, so the recursion is bounded by fuel. *)
Fixpoint ToString (this : EvalVisitor) (fuel : nat) (value : ValueType)
  : Result string :=
  match fuel with
  | O => NoFuel
  | S fuel' =>
      match value with
      | Monostate => Value "nil"
      | Double arg =>
          if (cxx.floor arg =? arg)%float then
            match cxx.to_int64 arg with
            | Some z => Value (cxx.to_string z)
            | None => UB
            end
          else Value (to_string_double libc arg)
      | StringPtr arg =>
          s ← string_at this arg; Value (cxx.quote +:+ s +:+ cxx.quote)
      | FunctionPtr _ => Value "function"
      | ListPtr arg =>
          elements ← list_at this arg;
          text ← (fix loop (rest : list ValueType) : Result string :=
                    match rest with
                    | [] => Value ""
                    | element :: rest' =>
                        s ← ToString this fuel' element;
                        tail_text ← loop rest';
                        Value (s +:+ (if bool_decide (rest' = []) then ""
                                      else ", ") +:+ tail_text)
                    end) elements;
          Value ("[" +:+ text +:+ "]")
      end
  end.

(** *** Scopes *)

Definition push_scope (v : EvalVisitor) : EvalVisitor :=
  set_function_names_ (∅ :: function_names_ v) (set_scopes_ (∅ :: scopes_ v) v).

Definition pop_scope (v : EvalVisitor) : EvalVisitor :=
  set_function_names_ (tail (function_names_ v)) (set_scopes_ (tail (scopes_ v)) v).

Definition PushScope : M unit := modify push_scope.

Definition PopScope : M unit := modify pop_scope.

(** The walk from [scopes_.rbegin()] to [scopes_.rend()]. *)
Fixpoint find_from_back (scopes : list Scope) (variable_name : string)
  : option ValueType :=
  match scopes with
  | [] => None
  | it :: rest =>
      match it !! variable_name with
      | Some value => Some value
      | None => find_from_back rest variable_name
      end
  end.

(** [FindVariable] returns a pointer to the value found or [nullptr]. *)
Definition FindVariable (this : EvalVisitor) (variable_name : string)
  : option ValueType :=
  find_from_back (scopes_ this) variable_name.

(** The loop of [SetVariable]: the nearest scope, from the back, that holds
    the name gets the value; [None] when no scope holds it. *)
Fixpoint assign_from_back (scopes : list Scope) (variable_name : string)
    (value : ValueType) : option (list Scope) :=
  match scopes with
  | [] => None
  | it :: rest =>
      match it !! variable_name with
      | Some _ => Some (<[variable_name := value]> it :: rest)
      | None => (it ::.) <$> assign_from_back rest variable_name value
      end
  end.

(** [function_names_.back().insert(name)]. *)
Definition insert_function_name (name : string) : M unit := λ v,
  match function_names_ v with
  | [] => Undefined
  | back :: rest => Normal tt (set_function_names_ (({[name]} ∪ back) :: rest) v)
  end.

Definition SetVariable (variable_name : string) (value : ValueType) : M unit :=
  no_scope ← gets (λ v, bool_decide (scopes_ v = []));
  (if no_scope then PushScope else mret tt);;
  scopes ← gets scopes_;
  match assign_from_back scopes variable_name value with
  | Some scopes' =>
      modify (set_scopes_ scopes');;
      if HoldsFunction value then insert_function_name variable_name
      else mret tt
  | None =>
      match scopes with
      | [] => undefined
      | back :: rest =>
          modify (set_scopes_ (<[variable_name := value]> back :: rest));;
          if HoldsFunction value then insert_function_name variable_name
          else mret tt
      end
  end.

Definition IsFunctionName (this : EvalVisitor) (function_name : string) : bool :=
  existsb (λ scope : gset string, bool_decide (function_name ∈ scope))
          (function_names_ this).

(** *** Comparisons *)

(** The function objects handed to [CalculateCompare], by what they answer
    on each kind of operand the template is instantiated with: two
    [std::monostate]s, two [double]s, two [std::shared_ptr]s (compared by
    the addresses they hold). *)
Record Operation : Type := MkOperation {
  on_monostate : bool;
  on_double : float → float → bool;
  on_shared_ptr : ptr → ptr → bool
}.

Definition std_less : Operation :=
  MkOperation false PrimFloat.ltb Nat.ltb.
Definition std_greater : Operation :=
  MkOperation false (λ a b, PrimFloat.ltb b a) (λ a b, Nat.ltb b a).
Definition std_equal_to : Operation :=
  MkOperation true PrimFloat.eqb Nat.eqb.
Definition std_not_equal_to : Operation :=
  MkOperation false (λ a b, negb (PrimFloat.eqb a b)) (λ a b, negb (Nat.eqb a b)).
Definition std_less_equal : Operation :=
  MkOperation true PrimFloat.leb Nat.leb.
Definition std_greater_equal : Operation :=
  MkOperation true (λ a b, PrimFloat.leb b a) (λ a b, Nat.leb b a).

Definition CalculateCompare (lhs rhs : ValueType) (operation : Operation)
  : M unit :=
  modify (set_result_ (Double
    match lhs, rhs with
    | Monostate, Monostate => cxx.of_bool (on_monostate operation)
    | Double lhs, Double rhs => cxx.of_bool (on_double operation lhs rhs)
    | StringPtr lhs, StringPtr rhs => cxx.of_bool (on_shared_ptr operation lhs rhs)
    | FunctionPtr lhs, FunctionPtr rhs =>
        cxx.of_bool (on_shared_ptr operation (address_of lhs) (address_of rhs))
    | ListPtr lhs, ListPtr rhs => cxx.of_bool (on_shared_ptr operation lhs rhs)
    | _, _ => 0%float
    end)).

(** The branch the six comparisons share: both operands hold a string. *)
Definition compare_strings (lhs rhs : ValueType) (cmp : string → string → bool)
  : M unit :=
  a ← reads (λ this, get_string this lhs);
  b ← reads (λ this, get_string this rhs);
  modify (set_result_ (Double (cxx.of_bool (cmp a b)))).

Definition CalculateLess (lhs rhs : ValueType) : M unit :=
  if HoldsString lhs && HoldsString rhs then compare_strings lhs rhs String.ltb
  else CalculateCompare lhs rhs std_less.

Definition CalculateGreater (lhs rhs : ValueType) : M unit :=
  if HoldsString lhs && HoldsString rhs
  then compare_strings lhs rhs (λ a b, String.ltb b a)
  else CalculateCompare lhs rhs std_greater.

Definition CalculateEqual (lhs rhs : ValueType) : M unit :=
  if HoldsString lhs && HoldsString rhs then compare_strings lhs rhs String.eqb
  else CalculateCompare lhs rhs std_equal_to.

Definition CalculateNotEqual (lhs rhs : ValueType) : M unit :=
  if HoldsString lhs && HoldsString rhs
  then compare_strings lhs rhs (λ a b, negb (String.eqb a b))
  else CalculateCompare lhs rhs std_not_equal_to.

Definition CalculateLessOrEqual (lhs rhs : ValueType) : M unit :=
  if HoldsString lhs && HoldsString rhs then compare_strings lhs rhs String.leb
  else CalculateCompare lhs rhs std_less_equal.

Definition CalculateGreaterOrEqual (lhs rhs : ValueType) : M unit :=
  if HoldsString lhs && HoldsString rhs
  then compare_strings lhs rhs (λ a b, String.leb b a)
  else CalculateCompare lhs rhs std_greater_equal.

(** *** Arithmetic *)

Definition incorrect_operands (op : string) : exception :=
  runtime_error ("Incorrect operands in binary expression: A " +:+ op +:+ " B").

Definition CalculateAdd (lhs rhs : ValueType) : M unit :=
  if HoldsNumber lhs && HoldsNumber rhs then
    a ← reads (λ _, get_double lhs);
    b ← reads (λ _, get_double rhs);
    modify (set_result_ (Double (a + b)%float))
  else if HoldsString lhs && HoldsString rhs then
    a ← reads (λ this, get_string this lhs);
    b ← reads (λ this, get_string this rhs);
    r ← make_shared_string (a +:+ b);
    modify (set_result_ r)
  else if HoldsList lhs && HoldsList rhs then
    lhs_list ← reads (λ this, get_elements this lhs);
    rhs_list ← reads (λ this, get_elements this rhs);
    r ← make_shared_List (lhs_list ++ rhs_list);
    modify (set_result_ r)
  else throw (incorrect_operands "+").

Definition CalculateSub (lhs rhs : ValueType) : M unit :=
  if HoldsString lhs && HoldsString rhs then
    lhs_value ← reads (λ this, get_string this lhs);
    rhs_value ← reads (λ this, get_string this rhs);
    r ← make_shared_string
          (if cxx.ends_with lhs_value rhs_value
           then cxx.erase lhs_value
                  (String.length lhs_value - String.length rhs_value)
           else lhs_value);
    modify (set_result_ r)
  else if HoldsNumber lhs && HoldsNumber rhs then
    a ← reads (λ _, get_double lhs);
    b ← reads (λ _, get_double rhs);
    modify (set_result_ (Double (a - b)%float))
  else throw (incorrect_operands "-").

(** The loops of [CalculateMult]: [new_size] elements, the [i]-th one being
    [elements[i % elements.size()]]. *)
Definition repeat_elements {A} (elements : list A) (new_size : nat)
  : option (list A) :=
  mapM (λ i, elements !! (i `mod` length elements)) (seq 0 new_size).

Definition CalculateMult (lhs rhs : ValueType) : M unit :=
  if HoldsNumber lhs && HoldsNumber rhs then
    a ← reads (λ _, get_double lhs);
    b ← reads (λ _, get_double rhs);
    modify (set_result_ (Double (a * b)%float))
  else if HoldsList lhs && HoldsNumber rhs then
    rhs_value ← reads (λ _, get_double rhs);
    if (rhs_value <? 0)%float
    then throw (runtime_error "Can not multiply a list by a negative number")
    else
      lhs_list ← reads (λ this, get_elements this lhs);
      count ← defined (cxx.to_size_t rhs_value);
      let new_size := Z.to_nat (cxx.as_size_t
                                  (Z.of_nat count * Z.of_nat (length lhs_list))) in
      buffer ← defined (repeat_elements lhs_list new_size);
      r ← make_shared_List buffer;
      modify (set_result_ r)
  else if negb (HoldsString lhs) || negb (HoldsNumber rhs) then
    throw (incorrect_operands "*")
  else
    rhs_value ← reads (λ _, get_double rhs);
    if (rhs_value <? 0)%float
    then throw (runtime_error "Can not multiply a string by a negative number")
    else
      lhs_value ← reads (λ this, get_string this lhs);
      new_size ← defined (cxx.to_size_t
                            (rhs_value * cxx.of_size (String.length lhs_value))%float);
      buffer ← defined (repeat_elements (list_ascii_of_string lhs_value) new_size);
      r ← make_shared_string (string_of_list_ascii buffer);
      modify (set_result_ r).

Definition CalculateDiv (lhs rhs : ValueType) : M unit :=
  if HoldsNumber lhs && HoldsNumber rhs then
    a ← reads (λ _, get_double lhs);
    b ← reads (λ _, get_double rhs);
    modify (set_result_ (Double (a / b)%float))
  else throw (incorrect_operands "/").

Definition CalculateMod (lhs rhs : ValueType) : M unit :=
  if HoldsNumber lhs && HoldsNumber rhs then
    a ← reads (λ _, get_double lhs);
    b ← reads (λ _, get_double rhs);
    modify (set_result_ (Double (fmod libc a b)))
  else throw (incorrect_operands "%").

Definition CalculatePow (lhs rhs : ValueType) : M unit :=
  if HoldsNumber lhs && HoldsNumber rhs then
    a ← reads (λ _, get_double lhs);
    b ← reads (λ _, get_double rhs);
    modify (set_result_ (Double (pow libc a b)))
  else throw (incorrect_operands "^").

(** ** The [Visit] overloads

    [Calculate node] stands for [node->Calculate( *this )], the virtual call
    that comes back to the [Visit] overload of the node's class; [fuel]
    bounds the loops that the source does not bound. *)

Section Visit.

Context (Calculate : BaseNode → M unit) (fuel : nat).

Definition Visit_NumberLiteralNode (value_ : float) : M unit :=
  modify (set_result_ (Double value_)).

Definition Visit_StringLiteralNode (value_ : string) : M unit :=
  r ← make_shared_string value_;
  modify (set_result_ r).

Definition Visit_NilLiteralNode : M unit :=
  modify (set_result_ Monostate).

(** The loop of [Visit(ListLiteralNode&)], which fills [elements]. *)
Fixpoint calculate_elements (nodes : list BaseNode) : M (list ValueType) :=
  match nodes with
  | [] => mret []
  | element :: rest =>
      Calculate element;;
      result ← gets result_;
      elements ← calculate_elements rest;
      mret (result :: elements)
  end.

Definition Visit_ListLiteralNode (elements_ : list BaseNode) : M unit :=
  elements ← calculate_elements elements_;
  r ← make_shared_List elements;
  modify (set_result_ r).

Definition Visit_VariableNode (name_ : string) : M unit :=
  value ← gets (λ this, FindVariable this name_);
  match value with
  | Some value => modify (set_result_ value)
  | None => throw (runtime_error ("Variable '" +:+ name_ +:+ "' not found"))
  end.

(** *** Assignments; [lhs_] and [rhs_] are the operands of [node] *)

Definition AssignToLeftOperand (lhs_ : BaseNode) : M unit :=
  match lhs_ with
  | VariableNode variable_name =>
      result ← gets result_;
      (if HoldsFunction result then
         no_names ← gets (λ v, bool_decide (function_names_ v = []));
         (if no_names then modify (set_function_names_ [∅]) else mret tt);;
         insert_function_name variable_name
       else mret tt);;
      SetVariable variable_name result
  | _ =>
      throw (runtime_error "The left operand of the assignment must be a variable")
  end.

Definition CalculateAssign (lhs_ rhs_ : BaseNode) : M unit :=
  Calculate rhs_;;
  AssignToLeftOperand lhs_.

(** The six compound assignments differ in the operation only. *)
Definition compound_assign (operation : ValueType → ValueType → M unit)
    (lhs_ rhs_ : BaseNode) : M unit :=
  Calculate lhs_;;
  lhs ← gets result_;
  Calculate rhs_;;
  rhs ← gets result_;
  operation lhs rhs;;
  AssignToLeftOperand lhs_.

Definition CalculateAddAssign := compound_assign (CalculateAdd).
Definition CalculateSubAssign := compound_assign (CalculateSub).
Definition CalculateMultAssign := compound_assign (CalculateMult).
Definition CalculateDivAssign := compound_assign (CalculateDiv).
Definition CalculateModAssign := compound_assign (CalculateMod).
Definition CalculatePowAssign := compound_assign (CalculatePow).

Definition Visit_BinaryOperationNode (operation_ : TokenType)
    (lhs_ rhs_ : BaseNode) : M unit :=
  match operation_ with
  | kAssign => CalculateAssign lhs_ rhs_
  | kAddAssign => CalculateAddAssign lhs_ rhs_
  | kSubAssign => CalculateSubAssign lhs_ rhs_
  | kMultAssign => CalculateMultAssign lhs_ rhs_
  | kDivAssign => CalculateDivAssign lhs_ rhs_
  | kModAssign => CalculateModAssign lhs_ rhs_
  | kPowAssign => CalculatePowAssign lhs_ rhs_
  | _ =>
      Calculate lhs_;;
      lhs ← gets result_;
      Calculate rhs_;;
      rhs ← gets result_;
      match operation_ with
      | kMultiply => CalculateMult lhs rhs
      | kMinus => CalculateSub lhs rhs
      | kPlus => CalculateAdd lhs rhs
      | kDivide => CalculateDiv lhs rhs
      | kModulo => CalculateMod lhs rhs
      | kPower => CalculatePow lhs rhs
      | kEqual => CalculateEqual lhs rhs
      | kNotEqual => CalculateNotEqual lhs rhs
      | kLess => CalculateLess lhs rhs
      | kLessOrEqual => CalculateLessOrEqual lhs rhs
      | kGreater => CalculateGreater lhs rhs
      | kGreaterOrEqual => CalculateGreaterOrEqual lhs rhs
      | _ => mret tt
      end
  end.

(** *** Unary operations; [arg_] is the operand of [node] *)

Definition CalculateUnaryMinus (arg_ : BaseNode) : M unit :=
  Calculate arg_;;
  result ← gets result_;
  if HoldsNumber result then
    d ← reads (λ _, get_double result);
    modify (set_result_ (Double (- d)%float))
  else throw (runtime_error "Unary minus can be applied only to the number").

Definition CalculateUnaryPlus (arg_ : BaseNode) : M unit :=
  Calculate arg_;;
  result ← gets result_;
  if HoldsNumber result then
    d ← reads (λ _, get_double result);
    modify (set_result_ (Double d))
  else throw (runtime_error "Unary plus can be applied only to the number").

Definition CalculateLogicalNot (arg_ : BaseNode) : M unit :=
  Calculate arg_;;
  result ← gets result_;
  b ← reads (λ this, GetBool this result);
  modify (set_result_ (Double (cxx.of_bool (negb b)))).

Definition Visit_UnaryOperationNode (operation_ : TokenType) (arg_ : BaseNode)
  : M unit :=
  Calculate arg_;;
  match operation_ with
  | kMinus => CalculateUnaryMinus arg_
  | kPlus => CalculateUnaryPlus arg_
  | kLogicalNot => CalculateLogicalNot arg_
  | _ => mret tt
  end.

(** *** Statements *)

(** A loop over statements that is left as soon as [stop control_flow_]
    holds after one of them. *)
Fixpoint statement_loop (stop : ControlFlow → bool) (statements : list BaseNode)
  : M unit :=
  match statements with
  | [] => mret tt
  | statement :: rest =>
      Calculate statement;;
      control_flow ← gets control_flow_;
      if stop control_flow then mret tt else statement_loop stop rest
  end.

Definition not_default (control_flow : ControlFlow) : bool :=
  negb (bool_decide (control_flow = kDefault)).

Definition is_return (control_flow : ControlFlow) : bool :=
  bool_decide (control_flow = kReturnFlow).

Definition ExecuteStatements (statements : list BaseNode) : M unit :=
  statement_loop not_default statements.

Definition Visit_IfNode (then_statements_ else_statements_ : list BaseNode)
    (condition_ : BaseNode) : M unit :=
  Calculate condition_;;
  result ← gets result_;
  condition ← reads (λ this, GetBool this result);
  PushScope;;
  (if condition then ExecuteStatements then_statements_
   else ExecuteStatements else_statements_);;
  PopScope.

Definition Visit_FunctionImplementationNode (function_ : FunctionDefinition)
  : M unit :=
  modify (set_result_ (FunctionPtr function_)).

Definition Visit_BreakNode : M unit := modify (set_control_flow_ kBreakFlow).

Definition Visit_ContinueNode : M unit := modify (set_control_flow_ kContinueFlow).

Definition Visit_ReturnNode (value_ : BaseNode) : M unit :=
  Calculate value_;;
  modify (set_control_flow_ kReturnFlow).

Definition Visit_RootNode (statements_ : list BaseNode) : M unit :=
  statement_loop (λ _, false) statements_.

(** *** Function calls *)

(** The loop that evaluates [node.args()[i]] and binds it to
    [arg_names()[i]], for every parameter name. *)
Fixpoint bind_arguments (names : list string) (args_ : list BaseNode) (i : nat)
  : M unit :=
  match names with
  | [] => mret tt
  | name :: names' =>
      arg ← defined (args_ !! i);
      Calculate arg;;
      result ← gets result_;
      SetVariable name result;;
      bind_arguments names' args_ (S i)
  end.

(** The [dynamic_cast] of the stored pointer can only fail on a null
    pointer, and no value holds one. *)
Definition Visit_UnnamedFunctionCallNode (function_ : BaseNode)
    (args_ : list BaseNode) : M unit :=
  Calculate function_;;
  result ← gets result_;
  (if HoldsFunction result then mret tt
   else throw (runtime_error "() operator can be applied only to the function"));;
  func ← reads (λ _, get_FunctionPtr result);
  PushScope;;
  bind_arguments (arg_names func) args_ 0;;
  statement_loop is_return (body func);;
  PopScope;;
  control_flow ← gets control_flow_;
  if is_return control_flow then modify (set_control_flow_ kDefault)
  else modify (set_result_ Monostate).

Definition Visit_FunctionCallNode (function_name_ : string)
    (args_ : list BaseNode) : M unit :=
  known ← gets (λ this, IsFunctionName this function_name_);
  if negb known then
    throw (runtime_error ("Function " +:+ function_name_ +:+ " not found"))
  else
    variable ← gets (λ this, FindVariable this function_name_);
    match variable with
    | None =>
        throw (runtime_error ("Function '" +:+ function_name_ +:+ "' not found"))
    | Some variable =>
        function ← reads (λ _, get_FunctionPtr variable);
        PushScope;;
        (if negb (length (arg_names function) =? length args_)%nat then
           throw (runtime_error
                    ("Function '" +:+ function_name_ +:+ "' with "
                     +:+ cxx.to_string (Z.of_nat (length args_))
                     +:+ " arguments not found"))
         else mret tt);;
        bind_arguments (arg_names function) args_ 0;;
        statement_loop is_return (body function);;
        PopScope;;
        control_flow ← gets control_flow_;
        (if is_return control_flow then mret tt
         else modify (set_result_ Monostate));;
        modify (set_control_flow_ kDefault)
    end.

(** *** Loops *)

(** What follows [PopScope()] in the [while] loop and in the list branch of
    the [for] loop: [continue] on [kDefault]; otherwise the flag goes back
    to [kDefault] unless it is [kReturn]; then the next round begins. *)
Definition after_body : M unit :=
  control_flow ← gets control_flow_;
  if bool_decide (control_flow = kDefault) then mret tt
  else if negb (is_return control_flow) then modify (set_control_flow_ kDefault)
  else mret tt.

Fixpoint while_loop (rounds : nat) (condition_ : BaseNode)
    (statements_ : list BaseNode) : M unit :=
  match rounds with
  | O => out_of_fuel
  | S rounds' =>
      Calculate condition_;;
      result ← gets result_;
      condition ← reads (λ this, GetBool this result);
      if negb condition then mret tt
      else
        PushScope;;
        statement_loop not_default statements_;;
        PopScope;;
        after_body;;
        while_loop rounds' condition_ statements_
  end.

Definition Visit_WhileNode (condition_ : BaseNode) (statements_ : list BaseNode)
  : M unit :=
  while_loop fuel condition_ statements_.

(** The range-based [for] over [sequence->elements]: [size] is where the end
    iterator stood when the loop began, [i] the position of the iterator.  A
    body that changes the size of the vector invalidates the iterators. *)
Fixpoint list_rounds (iterable_name_ : string) (statements_ : list BaseNode)
    (sequence : ptr) (size i rounds : nat) : M unit :=
  match rounds with
  | O => mret tt
  | S rounds' =>
      elements ← reads (λ this, list_at this sequence);
      (if (length elements =? size)%nat then mret tt else undefined);;
      element ← defined (elements !! i);
      PushScope;;
      SetVariable iterable_name_ element;;
      statement_loop not_default statements_;;
      PopScope;;
      after_body;;
      list_rounds iterable_name_ statements_ sequence size (S i) rounds'
  end.

(** The statements of the body in the string branch; [true] when the
    [return] statement of [Visit] was reached. *)
Fixpoint string_statements (statements : list BaseNode) : M bool :=
  match statements with
  | [] => mret false
  | statement :: rest =>
      Calculate statement;;
      control_flow ← gets control_flow_;
      match control_flow with
      | kBreakFlow => modify (set_control_flow_ kDefault);; mret false
      | kContinueFlow =>
          modify (set_control_flow_ kDefault);; string_statements rest
      | kReturnFlow => mret true
      | kDefault => string_statements rest
      end
  end.

(** Ghost step: the string branch returns with its scope still pushed. *)
Definition leave_unpopped : M unit :=
  modify (λ v, set_unpopped (S (unpopped v)) v).

Fixpoint string_rounds (iterable_name_ : string) (statements_ : list BaseNode)
    (sequence : ptr) (size i rounds : nat) : M unit :=
  match rounds with
  | O => mret tt
  | S rounds' =>
      s ← reads (λ this, string_at this sequence);
      (if (String.length s =? size)%nat then mret tt else undefined);;
      c ← defined (String.get i s);
      PushScope;;
      variable ← make_shared_string (String c EmptyString);
      SetVariable iterable_name_ variable;;
      returned ← string_statements statements_;
      if returned : bool then leave_unpopped
      else
        PopScope;;
        string_rounds iterable_name_ statements_ sequence size (S i) rounds'
  end.

Definition Visit_ForNode (iterable_name_ : string) (sequence_ : BaseNode)
    (statements_ : list BaseNode) : M unit :=
  Calculate sequence_;;
  result ← gets result_;
  if negb (HoldsString result) && negb (HoldsList result) then
    throw (runtime_error "Sequence must be iterable")
  else if HoldsList result then
    sequence ← reads (λ _, get_ListPtr result);
    elements ← reads (λ this, list_at this sequence);
    list_rounds iterable_name_ statements_ sequence
                (length elements) 0 (length elements)
  else
    sequence ← reads (λ _, get_StringPtr result);
    s ← reads (λ this, string_at this sequence);
    string_rounds iterable_name_ statements_ sequence
                  (String.length s) 0 (String.length s).

End Visit.

(** ** Built-in functions *)

Section GlobalFunctions.

Context (Calculate : BaseNode → M unit) (fuel : nat).

(** The check of [node.args().size()] that opens most built-ins. *)
Definition require_args (n : nat) (args_ : list BaseNode) (message : string)
  : M unit :=
  if (length args_ =? n)%nat then mret tt else throw (runtime_error message).

(** [node.args()[i]->Calculate( *this )]. *)
Definition calculate_arg (args_ : list BaseNode) (i : nat) : M unit :=
  arg ← defined (args_ !! i);
  Calculate arg.

Definition ExecutePrint (args_ : list BaseNode) : M unit :=
  require_args 1 args_ "print() requires one argument";;
  calculate_arg args_ 0;;
  result ← gets result_;
  if HoldsString result then
    s ← reads (λ this, get_string this result);
    write s
  else
    s ← reads (λ this, ToString this fuel result);
    write s.

Definition ExecutePrintln (args_ : list BaseNode) : M unit :=
  ExecutePrint args_;;
  write cxx.newline.

Definition ExecuteLen (args_ : list BaseNode) : M unit :=
  require_args 1 args_ "len() requires one argument";;
  calculate_arg args_ 0;;
  result ← gets result_;
  match result with
  | StringPtr value =>
      s ← reads (λ this, string_at this value);
      modify (set_result_ (Double (cxx.of_size (String.length s))))
  | ListPtr value =>
      elements ← reads (λ this, list_at this value);
      modify (set_result_ (Double (cxx.of_size (length elements))))
  | _ =>
      throw (runtime_error "len() can be applied only to the iterable object")
  end.

Definition ExecuteRead (args_ : list BaseNode) : M unit :=
  input ← gets (λ v, cxx.getline (in_ v));
  modify (set_in_ (snd input));;
  r ← make_shared_string (fst input);
  modify (set_result_ r).

(** The loop of [ExecuteStackTrace] over the bindings of [scopes_.back()];
    the order in which a [std::unordered_map] hands them out is the
    implementation's, here the order of [map_to_list]. *)
Fixpoint stack_trace_lines (this : EvalVisitor) (bindings : list (string * ValueType))
  : Result string :=
  match bindings with
  | [] => Value ""
  | (f, s) :: rest =>
      value ← ToString this fuel s;
      lines ← stack_trace_lines this rest;
      Value ("variable name: " +:+ f +:+ ", value: " +:+ value
             +:+ cxx.newline +:+ lines)
  end.

Definition ExecuteStackTrace (args_ : list BaseNode) : M unit :=
  scopes ← gets scopes_;
  match scopes with
  | [] =>
      r ← make_shared_string "Empty trace";
      modify (set_result_ r)
  | back :: _ =>
      stack_trace ← reads (λ this, stack_trace_lines this (map_to_list back));
      r ← make_shared_string stack_trace;
      modify (set_result_ r)
  end.

(** [ExecuteLower] and [ExecuteUpper] differ in the name and the mapping. *)
Definition transform_string (name : string) (f : ascii → ascii)
    (args_ : list BaseNode) : M unit :=
  require_args 1 args_ (name +:+ "() requires one argument");;
  calculate_arg args_ 0;;
  result ← gets result_;
  match result with
  | StringPtr arg =>
      s ← reads (λ this, string_at this arg);
      r ← make_shared_string (cxx.map_string f s);
      modify (set_result_ r)
  | _ => throw (runtime_error (name +:+ "() can be applied only to the string"))
  end.

Definition ExecuteLower := transform_string "lower" cxx.tolower.
Definition ExecuteUpper := transform_string "upper" cxx.toupper.

(** [std::move( *std::get<StringPtr>(result_))] into a local: the local gets
    the characters and the shared string stays behind moved-from, which the
    implementations at hand leave empty. *)
Definition move_string_from_result : M string :=
  result ← gets result_;
  p ← reads (λ _, get_StringPtr result);
  s ← reads (λ this, string_at this p);
  assign_string p EmptyString;;
  mret s.

(** The loop of [ExecuteJoin] from position [i] on. *)
Fixpoint join_elements (this : EvalVisitor) (elements : list ValueType)
    (delimiter : string) : Result string :=
  match elements with
  | [] => Value ""
  | element :: rest =>
      s ← (if HoldsString element then get_string this element
           else ToString this fuel element);
      tail_text ← join_elements this rest delimiter;
      Value (s +:+ (if bool_decide (rest = []) then "" else delimiter)
             +:+ tail_text)
  end.

Definition ExecuteJoin (args_ : list BaseNode) : M unit :=
  require_args 2 args_ "join() requires two arguments";;
  calculate_arg args_ 0;;
  result ← gets result_;
  if negb (HoldsList result) then
    throw (runtime_error "all arguments of join() must be lists")
  else
    list ← reads (λ _, get_ListPtr result);
    calculate_arg args_ 1;;
    delimiter ← move_string_from_result;
    elements ← reads (λ this, list_at this list);
    text ← reads (λ this, join_elements this elements delimiter);
    r ← make_shared_string text;
    modify (set_result_ r).

(** The loop of [ExecuteSplit].  A round that leaves [start] where it was
    (the delimiter is empty, and found at [start]) has only put a string
    into [result]. *)
Fixpoint split_pieces (rounds : nat) (source_str delimiter : string)
    (start : nat) : Result (list string) :=
  match rounds with
  | O => NoFuel
  | S rounds' =>
      match cxx.find source_str delimiter start with
      | Some end_ =>
          if decide (end_ + String.length delimiter = start)
          then fills_the_memory
          else
          rest ← split_pieces rounds' source_str delimiter
                   (end_ + String.length delimiter);
          Value (substring start (end_ - start) source_str :: rest)
      | None =>
          Value [substring start (String.length source_str - start) source_str]
      end
  end.

Fixpoint make_shared_strings (pieces : list string) : M (list ValueType) :=
  match pieces with
  | [] => mret []
  | piece :: rest =>
      r ← make_shared_string piece;
      others ← make_shared_strings rest;
      mret (r :: others)
  end.

Definition ExecuteSplit (args_ : list BaseNode) : M unit :=
  require_args 2 args_ "split() requires two arguments";;
  calculate_arg args_ 0;;
  result ← gets result_;
  if negb (HoldsString result) then
    throw (runtime_error "all arguments of split() must be strings")
  else
    source_str ← move_string_from_result;
    calculate_arg args_ 1;;
    result ← gets result_;
    if negb (HoldsString result) then
      throw (runtime_error "all arguments of split() must be strings")
    else
      delimiter ← move_string_from_result;
      pieces ← reads (λ _, split_pieces fuel source_str delimiter 0);
      elements ← make_shared_strings pieces;
      r ← make_shared_List elements;
      modify (set_result_ r).

(** The loop of [ExecuteRange].  Where [i + step] is rounded to [i] a
    round leaves [i] where it was and has only put it into [sequence]. *)
Fixpoint range_values (rounds : nat) (i end_ step : float) : Result (list float) :=
  match rounds with
  | O => NoFuel
  | S rounds' =>
      if (if (0 <? step)%float then (i <? end_)%float else (end_ <? i)%float)
      then
        if (i + step =? i)%float then fills_the_memory
        else
        rest ← range_values rounds' (i + step)%float end_ step;
        Value (i :: rest)
      else Value []
  end.

(** An argument of [range()]: evaluated, checked, read. *)
Definition range_arg (args_ : list BaseNode) (i : nat) : M float :=
  calculate_arg args_ i;;
  result ← gets result_;
  if negb (HoldsNumber result) then
    throw (runtime_error "all arguments of range() must be numbers")
  else reads (λ _, get_double result).

Definition ExecuteRange (args_ : list BaseNode) : M unit :=
  require_args 3 args_ "range() requires three arguments";;
  start ← range_arg args_ 0;
  end_ ← range_arg args_ 1;
  step ← range_arg args_ 2;
  if (step =? 0)%float then
    throw (runtime_error "Step of range() must be non-zero")
  else if (0 <? step)%float && (end_ <=? start)%float then
    throw (runtime_error
             "Start of range() must be less than end if step is positive")
  else if (step <? 0)%float && (start <=? end_)%float then
    throw (runtime_error
             "Start of range() must be greater than end if step is negative")
  else
    sequence ← reads (λ _, range_values fuel start end_ step);
    r ← make_shared_List (Double <$> sequence);
    modify (set_result_ r).

Definition ExecutePush (args_ : list BaseNode) : M unit :=
  require_args 2 args_ "Push() requires two arguments";;
  calculate_arg args_ 0;;
  result ← gets result_;
  if negb (HoldsList result) then
    throw (runtime_error "First argument of push() must be list")
  else
    list ← reads (λ _, get_ListPtr result);
    calculate_arg args_ 1;;
    result ← gets result_;
    elements ← reads (λ this, list_at this list);
    assign_elements list (elements ++ [result]);;
    modify (set_result_ (ListPtr list)).

Definition ExecutePop (args_ : list BaseNode) : M unit :=
  require_args 1 args_ "Pop() requires one arguments";;
  calculate_arg args_ 0;;
  result ← gets result_;
  if negb (HoldsList result) then
    throw (runtime_error "Argument of pop() must be list")
  else
    list ← reads (λ _, get_ListPtr result);
    elements ← reads (λ this, list_at this list);
    if bool_decide (elements = []) then
      throw (runtime_error "Can not pop from empty list")
    else assign_elements list (take (length elements - 1) elements).

Definition ExecuteInsert (args_ : list BaseNode) : M unit :=
  require_args 3 args_ "Insert() requires three arguments";;
  calculate_arg args_ 0;;
  result ← gets result_;
  if negb (HoldsList result) then
    throw (runtime_error "First argument of insert() must be list")
  else
    list ← reads (λ _, get_ListPtr result);
    calculate_arg args_ 1;;
    result ← gets result_;
    if negb (HoldsNumber result) then
      throw (runtime_error "Second argument of insert() must be number")
    else
      d ← reads (λ _, get_double result);
      index ← defined (cxx.to_size_t d);
      calculate_arg args_ 2;;
      result ← gets result_;
      elements ← reads (λ this, list_at this list);
      (if (index <=? length elements)%nat then
         assign_elements list (take index elements ++ result :: drop index elements)
       else undefined);;
      modify (set_result_ (ListPtr list)).

Definition ExecuteRemove (args_ : list BaseNode) : M unit :=
  require_args 2 args_ "Remove() requires two arguments";;
  calculate_arg args_ 0;;
  result ← gets result_;
  if negb (HoldsList result) then
    throw (runtime_error "First argument of remove() must be list")
  else
    list ← reads (λ _, get_ListPtr result);
    calculate_arg args_ 1;;
    result ← gets result_;
    if negb (HoldsNumber result) then
      throw (runtime_error "Second argument of remove() must be number")
    else
      d ← reads (λ _, get_double result);
      index ← defined (cxx.to_size_t d);
      elements ← reads (λ this, list_at this list);
      if (length elements <=? index)%nat then
        throw (runtime_error "Index is out of range when removing from list")
      else
        assign_elements list (delete index elements);;
        modify (set_result_ (ListPtr list)).

(** The comparator handed to [std::sort]. *)
Definition sort_compare (this : EvalVisitor) (lhs rhs : ValueType) : Result bool :=
  match lhs, rhs with
  | StringPtr a, StringPtr b =>
      x ← string_at this a; y ← string_at this b; Value (String.ltb x y)
  | ListPtr a, ListPtr b =>
      x ← list_at this a; y ← list_at this b; Value (length x <? length y)%nat
  | Double a, Double b => Value (a <? b)%float
  | Monostate, Monostate => Value true
  | FunctionPtr _, FunctionPtr _ =>
      Raise (runtime_error "sort() can not be applied to the list of the function")
  | _, _ =>
      Raise (runtime_error "sort() can be applied only to the list of the same type")
  end.

Definition ExecuteSort (args_ : list BaseNode) : M unit :=
  require_args 1 args_ "sort() requires one argument";;
  calculate_arg args_ 0;;
  result ← gets result_;
  if negb (HoldsList result) then
    throw (runtime_error "Argument of sort() must be list")
  else
    list ← reads (λ _, get_ListPtr result);
    elements ← reads (λ this, list_at this list);
    sorted ← reads (λ this,
                match sort libc (sort_compare this) elements with
                | Some outcome => Value outcome
                | None => UB
                end);
    assign_elements list (fst sorted);;
    match snd sorted with
    | Some e => throw e
    | None => modify (set_result_ (ListPtr list))
    end.

(** A result of [int64_t] arithmetic: signed overflow is undefined. *)
Definition int64 (z : Z) : Result Z :=
  if decide (- 2 ^ 63 ≤ z < 2 ^ 63)%Z then Value z else UB.

(** [List::GetElement].  In [index >= elements.size()] the index is
    converted to [std::size_t]. *)
Definition GetElement (elements : list ValueType) (index : Z) : Result ValueType :=
  let size := Z.of_nat (length elements) in
  if decide (size ≤ cxx.as_size_t index ∨ index < - size)%Z then
    Raise (runtime_error "Index is out of range when getting element from list")
  else
    let index := (if decide (index < 0)%Z then index + size else index)%Z in
    match elements !! Z.to_nat index with
    | Some element => Value element
    | None => UB
    end.

(** [elements[i]] for an [int64_t i]. *)
Definition at_int64 (elements : list ValueType) (i : Z) : Result ValueType :=
  if decide (cxx.as_size_t i < Z.of_nat (length elements))%Z then
    match elements !! Z.to_nat i with
    | Some element => Value element
    | None => UB
    end
  else UB.

(** The loop of [List::GetSublist].  With a [step] of zero a round leaves
    [i] where it was and has only put an element into [result]. *)
Fixpoint sublist_from (rounds : nat) (elements : list ValueType) (i end_ step : Z)
  : Result (list ValueType) :=
  match rounds with
  | O => NoFuel
  | S rounds' =>
      element ← at_int64 elements i;
      if decide ((step < 0 ∧ i ≤ end_) ∨ (0 < step ∧ end_ ≤ i))%Z
      then Value [element]
      else
        next ← int64 (i + step);
        if decide (next = i) then fills_the_memory
        else
        rest ← sublist_from rounds' elements next end_ step;
        Value (element :: rest)
  end.

Definition GetSublist (elements : list ValueType) (start end_ step : Z)
  : Result (list ValueType) :=
  let size := Z.of_nat (length elements) in
  if decide (0 < start ∧ end_ < 0)%Z then Value []
  else if decide (start < 0 ∧ 0 < end_)%Z then Value []
  else
    let start := (if decide (start < 0)%Z then start + size else start)%Z in
    let end_ := (if decide (end_ < 0)%Z then end_ + size else end_)%Z in
    sublist_from fuel elements start end_ step.

(** The loop of [ExecuteSlice] over [args()[1]], [args()[2]], ... *)
Fixpoint slice_indices (args_ : list BaseNode) : M (list Z) :=
  match args_ with
  | [] => mret []
  | arg :: rest =>
      Calculate arg;;
      result ← gets result_;
      if negb (HoldsNumber result) then
        throw (runtime_error "All arguments of slice() must be numbers")
      else
        d ← reads (λ _, get_double result);
        index ← defined (cxx.to_int64 d);
        indices ← slice_indices rest;
        mret (index :: indices)
  end.

Definition incorrect_slice : exception :=
  runtime_error "Incorrect number of arguments in slice".

(** [std::make_shared<std::string>(str->substr(pos, count))]. *)
Definition slice_substr (s : string) (pos count : Z) : M unit :=
  match cxx.substr s (cxx.as_size_t pos) (cxx.as_size_t count) with
  | None =>
      throw (out_of_range (what_substr libc (cxx.as_size_t pos) (String.length s)))
  | Some piece => r ← make_shared_string piece; modify (set_result_ r)
  end.

Definition ExecuteSlice (args_ : list BaseNode) : M unit :=
  calculate_arg args_ 0;;
  result ← gets result_;
  if negb (HoldsIterable result) then
    throw (runtime_error "Slice can be applied only to the iterable object")
  else
    let lhs := result in
    indices ← slice_indices (drop 1 args_);
    if HoldsList lhs then
      list ← reads (λ _, get_ListPtr lhs);
      elements ← reads (λ this, list_at this list);
      match indices with
      | [i0] =>
          element ← reads (λ _, GetElement elements i0);
          modify (set_result_ element)
      | [i0; i1] =>
          last ← reads (λ _, int64 (i1 - 1));
          sublist ← reads (λ _, GetSublist elements i0 last 1);
          r ← make_shared_List sublist;
          modify (set_result_ r)
      | [i0; i1; i2] =>
          last ← reads (λ _, int64 (i1 - 1));
          sublist ← reads (λ _, GetSublist elements i0 last i2);
          r ← make_shared_List sublist;
          modify (set_result_ r)
      | _ => throw incorrect_slice
      end
    else
      str ← reads (λ this, get_string this lhs);
      match indices with
      | [i0] => slice_substr str i0 1
      | [i0; i1] | [i0; i1; _] =>
          count ← reads (λ _, int64 (i1 - i0));
          slice_substr str i0 count
      | _ => throw incorrect_slice
      end.

(** The loop of [ExecuteReplace].  An empty [old_str] is found again
    right after what was put in for it: when that is not empty the string
    is longer after every round; when that is empty too, every round is
    the same round, and the loop does not end. *)
Fixpoint replace_from (rounds : nat) (source_str old_str new_str : string)
    (position : option nat) : Result string :=
  match rounds with
  | O => NoFuel
  | S rounds' =>
      match position with
      | None => Value source_str
      | Some position =>
          if is_empty old_str && negb (is_empty new_str) then fills_the_memory
          else
          let source_str :=
            cxx.replace source_str position (String.length old_str) new_str in
          replace_from rounds' source_str old_str new_str
            (cxx.find source_str old_str (position + String.length new_str))
      end
  end.

(** An argument of [replace()]: evaluated, checked, copied. *)
Definition replace_arg (args_ : list BaseNode) (i : nat) : M string :=
  calculate_arg args_ i;;
  result ← gets result_;
  if negb (HoldsString result) then
    throw (runtime_error "all arguments of replace() must be strings")
  else reads (λ this, get_string this result).

Definition ExecuteReplace (args_ : list BaseNode) : M unit :=
  require_args 3 args_ "replace() requires three arguments";;
  source_str ← replace_arg args_ 0;
  old_str ← replace_arg args_ 1;
  new_str ← replace_arg args_ 2;
  replaced ← reads (λ _, replace_from fuel source_str old_str new_str
                           (cxx.find source_str old_str 0));
  r ← make_shared_string replaced;
  modify (set_result_ r).

Definition ExecuteCapitalize (args_ : list BaseNode) : M unit :=
  require_args 1 args_ "capitalize() requires one argument";;
  calculate_arg args_ 0;;
  result ← gets result_;
  match result with
  | StringPtr arg =>
      s ← reads (λ this, string_at this arg);
      match s with
      | EmptyString => undefined
      | String front rest =>
          assign_string arg (String (cxx.toupper front) rest);;
          modify (set_result_ (StringPtr arg))
      end
  | _ => throw (runtime_error "capitalize() can be applied only to the string")
  end.

Definition ExecuteOperationForNumber (args_ : list BaseNode)
    (function_name : string) (operation : float → M float) : M unit :=
  require_args 1 args_ (function_name +:+ "() requires one argument");;
  calculate_arg args_ 0;;
  result ← gets result_;
  match result with
  | Double arg =>
      r ← operation arg;
      modify (set_result_ (Double r))
  | _ =>
      throw (runtime_error
               (function_name +:+ "() can be applied only to the number"))
  end.

Definition ExecuteAbs (args_ : list BaseNode) : M unit :=
  ExecuteOperationForNumber args_ "abs" (λ d, mret (PrimFloat.abs d)).

Definition ExecuteSqrt (args_ : list BaseNode) : M unit :=
  ExecuteOperationForNumber args_ "sqrt" (λ d, mret (PrimFloat.sqrt d)).

Definition ExecuteCeil (args_ : list BaseNode) : M unit :=
  ExecuteOperationForNumber args_ "ceil" (λ d, mret (cxx.ceil d)).

Definition ExecuteFloor (args_ : list BaseNode) : M unit :=
  ExecuteOperationForNumber args_ "floor" (λ d, mret (cxx.floor d)).

Definition ExecuteRound (args_ : list BaseNode) : M unit :=
  ExecuteOperationForNumber args_ "round" (λ d, mret (cxx.round d)).

Definition ExecuteRnd (args_ : list BaseNode) : M unit :=
  ExecuteOperationForNumber args_ "rnd" (λ _,
    n ← gets rand_calls;
    modify (set_rand_calls (S n));;
    mret (cxx.of_size (rand libc n))).

Definition ExecuteParseNumber (args_ : list BaseNode) : M unit :=
  require_args 1 args_ "parse_number() requires one argument";;
  calculate_arg args_ 0;;
  result ← gets result_;
  match result with
  | StringPtr arg =>
      s ← reads (λ this, string_at this arg);
      let parsed := strtod libc s in
      if (snd parsed =? String.length s)%nat
      then modify (set_result_ (Double (fst parsed)))
      else modify (set_result_ Monostate)
  | _ => modify (set_result_ Monostate)
  end.

Definition ExecuteToString (args_ : list BaseNode) : M unit :=
  require_args 1 args_ "to_string() requires one argument";;
  calculate_arg args_ 0;;
  result ← gets result_;
  s ← reads (λ this, ToString this fuel result);
  r ← make_shared_string s;
  modify (set_result_ r).

Definition Visit_GlobalFunctionNode (name_ : Name) (args_ : list BaseNode)
  : M unit :=
  match name_ with
  | kPrint => ExecutePrint args_
  | kPrintln => ExecutePrintln args_
  | kLen => ExecuteLen args_
  | kRead => ExecuteRead args_
  | kStackTrace => ExecuteStackTrace args_
  | kLower => ExecuteLower args_
  | kUpper => ExecuteUpper args_
  | kSplit => ExecuteSplit args_
  | kJoin => ExecuteJoin args_
  | kReplace => ExecuteReplace args_
  | kCapitalize => ExecuteCapitalize args_
  | kAbs => ExecuteAbs args_
  | kSqrt => ExecuteSqrt args_
  | kCeil => ExecuteCeil args_
  | kFloor => ExecuteFloor args_
  | kRound => ExecuteRound args_
  | kRnd => ExecuteRnd args_
  | kParseNumber => ExecuteParseNumber args_
  | kToString => ExecuteToString args_
  | kRange => ExecuteRange args_
  | kPush => ExecutePush args_
  | kPop => ExecutePop args_
  | kInsert => ExecuteInsert args_
  | kRemove => ExecuteRemove args_
  | kSort => ExecuteSort args_
  | kSlice => ExecuteSlice args_
  end.

(** The virtual call [node.Calculate(visitor)]: each class forwards to the
    [Visit] overload of its own type. *)
Definition Visit (node : BaseNode) : M unit :=
  match node with
  | NumberLiteralNode value_ => Visit_NumberLiteralNode value_
  | StringLiteralNode value_ => Visit_StringLiteralNode value_
  | ListLiteralNode elements_ => Visit_ListLiteralNode Calculate elements_
  | NilLiteralNode => Visit_NilLiteralNode
  | VariableNode name_ => Visit_VariableNode name_
  | BinaryOperationNode operation_ lhs_ rhs_ =>
      Visit_BinaryOperationNode Calculate operation_ lhs_ rhs_
  | UnaryOperationNode operation_ arg_ =>
      Visit_UnaryOperationNode Calculate operation_ arg_
  | FunctionCallNode function_name_ args_ =>
      Visit_FunctionCallNode Calculate function_name_ args_
  | UnnamedFunctionCallNode function_ args_ =>
      Visit_UnnamedFunctionCallNode Calculate function_ args_
  | FunctionImplementationNode function_ =>
      Visit_FunctionImplementationNode function_
  | IfNode then_statements_ else_statements_ condition_ =>
      Visit_IfNode Calculate then_statements_ else_statements_ condition_
  | WhileNode condition_ statements_ =>
      Visit_WhileNode Calculate fuel condition_ statements_
  | ForNode iterable_name_ sequence_ statements_ =>
      Visit_ForNode Calculate iterable_name_ sequence_ statements_
  | RootNode statements_ => Visit_RootNode Calculate statements_
  | GlobalFunctionNode name_ args_ => Visit_GlobalFunctionNode name_ args_
  | BreakNode => Visit_BreakNode
  | ContinueNode => Visit_ContinueNode
  | ReturnNode value_ => Visit_ReturnNode Calculate value_
  end.

End GlobalFunctions.

(** [node->Calculate( *this )], with [fuel] bounding the depth of the
    recursion and the rounds of each loop. *)
Fixpoint Calculate (fuel : nat) (node : BaseNode) : M unit :=
  match fuel with
  | O => out_of_fuel
  | S fuel' => Visit (Calculate fuel') fuel' node
  end.

End Evaluator.

(** ** The entry point *)

(** [EvalVisitor visitor(output)]: the visitor writes to [output] and reads
    from the default argument of the constructor, [std::cin]. *)
Definition EvalVisitor_new (output cin : string) : EvalVisitor :=
  MkEvalVisitor Monostate [] [] output cin kDefault [] [] 0 0.

(** The loop of [interpret] that builds [code]: every line that
    [std::getline] hands out, followed by a newline. *)
Fixpoint read_code (rounds : nat) (input : string) : string :=
  match rounds with
  | O => EmptyString
  | S rounds' =>
      match input with
      | EmptyString => EmptyString
      | _ =>
          let '(line, rest) := cxx.getline input in
          line +:+ cxx.newline +:+ read_code rounds' rest
      end
  end.

(** How a call of [interpret] ends: it returns a [bool] with the output
    stream as it then stands; or the run is undefined; or it has not come
    to an end when the fuel is used up. *)
Inductive Run : Type :=
| Returned (ok : bool) (output : string)
| RunUndefined
| RunOutOfFuel.

Section Interpret.

(** [Parser(std::move(code)).ParseCode()]: the statements of the root node,
    or the exception the lexer or the parser throws. *)
Context (ParseCode : string → exception + list BaseNode).
Context (libc : Platform).

Definition interpret (fuel : nat) (input output cin : string) : Run :=
  let code := read_code (S (String.length input)) input in
  match ParseCode code with
  | inl e => Returned false (output +:+ what libc e +:+ cxx.newline)
  | inr statements =>
      match Calculate libc fuel (RootNode statements) (EvalVisitor_new output cin) with
      | Normal _ v => Returned true (out_ v)
      | Thrown e v => Returned false (out_ v +:+ what libc e +:+ cxx.newline)
      | Undefined => RunUndefined
      | OutOfFuel => RunOutOfFuel
      end
  end.

End Interpret.

(** ** Lexer.hpp, Lexer.cpp: tokens and the lexer *)

Global Instance TokenType_eq_dec : EqDecision TokenType.
Proof. solve_decision. Defined.

(** [<cctype>] in the C locale, where only the characters of ASCII are
    letters or digits. *)
Module cctype.

Definition isdigit (c : ascii) : bool :=
  let n := nat_of_ascii c in (48 <=? n)%nat && (n <=? 57)%nat.

Definition isalpha (c : ascii) : bool :=
  let n := nat_of_ascii c in
  (65 <=? n)%nat && (n <=? 90)%nat || (97 <=? n)%nat && (n <=? 122)%nat.

Definition isalnum (c : ascii) : bool := isalpha c || isdigit c.

End cctype.

(** [Token::ValueType], the variant
    [<std::monostate, std::string, double, std::size_t>]. *)
Inductive TokenValue : Type :=
| NoValue
| Text (s : string)
| Real (d : float)
| Size (n : nat).

Record Token : Type := MkToken {
  token_type_ : TokenType;
  value_ : TokenValue
}.

(** The tests of [Token] that the parser asks for. *)
Definition IsEOF (t : Token) : bool := bool_decide (token_type_ t = kEOF).
Definition IsStringLiteral (t : Token) : bool := bool_decide (token_type_ t = kString).
Definition IsNumberLiteral (t : Token) : bool := bool_decide (token_type_ t = kNumber).
Definition IsTrue (t : Token) : bool := bool_decide (token_type_ t = kTrue).
Definition IsFalse (t : Token) : bool := bool_decide (token_type_ t = kFalse).
Definition IsBoolLiteral (t : Token) : bool := IsTrue t || IsFalse t.
Definition IsNil (t : Token) : bool := bool_decide (token_type_ t = kNil).
Definition IsBreak (t : Token) : bool := bool_decide (token_type_ t = kBreak).
Definition IsContinue (t : Token) : bool := bool_decide (token_type_ t = kContinue).
Definition IsReturn (t : Token) : bool := bool_decide (token_type_ t = kReturn).
Definition IsColon (t : Token) : bool := bool_decide (token_type_ t = kColon).
Definition IsIdentifier (t : Token) : bool := bool_decide (token_type_ t = kIdentifier).
Definition IsEndLine (t : Token) : bool := bool_decide (token_type_ t = kEndLine).
Definition IsLParen (t : Token) : bool := bool_decide (token_type_ t = kLParen).
Definition IsRParen (t : Token) : bool := bool_decide (token_type_ t = kRParen).
Definition IsLBracket (t : Token) : bool := bool_decide (token_type_ t = kLBracket).
Definition IsRBracket (t : Token) : bool := bool_decide (token_type_ t = kRBracket).
Definition IsThen (t : Token) : bool := bool_decide (token_type_ t = kThen).
Definition IsEnd (t : Token) : bool := bool_decide (token_type_ t = kEnd).
Definition IsIf (t : Token) : bool := bool_decide (token_type_ t = kIf).
Definition IsElseIf (t : Token) : bool := bool_decide (token_type_ t = kElseIf).
Definition IsElse (t : Token) : bool := bool_decide (token_type_ t = kElse).
Definition IsFor (t : Token) : bool := bool_decide (token_type_ t = kFor).
Definition IsWhile (t : Token) : bool := bool_decide (token_type_ t = kWhile).
Definition IsComma (t : Token) : bool := bool_decide (token_type_ t = kComma).
Definition IsFunction (t : Token) : bool := bool_decide (token_type_ t = kFunction).

Definition IsAtom (t : Token) : bool :=
  match token_type_ t with
  | kNumber | kIdentifier | kTrue | kFalse | kNil | kString => true
  | _ => false
  end.

Definition IsBinOperator (t : Token) : bool :=
  match token_type_ t with
  | kPlus | kMinus | kMultiply | kDivide | kModulo | kPower
  | kEqual | kNotEqual | kLess | kGreater | kLessOrEqual | kGreaterOrEqual
  | kLogicalAnd | kLogicalOr
  | kAssign | kAddAssign | kSubAssign | kMultAssign | kDivAssign
  | kModAssign | kPowAssign => true
  | _ => false
  end.

(** [token.Get<std::string>()] and [token.Get<double>()]. *)
Definition Get_string (t : Token) : exception + string :=
  match value_ t with Text s => inr s | _ => inl bad_variant_access end.

Definition Get_double (t : Token) : exception + float :=
  match value_ t with Real d => inr d | _ => inl bad_variant_access end.

(** The three tables of the lexer; [find_in] is [unordered_map::find]. *)
Definition find_in {A} (table : list (string * A)) (key : string) : option A :=
  snd <$> List.find (λ entry, String.eqb (fst entry) key) table.

Definition kKeyWords : list (string * TokenType) :=
  [ ("true", kTrue); ("false", kFalse); ("nil", kNil);
    ("while", kWhile); ("for", kFor); ("function", kFunction); ("end", kEnd);
    ("break", kBreak); ("continue", kContinue); ("return", kReturn);
    ("if", kIf); ("else", kElse); ("in", kIn); ("then", kThen);
    ("elseif", kElseIf);
    ("and", kLogicalAnd); ("or", kLogicalOr); ("not", kLogicalNot) ].

Definition kDelimiters : list (string * TokenType) :=
  [ (",", kComma); (":", kColon); ("(", kLParen); (")", kRParen);
    ("[", kLBracket); ("]", kRBracket) ].

Definition kOperators : list (string * TokenType) :=
  [ ("==", kEqual); (">=", kGreaterOrEqual); ("!=", kNotEqual);
    ("<=", kLessOrEqual); (">", kGreater); ("<", kLess);
    ("+", kPlus); ("-", kMinus); ("*", kMultiply); ("/", kDivide);
    ("%", kModulo); ("^", kPower);
    ("=", kAssign); ("+=", kAddAssign); ("-=", kSubAssign);
    ("*=", kMultAssign); ("/=", kDivAssign); ("%=", kModAssign);
    ("^=", kPowAssign) ].

(** The lexer: [current_symbol_] is kept as its distance from
    [source_str_.begin()], together with the characters from it to
    [source_str_.end()]; the lexer never moves it back except to a place
    it has been. *)
Record Lexer : Type := MkLexer {
  current_symbol_ : nat;
  ahead : string
}.

Definition Lexer_new (source_str : string) : Lexer := MkLexer 0 source_str.

(** [current_symbol_] moved forward to where [remaining] begins, a suffix
    of the characters ahead. *)
Definition move_to (lexer : Lexer) (remaining : string) : Lexer :=
  MkLexer (current_symbol_ lexer
           + (String.length (ahead lexer) - String.length remaining))
          remaining.

(** How a call of a member function of the lexer or the parser ends:
    with a value and the lexer as it then stands, or with an exception.
    [NullChild] is a tree with a null [std::unique_ptr] in it, which
    [BaseNode] cannot write down.  [OutOfFuelParsing] is for the functions whose
    recursion and loops the model bounds. *)
Inductive Parsed (A : Type) : Type :=
| Done (a : A) (lexer : Lexer)
| Failed (e : exception)
| NullChild
| OutOfFuelParsing.

Arguments Done {A} a lexer.
Arguments Failed {A} e.
Arguments NullChild {A}.
Arguments OutOfFuelParsing {A}.

Definition Parser (A : Type) : Type := Lexer → Parsed A.

Global Instance Parser_ret : MRet Parser := λ A a lexer, Done a lexer.

Global Instance Parser_then : Then Parser := λ A B m k lexer,
  match m lexer with
  | Done a lexer' => k a lexer'
  | Failed e => Failed e
  | NullChild => NullChild
  | OutOfFuelParsing => OutOfFuelParsing
  end.

Definition fail {A} (e : exception) : Parser A := λ _, Failed e.

(** A value that an exception may stand for. *)
Definition or_throw {A} (x : exception + A) : Parser A :=
  match x with inl e => fail e | inr a => mret a end.

Definition Lexer_IsEOF (lexer : Lexer) : bool := is_empty (ahead lexer).

(** [++current_symbol_], where the lexer is not at the end. *)
Definition advance (lexer : Lexer) : Lexer :=
  match ahead lexer with
  | String _ remaining => move_to lexer remaining
  | EmptyString => lexer
  end.

Definition Lexer_IsEndLine (lexer : Lexer) : bool :=
  match ahead lexer with
  | String c _ => bool_decide (c = ascii_of_nat 10)
  | EmptyString => false
  end.

Definition IsNumberSymbol (c : ascii) : bool :=
  cctype.isdigit c || bool_decide (c = "e"%char) || bool_decide (c = "."%char).

(** What is left of [s] after its longest prefix of characters that
    satisfy [p], and that prefix: a loop that collects characters and
    moves [current_symbol_] while [p] holds. *)
Fixpoint span (p : ascii → bool) (s : string) : string * string :=
  match s with
  | EmptyString => (EmptyString, EmptyString)
  | String c s' =>
      if p c then let '(word, remaining) := span p s' in (String c word, remaining)
      else (EmptyString, s)
  end.

(** [std::find(first, last, c)]: the characters from the first [c] on. *)
Fixpoint find_char (c : ascii) (s : string) : string :=
  match s with
  | EmptyString => EmptyString
  | String c' s' => if decide (c' = c) then s else find_char c s'
  end.

Definition not_end_line (c : ascii) : bool := negb (bool_decide (c = ascii_of_nat 10)).

Definition SkipSpaces (lexer : Lexer) : Lexer :=
  move_to lexer
    (snd (span (λ c, not_end_line c && bool_decide (c = " "%char)) (ahead lexer))).

(** The loop of [SkipComments] for a comment that began with [/*], from the
    characters after these two: the characters after the first [*/], or
    [None] when the loop ends without one. *)
Fixpoint after_comment (s : string) : option string :=
  match s with
  | EmptyString => None
  | String c s' =>
      if decide (c = "*"%char) then
        match s' with
        | String d remaining =>
            if decide (d = "/"%char) then Some remaining else after_comment s'
        | EmptyString => None
        end
      else after_comment s'
  end.

Definition SkipComments (lexer : Lexer) : exception + Lexer :=
  match ahead lexer with
  | String a (String b s2) =>
      if bool_decide (a = "/"%char) && bool_decide (b = "/"%char) then
        inr (move_to lexer (find_char (ascii_of_nat 10) s2))
      else if negb (bool_decide (a = "/"%char) && bool_decide (b = "*"%char)) then
        inr lexer
      else
        match after_comment s2 with
        | Some remaining => inr (move_to lexer remaining)
        | None => inl (runtime_error "Unclosed comment")
        end
  | _ => inr lexer
  end.

Definition GetIdentifier (lexer : Lexer) : option (Token * Lexer) :=
  let '(word, remaining) :=
    span (λ c, not_end_line c
               && (cctype.isalnum c || bool_decide (c = "_"%char)))
         (ahead lexer) in
  match word with
  | EmptyString => None
  | String first _ =>
      if cctype.isdigit first || bool_decide (first = "_"%char) then None
      else Some (MkToken kIdentifier (Text word), move_to lexer remaining)
  end.

Definition GetKeyWord (lexer : Lexer) : option (Token * Lexer) :=
  let '(keyword, remaining) := span cctype.isalpha (ahead lexer) in
  match find_in kKeyWords keyword with
  | Some type => Some (MkToken type (Text keyword), move_to lexer remaining)
  | None => None
  end.

(** Called only when the lexer is not at the end. *)
Definition GetDelimiter (lexer : Lexer) : option (Token * Lexer) :=
  match ahead lexer with
  | String c remaining =>
      let symbol := String c EmptyString in
      match find_in kDelimiters symbol with
      | Some type => Some (MkToken type (Text symbol), move_to lexer remaining)
      | None => None
      end
  | EmptyString => None
  end.

(** The escapes of a string literal. *)
Definition unescape (c : ascii) : ascii :=
  if decide (c = "n"%char) then ascii_of_nat 10
  else if decide (c = "t"%char) then ascii_of_nat 9
  else if decide (c = "r"%char) then ascii_of_nat 13
  else if decide (c = "0"%char) then ascii_of_nat 0
  else c.

(** The loop of [GetStringLiteral], from the character after the opening
    quote: the characters of the literal and what follows the closing
    quote, or what was collected when the text ends before one. *)
Fixpoint string_literal (s : string) : string * option string :=
  match s with
  | EmptyString => (EmptyString, None)
  | String c s' =>
      if decide (c = ascii_of_nat 34) then (EmptyString, Some s')
      else if decide (c = ascii_of_nat 92) then
        match s' with
        | EmptyString => (EmptyString, None)
        | String escaped s'' =>
            let '(str, remaining) := string_literal s'' in
            (String (unescape escaped) str, remaining)
        end
      else
        let '(str, remaining) := string_literal s' in (String c str, remaining)
  end.

Definition GetStringLiteral (lexer : Lexer) : option (Token * Lexer) :=
  match ahead lexer with
  | String c s' =>
      if negb (bool_decide (c = ascii_of_nat 34)) then None
      else
        match string_literal s' with
        | (str, Some remaining) =>
            Some (MkToken kString (Text str), move_to lexer remaining)
        | (str, None) =>
            Some (MkToken kIncorrect (Text str), move_to lexer EmptyString)
        end
  | EmptyString => None
  end.

Definition GetOperator (lexer : Lexer) : option (Token * Lexer) :=
  let two :=
    match ahead lexer with
    | String a (String b remaining) =>
        if negb (Lexer_IsEndLine lexer) then
          let op := String a (String b EmptyString) in
          match find_in kOperators op with
          | Some type => Some (MkToken type (Text op), move_to lexer remaining)
          | None => None
          end
        else None
    | _ => None
    end in
  match two with
  | Some token => Some token
  | None =>
      match ahead lexer with
      | String a remaining =>
          let op := String a EmptyString in
          match find_in kOperators op with
          | Some type => Some (MkToken type (Text op), move_to lexer remaining)
          | None => None
          end
      | EmptyString => None
      end
  end.

Section Parsing.

(** [std::stod(str, &end)]: the value and the number of characters it was
    read from, or the exception ([std::invalid_argument] when no number
    could be read, [std::out_of_range] when the value is out of the range
    of [double]). *)
Context (stod : string → exception + float * nat).

Definition ParseDoubleFromStr (str : string) : exception + option float :=
  if is_empty str then inr None
  else
    match stod str with
    | inl e => inl e
    | inr (value, end_) =>
        if negb (end_ =? String.length str)%nat then inr None
        else inr (Some value)
    end.

Definition GetNumberLiteral (lexer : Lexer) : exception + option (Token * Lexer) :=
  match ahead lexer with
  | String c _ =>
      if negb (cctype.isdigit c) then inr None
      else
        let '(str, remaining) :=
          span (λ c, not_end_line c && IsNumberSymbol c) (ahead lexer) in
        match ParseDoubleFromStr str with
        | inl e => inl e
        | inr None => inr None
        | inr (Some value) =>
            inr (Some (MkToken kNumber (Real value), move_to lexer remaining))
        end
  | EmptyString => inr None
  end.

Definition GetNextToken : Parser Token := λ lexer,
  let lexer := SkipSpaces lexer in
  match SkipComments lexer with
  | inl e => Failed e
  | inr lexer =>
      if Lexer_IsEOF lexer then Done (MkToken kEOF NoValue) lexer
      else if Lexer_IsEndLine lexer then
        Done (MkToken kEndLine NoValue) (advance lexer)
      else
        match GetDelimiter lexer with
        | Some (token, lexer') => Done token lexer'
        | None =>
        match GetOperator lexer with
        | Some (token, lexer') => Done token lexer'
        | None =>
        match GetStringLiteral lexer with
        | Some (token, lexer') => Done token lexer'
        | None =>
        match GetNumberLiteral lexer with
        | inl e => Failed e
        | inr (Some (token, lexer')) => Done token lexer'
        | inr None =>
        match GetKeyWord lexer with
        | Some (token, lexer') => Done token lexer'
        | None =>
        match GetIdentifier lexer with
        | Some (token, lexer') => Done token lexer'
        | None =>
            Done (MkToken kIncorrect (Size (current_symbol_ lexer)))
                 (move_to lexer EmptyString)
        end end end end end end
  end.

(** [GetPeek]: the next token, with [current_symbol_] put back. *)
Definition GetPeek : Parser Token := λ lexer,
  match GetNextToken lexer with
  | Done token _ => Done token lexer
  | Failed e => Failed e
  | NullChild => NullChild
  | OutOfFuelParsing => OutOfFuelParsing
  end.


(** ** Parser.hpp, Parser.cpp: the parser *)

(** The table of the built-in functions and the binding powers. *)
Definition kGlobalFunctions : list (string * Name) :=
  [ ("print", kPrint); ("println", kPrintln); ("len", kLen); ("read", kRead);
    ("stacktrace", kStackTrace); ("lower", kLower); ("upper", kUpper);
    ("split", kSplit); ("join", kJoin); ("replace", kReplace);
    ("capitalize", kCapitalize); ("abs", kAbs); ("sqrt", kSqrt);
    ("ceil", kCeil); ("floor", kFloor); ("round", kRound); ("rnd", kRnd);
    ("parse_num", kParseNumber); ("to_string", kToString); ("range", kRange);
    ("push", kPush); ("pop", kPop); ("insert", kInsert); ("remove", kRemove);
    ("sort", kSort) ].

Definition kLeftBindingPower (type : TokenType) : option Z :=
  match type with
  | kAssign | kAddAssign | kSubAssign | kMultAssign | kDivAssign
  | kModAssign | kPowAssign => Some (-1)%Z
  | kLogicalOr => Some 1%Z
  | kLogicalAnd => Some 3%Z
  | kEqual | kNotEqual => Some 5%Z
  | kLess | kLessOrEqual | kGreater | kGreaterOrEqual => Some 7%Z
  | kPlus | kMinus => Some 9%Z
  | kDivide | kMultiply | kModulo => Some 11%Z
  | kPower => Some 15%Z
  | _ => None
  end.

Definition kRightBindingPower (type : TokenType) : option Z :=
  match type with
  | kAssign | kAddAssign | kSubAssign | kMultAssign | kDivAssign
  | kModAssign | kPowAssign => Some (-2)%Z
  | kLogicalOr => Some 2%Z
  | kLogicalAnd => Some 4%Z
  | kEqual | kNotEqual => Some 6%Z
  | kLess | kLessOrEqual | kGreater | kGreaterOrEqual => Some 8%Z
  | kPlus | kMinus => Some 10%Z
  | kDivide | kMultiply | kModulo => Some 12%Z
  | kPower => Some 14%Z
  | _ => None
  end.

Definition kPrefixBindingPower (type : TokenType) : option Z :=
  match type with
  | kLogicalNot | kPlus | kMinus => Some 17%Z
  | _ => None
  end.

(** [std::numeric_limits<int32_t>::min()], the default argument of
    [ParseExpression]. *)
Definition int32_min : Z := (- 2 ^ 31)%Z.

(** [std::numeric_limits<double>::min()], which [ParseSlice] puts where a
    bound of a slice is left out. *)
Definition double_min : float := 0x1p-1022%float.

(** A vector of [std::unique_ptr<BaseNode>] as the children of a node: a
    null pointer among them makes a tree that [BaseNode] cannot write
    down. *)
Definition children (nodes : list (option BaseNode)) : Parser (list BaseNode) :=
  match mapM id nodes with
  | Some nodes => mret nodes
  | None => λ _, NullChild
  end.

(** [what()] of the [std::out_of_range] that [unordered_map::at] throws. *)
Context (what_at : string).

(** [current_symbol_ - source_str_.begin()]. *)
Definition offset : Parser nat := λ lexer, Done (current_symbol_ lexer) lexer.

(** A call of [GetNextToken] whose token is not looked at. *)
Definition skip_token : Parser unit := GetNextToken;; mret tt.

Definition when (condition : bool) (m : Parser unit) : Parser unit :=
  if condition then m else mret tt.

(** The pointer to a node that a function made, as a pointer that may be
    null. *)
Definition non_null (m : Parser BaseNode) : Parser (option BaseNode) :=
  node ← m; mret (Some node).

(** [map.at(type)]. *)
Definition at_ (map : TokenType → option Z) (type : TokenType) : Parser Z :=
  match map type with
  | Some power => mret power
  | None => fail (out_of_range what_at)
  end.

Definition expect (ok : bool) (message : string) : Parser unit :=
  if ok then mret tt else fail (runtime_error message).

(** A word between double quotes, for the messages. *)
Definition quoted (word : string) : string := cxx.quote +:+ word +:+ cxx.quote.

Section Body.

(** The functions that the others call back into: [ParseExpression],
    [ParseStatement] and [ParseIf]; [fuel] bounds the loops. *)
Context (ParseExpression : Z → Parser BaseNode).
Context (ParseStatement : Parser (option BaseNode)).
Context (ParseIf : Parser BaseNode).
Context (fuel : nat).

(** The loop of both [ParseFunctionCall]s over the arguments. *)
Fixpoint call_arguments (rounds : nat) (args : list BaseNode) : Parser (list BaseNode) :=
  match rounds with
  | O => λ _, OutOfFuelParsing
  | S rounds' =>
      peek ← GetPeek;
      if negb (IsRParen peek) && negb (IsEOF peek) then
        if IsEndLine peek then GetNextToken;; call_arguments rounds' args
        else
          (if negb (bool_decide (args = [])) then
             token ← GetNextToken;
             expect (IsComma token) "Expected ',' between function arguments"
           else mret tt);;
          arg ← ParseExpression int32_min;
          call_arguments rounds' (args ++ [arg])
      else mret args
  end.

Definition ParseFunctionCall_name (function_name : string) : Parser BaseNode :=
  token ← GetNextToken;
  expect (IsLParen token) "Expected '(' after function name";;
  args ← call_arguments fuel [];
  token ← GetNextToken;
  expect (negb (negb (IsRParen token) || IsEOF token))
         "Expected ')' after function arguments";;
  match find_in kGlobalFunctions function_name with
  | Some name => mret (GlobalFunctionNode name args)
  | None => mret (FunctionCallNode function_name args)
  end.

Definition ParseFunctionCall_lhs (lhs : BaseNode) : Parser BaseNode :=
  token ← GetNextToken;
  expect (IsLParen token) "Expected '(' after function name";;
  args ← call_arguments fuel [];
  token ← GetNextToken;
  expect (negb (negb (IsRParen token) || IsEOF token))
         "Expected ')' after function arguments";;
  mret (UnnamedFunctionCallNode lhs args).

Definition ParseIdentifier (token : Token) : Parser BaseNode :=
  name ← or_throw (Get_string token);
  peek ← GetPeek;
  if IsLParen peek then ParseFunctionCall_name name
  else mret (VariableNode name).

(** The loop of [ParseList]. *)
Fixpoint list_elements (rounds : nat) (elements : list BaseNode)
  : Parser (list BaseNode) :=
  match rounds with
  | O => λ _, OutOfFuelParsing
  | S rounds' =>
      peek ← GetPeek;
      if negb (IsEOF peek) && negb (IsRBracket peek) then
        if IsEndLine peek then GetNextToken;; list_elements rounds' elements
        else
          element ← ParseExpression int32_min;
          let elements := elements ++ [element] in
          peek ← GetPeek;
          if IsComma peek then GetNextToken;; list_elements rounds' elements
          else if IsRBracket peek then mret elements
          else fail (runtime_error "Expected ',' between list elements")
      else mret elements
  end.

Definition ParseList : Parser BaseNode :=
  elements ← list_elements fuel [];
  peek ← GetPeek;
  expect (negb (IsEOF peek)) "Expected ']' after list elements";;
  GetNextToken;;
  mret (ListLiteralNode elements).

(** The loop of [ParseSlice]. *)
Fixpoint slice_arguments (rounds : nat) (args : list BaseNode)
  : Parser (list BaseNode) :=
  match rounds with
  | O => λ _, OutOfFuelParsing
  | S rounds' =>
      peek ← GetPeek;
      if negb (IsRBracket peek) && negb (IsEOF peek) then
        if IsEndLine peek then GetNextToken;; slice_arguments rounds' args
        else if IsColon peek || IsRBracket peek then
          let args := args ++ [NumberLiteralNode double_min] in
          GetNextToken;;
          slice_arguments rounds' args
        else
          arg ← ParseExpression int32_min;
          let args := args ++ [arg] in
          peek ← GetPeek;
          if IsColon peek then GetNextToken;; slice_arguments rounds' args
          else if negb (IsRBracket peek) then
            fail (runtime_error "Expected ']' after slice arguments")
          else slice_arguments rounds' args
      else mret args
  end.

Definition ParseSlice (lhs : BaseNode) : Parser BaseNode :=
  token ← GetNextToken;
  expect (IsLBracket token) "Expected '[' after iterable object";;
  token ← GetPeek;
  expect (negb (IsRBracket token)) "Empty slice expression";;
  args ← slice_arguments fuel [];
  expect (negb ((length args <? 1)%nat || (3 <? length args)%nat))
         "Slice expression must have 1, 2, or 3 arguments";;
  GetNextToken;;
  mret (GlobalFunctionNode kSlice (lhs :: args)).

(** The loop of [ParseFunction] over the names of the parameters. *)
Fixpoint parameter_names (rounds : nat) (arg_names : list string)
  : Parser (list string) :=
  match rounds with
  | O => λ _, OutOfFuelParsing
  | S rounds' =>
      peek ← GetPeek;
      if negb (IsRParen peek) && negb (IsEOF peek) then
        if IsEndLine peek then GetNextToken;; parameter_names rounds' arg_names
        else
          expect (IsIdentifier peek) "Expected identifier as function argument";;
          token ← GetNextToken;
          name ← or_throw (Get_string token);
          let arg_names := arg_names ++ [name] in
          next_token ← GetNextToken;
          if IsRParen next_token then mret arg_names
          else if IsComma next_token then parameter_names rounds' arg_names
          else fail (runtime_error "Expected ',' between function arguments")
      else mret arg_names
  end.

(** The loop of [ParseFunction] over the statements of the body. *)
Fixpoint function_body (rounds : nat) (body : list (option BaseNode))
  : Parser (list (option BaseNode)) :=
  match rounds with
  | O => λ _, OutOfFuelParsing
  | S rounds' =>
      peek ← GetPeek;
      if negb (IsEOF peek) && negb (IsEnd peek) then
        if IsEndLine peek then GetNextToken;; function_body rounds' body
        else
          statement ← ParseStatement;
          peek ← GetPeek;
          when (negb (IsEnd peek)) skip_token;;
          function_body rounds' (body ++ [statement])
      else mret body
  end.

(** The address of the [FunctionDefinition] that [std::make_shared] makes
    is taken to be the place in the text where the function ends: two
    functions of one text end at different places. *)
Definition ParseFunction : Parser FunctionDefinition :=
  token ← GetNextToken;
  expect (IsLParen token) "Expected '(' after function definition";;
  arg_names ← parameter_names fuel [];
  peek ← GetPeek;
  when (IsRParen peek) skip_token;;
  peek ← GetPeek;
  expect (negb (IsEOF peek)) "Expected ')' after function arguments";;
  body ← function_body fuel [];
  peek ← GetPeek;
  expect (negb (IsEOF peek))
         ("Expected " +:+ quoted "end function" +:+ " after function body");;
  token ← GetNextToken;
  when (IsEnd token)
       (token ← GetNextToken;
        expect (IsFunction token)
               ("Expected " +:+ quoted "end function" +:+ ", but got only "
                +:+ quoted "end"));;
  body ← children body;
  address ← offset;
  mret (MkFunctionDefinition address body arg_names).

Definition ParseBreak : Parser BaseNode :=
  token ← GetNextToken;
  expect (IsBreak token) ("Expected " +:+ quoted "break");;
  mret BreakNode.

Definition ParseContinue : Parser BaseNode :=
  token ← GetNextToken;
  expect (IsContinue token) ("Expected " +:+ quoted "continue");;
  mret ContinueNode.

Definition ParseReturn : Parser BaseNode :=
  token ← GetNextToken;
  expect (IsReturn token) ("Expected " +:+ quoted "return");;
  value ← ParseExpression int32_min;
  mret (ReturnNode value).

(** The loop of [ParseWhile] and of [ParseFor] over the statements of the
    body. *)
Fixpoint loop_statements (rounds : nat) (statements : list (option BaseNode))
  : Parser (list (option BaseNode)) :=
  match rounds with
  | O => λ _, OutOfFuelParsing
  | S rounds' =>
      peek ← GetPeek;
      if negb (IsEOF peek) && negb (IsEnd peek) then
        when (IsEndLine peek) skip_token;;
        statement ← ParseStatement;
        GetNextToken;;
        loop_statements rounds' (statements ++ [statement])
      else mret statements
  end.

Definition ParseWhile : Parser BaseNode :=
  token ← GetNextToken;
  expect (IsWhile token) ("Expected " +:+ quoted "while");;
  condition ← ParseExpression int32_min;
  peek ← GetPeek;
  when (IsThen peek) skip_token;;
  statements ← loop_statements fuel [];
  token ← GetPeek;
  expect (negb (IsEOF token)) ("Expected " +:+ quoted "end while" +:+ ", but got EOF");;
  expect (IsEnd token)
         ("Expected " +:+ quoted "end while" +:+ ", but got only " +:+ quoted "end");;
  GetNextToken;;
  token ← GetNextToken;
  expect (IsWhile token)
         ("Expected " +:+ quoted "end while" +:+ ", but got only " +:+ quoted "end");;
  statements ← children statements;
  mret (WhileNode condition statements).

Definition ParseFor : Parser BaseNode :=
  token ← GetNextToken;
  expect (IsFor token) ("Expected " +:+ quoted "for");;
  peek ← GetPeek;
  expect (IsIdentifier peek) "Expected identifier";;
  token ← GetNextToken;
  variable_name ← or_throw (Get_string token);
  token ← GetNextToken;
  expect (bool_decide (token_type_ token = kIn))
         ("Expected " +:+ quoted "in" +:+ " after " +:+ quoted "for");;
  sequence ← ParseExpression int32_min;
  peek ← GetPeek;
  when (IsThen peek) skip_token;;
  statements ← loop_statements fuel [];
  token ← GetNextToken;
  expect (negb (IsEOF token)) ("Expected " +:+ quoted "end for" +:+ ", but got EOF");;
  expect (IsEnd token)
         ("Expected " +:+ quoted "end for" +:+ ", but got only " +:+ quoted "end");;
  token ← GetNextToken;
  expect (IsFor token)
         ("Expected " +:+ quoted "end for" +:+ ", but got only " +:+ quoted "end");;
  statements ← children statements;
  mret (ForNode variable_name sequence statements).

(** The loop of [ParseIf] over the statements of the first block. *)
Fixpoint then_statements (rounds : nat) (statements : list (option BaseNode))
  : Parser (list (option BaseNode)) :=
  match rounds with
  | O => λ _, OutOfFuelParsing
  | S rounds' =>
      peek ← GetPeek;
      if negb (IsEOF peek) && negb (IsElseIf peek) && negb (IsElse peek)
         && negb (IsEnd peek) then
        when (IsEndLine peek) skip_token;;
        statement ← ParseStatement;
        let statements := statements ++ [statement] in
        peek ← GetPeek;
        if IsEnd peek || IsElse peek || IsElseIf peek then mret statements
        else GetNextToken;; then_statements rounds' statements
      else mret statements
  end.

(** The loop of [ParseElse]. *)
Fixpoint else_statements (rounds : nat) (else_block : list (option BaseNode))
  : Parser (list (option BaseNode)) :=
  match rounds with
  | O => λ _, OutOfFuelParsing
  | S rounds' =>
      peek ← GetPeek;
      if negb (IsEOF peek) && negb (IsEnd peek) then
        statement ← ParseStatement;
        let else_block := else_block ++ [statement] in
        peek ← GetPeek;
        if IsEnd peek then mret else_block
        else GetNextToken;; else_statements rounds' else_block
      else mret else_block
  end.

Definition ParseElse : Parser (list (option BaseNode)) :=
  GetNextToken;;
  else_block ← else_statements fuel [];
  peek ← GetPeek;
  expect (negb (IsEOF peek)) ("Expected " +:+ quoted "end if");;
  GetNextToken;;
  peek ← GetPeek;
  expect (IsIf peek) ("Expected " +:+ quoted "end if");;
  GetNextToken;;
  mret else_block.

Definition ParseIf_body : Parser BaseNode :=
  token ← GetNextToken;
  expect (negb (negb (IsIf token) && negb (IsElseIf token)))
         ("Expected " +:+ quoted "if");;
  condition ← ParseExpression int32_min;
  token ← GetNextToken;
  expect (bool_decide (token_type_ token = kThen))
         ("Expected " +:+ quoted "then" +:+ " after if-block");;
  statements ← then_statements fuel [];
  token ← GetPeek;
  expect (negb (IsEOF token)) ("Expected " +:+ quoted "end if" +:+ ", but got EOF");;
  else_block ←
    (if IsEnd token then
       GetNextToken;;
       token ← GetNextToken;
       expect (IsIf token)
              ("Expected " +:+ quoted "end if" +:+ ", but got only " +:+ quoted "end");;
       mret []
     else if IsElseIf token then
       nested ← ParseIf;
       mret [Some nested]
     else ParseElse);
  statements ← children statements;
  else_block ← children else_block;
  mret (IfNode statements else_block condition).

Definition ParseStatement_body : Parser (option BaseNode) :=
  peek ← GetPeek;
  if IsEndLine peek then GetNextToken;; ParseStatement
  else
    token ← GetPeek;
    if IsEOF token then mret None
    else if IsIf token then non_null ParseIf
    else if IsWhile token then non_null ParseWhile
    else if IsFor token then non_null ParseFor
    else if IsBreak token then non_null ParseBreak
    else if IsContinue token then non_null ParseContinue
    else if IsReturn token then non_null ParseReturn
    else non_null (ParseExpression int32_min).

(** The loop of [ParseExpression] that takes the operators after the
    left operand. *)
Fixpoint binding_loop (rounds : nat) (minimal_binding_power : Z) (lhs : BaseNode)
  : Parser BaseNode :=
  match rounds with
  | O => λ _, OutOfFuelParsing
  | S rounds' =>
      operation ← GetPeek;
      if IsEOF operation || IsColon operation || IsEndLine operation
         || IsRParen operation || IsEnd operation || IsThen operation
         || IsElseIf operation || IsElse operation || IsComma operation
         || IsRBracket operation then mret lhs
      else if IsLParen operation then
        lhs ← ParseFunctionCall_lhs lhs;
        binding_loop rounds' minimal_binding_power lhs
      else if IsLBracket operation then
        lhs ← ParseSlice lhs;
        binding_loop rounds' minimal_binding_power lhs
      else
        expect (IsBinOperator operation) "Unknown binary operation";;
        left_binding_power ← at_ kLeftBindingPower (token_type_ operation);
        right_binding_power ← at_ kRightBindingPower (token_type_ operation);
        if (left_binding_power <? minimal_binding_power)%Z then mret lhs
        else
          GetNextToken;;
          rhs ← ParseExpression right_binding_power;
          binding_loop rounds' minimal_binding_power
            (BinaryOperationNode (token_type_ operation) lhs rhs)
  end.

Definition ParseExpression_body (minimal_binding_power : Z) : Parser BaseNode :=
  token ← GetNextToken;
  lhs ←
    match kPrefixBindingPower (token_type_ token) with
    | Some binding_power =>
        rhs ← ParseExpression binding_power;
        mret (UnaryOperationNode (token_type_ token) rhs)
    | None =>
        if IsLBracket token then ParseList
        else if IsLParen token then
          lhs ← ParseExpression int32_min;
          last_token ← GetNextToken;
          expect (bool_decide (token_type_ last_token = kRParen))
                 ("Expected ')'" +:+ cxx.newline);;
          mret lhs
        else if IsAtom token then
          if IsIdentifier token then ParseIdentifier token
          else if IsStringLiteral token then
            value ← or_throw (Get_string token);
            mret (StringLiteralNode value)
          else if IsNumberLiteral token then
            value ← or_throw (Get_double token);
            mret (NumberLiteralNode value)
          else if IsBoolLiteral token then
            mret (NumberLiteralNode (if IsTrue token then 1 else 0))
          else if IsNil token then mret NilLiteralNode
          else λ _, NullChild
        else if IsFunction token then
          function ← ParseFunction;
          mret (FunctionImplementationNode function)
        else fail (runtime_error "Incorrect expression")
    end;
  binding_loop fuel minimal_binding_power lhs.

End Body.

(** The recursion of the parser, bounded by [fuel]. *)
Fixpoint ParseExpression (fuel : nat) (minimal_binding_power : Z) (lexer : Lexer)
    {struct fuel} : Parsed BaseNode :=
  match fuel with
  | O => OutOfFuelParsing
  | S fuel' =>
      ParseExpression_body (ParseExpression fuel') (ParseStatement fuel')
                           fuel' minimal_binding_power lexer
  end
with ParseStatement (fuel : nat) (lexer : Lexer) {struct fuel}
    : Parsed (option BaseNode) :=
  match fuel with
  | O => OutOfFuelParsing
  | S fuel' =>
      ParseStatement_body (ParseExpression fuel') (ParseStatement fuel')
                          (ParseIf fuel') fuel' lexer
  end
with ParseIf (fuel : nat) (lexer : Lexer) {struct fuel} : Parsed BaseNode :=
  match fuel with
  | O => OutOfFuelParsing
  | S fuel' =>
      ParseIf_body (ParseExpression fuel') (ParseStatement fuel')
                   (ParseIf fuel') fuel' lexer
  end.

(** The loop of [ParseCode]. *)
Fixpoint root_statements (fuel rounds : nat) (statements : list BaseNode)
  : Parser (list BaseNode) :=
  match rounds with
  | O => λ _, OutOfFuelParsing
  | S rounds' =>
      peek ← GetPeek;
      if negb (IsEOF peek) then
        statement ← ParseStatement fuel;
        match statement with
        | Some statement => root_statements fuel rounds' (statements ++ [statement])
        | None =>
            peek ← GetPeek;
            if IsEOF peek then mret statements
            else root_statements fuel rounds' statements
        end
      else mret statements
  end.

(** [Parser(text).ParseCode()]: the statements of the root node. *)
Definition ParseCode (fuel : nat) (text : string) : Parsed (list BaseNode) :=
  root_statements fuel fuel [] (Lexer_new text).

End Parsing.

(** ** Programs as the parser builds them *)

(** Short names for the nodes the examples are made of. *)
Module ast.

Definition number (d : float) : BaseNode := NumberLiteralNode d.
Definition text (s : string) : BaseNode := StringLiteralNode s.
Definition var (name : string) : BaseNode := VariableNode name.
Definition binary (operation : TokenType) (lhs rhs : BaseNode) : BaseNode :=
  BinaryOperationNode operation lhs rhs.
Definition assign (name : string) (e : BaseNode) : BaseNode :=
  BinaryOperationNode kAssign (var name) e.
Definition call (name : Name) (args : list BaseNode) : BaseNode :=
  GlobalFunctionNode name args.
Definition print (e : BaseNode) : BaseNode := GlobalFunctionNode kPrint [e].
Definition function (address : ptr) (arg_names : list string)
    (body : list BaseNode) : BaseNode :=
  FunctionImplementationNode (MkFunctionDefinition address body arg_names).

End ast.

(** The six programs of the repository's test suite. *)
Module tests.

Import ast.

Definition program1 : list BaseNode :=
  [ assign "a" (number 1); assign "b" (number 2);
    assign "c" (binary kPlus (var "a") (var "b"));
    print (var "c") ].

Definition program2 : list BaseNode :=
  [ IfNode [print (text "true")] [] (number 1) ].

Definition program3 : list BaseNode :=
  [ IfNode [print (text "true")] [print (text "false")]
           (binary kLess (number 1) (number 0)) ].

Definition program4 : list BaseNode :=
  [ assign "a" (text "");
    ForNode "i" (call kRange [number 1; number 10; number 1])
      [ binary kAddAssign (var "a") (call kToString [var "i"]) ];
    print (var "a") ].

Definition program5 : list BaseNode :=
  [ assign "a" (text "ITMOITMO");
    print (call kSlice [var "a"; number 1; number 8]) ].

Definition program6 : list BaseNode :=
  [ assign "n" (number 10); assign "res" (number 1);
    ForNode "i" (call kRange [number 1; binary kPlus (var "n") (number 1);
                              number 1])
      [ binary kMultAssign (var "res") (var "i") ];
    print (var "res") ].

(** The output of a run that ends normally. *)
Definition output_of (libc : Platform) (statements : list BaseNode) : option string :=
  match Calculate libc 100 (RootNode statements) (EvalVisitor_new "" "") with
  | Normal _ v => Some (out_ v)
  | _ => None
  end.

End tests.

(** ** Closed runs

    A run of a whole program on a fresh visitor, as [interpret] starts it
    once the parser has handed over the statements of the root node. *)

Definition run (libc : Platform) (fuel : nat) (statements : list BaseNode)
  : Outcome unit :=
  Calculate libc fuel (RootNode statements) (EvalVisitor_new "" "").

(** The visitor a call ended with, when it ended normally. *)
Definition final {A} (o : Outcome A) : option EvalVisitor :=
  match o with Normal _ v => Some v | _ => None end.

(** What a run that ended normally wrote. *)
Definition printed {A} (o : Outcome A) : option string := out_ <$> final o.

(** A platform for the closed examples.  None of them calls [fmod], [pow],
    [strtod], [std::rand], [std::sort] or [std::to_string(double)], so these
    fields are placeholders; the messages are the ones of libstdc++. *)
Definition sample_platform : Platform :=
  MkPlatform (λ _ _, nan) (λ _ _, nan) (λ _, "") (λ _, (nan, 0)) (λ _, 0)
             (λ _ _, None)
             "std::get: wrong index for variant"
             (λ pos size,
                "basic_string::substr: __pos (which is " +:+ cxx.to_string pos
                +:+ ") > this->size() (which is "
                +:+ cxx.to_string (Z.of_nat size) +:+ ")")
             "std::bad_alloc".


(** ** Running a text *)

(** The value of a sequence of decimal digits. *)
Definition digits_value (digits : string) : Z :=
  fold_left (λ value c, (10 * value + (Z.of_nat (nat_of_ascii c) - 48))%Z)
            (list_ascii_of_string digits) 0%Z.

(** A [std::stod] for the closed examples.  The characters that reach it
    are digits, [.] and [e].  It reads the digits, a fraction and an
    exponent of digits; the value is exact arithmetic rounded once, which
    is what [strtod] gives, as long as the digits make a number below 2^53
    and the power of ten is at most 10^22 (which a [double] holds exactly,
    as 5^22 times 2^22).  Longer numerals are beyond it, and are answered
    as out of range. *)
Definition sample_stod (str : string) : exception + float * nat :=
  let '(whole, after_whole) := span cctype.isdigit str in
  if is_empty whole then inl (invalid_argument "stod")
  else
    let '(fraction, dot, after_fraction) :=
      match after_whole with
      | String "."%char s' =>
          let '(fraction, remaining) := span cctype.isdigit s' in
          (fraction, 1, remaining)
      | _ => (EmptyString, 0, after_whole)
      end in
    let '(exponent, exponent_length) :=
      match after_fraction with
      | String "e"%char s' =>
          let '(digits, _) := span cctype.isdigit s' in
          if is_empty digits then (0%Z, 0)
          else (digits_value digits, S (String.length digits))
      | _ => (0%Z, 0)
      end in
    let mantissa := digits_value (whole +:+ fraction) in
    let power := (exponent - Z.of_nat (String.length fraction))%Z in
    let end_ := String.length whole + dot + String.length fraction
                + exponent_length in
    if decide (mantissa < 2 ^ 53 ∧ - 22 ≤ power ≤ 22)%Z then
      let m := cxx.from_magnitude false mantissa in
      let ten := (cxx.from_magnitude false (5 ^ Z.abs power)
                  * cxx.from_magnitude false (2 ^ Z.abs power))%float in
      inr (if (power <? 0)%Z then (m / ten)%float else (m * ten)%float, end_)
    else inl (out_of_range "stod").

(** The parser on a text, with the library of the closed examples. *)
Definition sample_ParseCode (fuel : nat) (text : string) : Parsed (list BaseNode) :=
  ParseCode sample_stod "unordered_map::at" fuel text.

(** [interpret] on an input, with the parser of this file: what the text
    is parsed to is handed to [interpret] as the answer of its parser. *)
Definition interpret_text (stod : string → exception + float * nat)
    (what_at : string) (libc : Platform) (fuel : nat)
    (input output cin : string) : Run :=
  match ParseCode stod what_at fuel (read_code (S (String.length input)) input) with
  | Done statements _ =>
      interpret (λ _, inr statements) libc fuel input output cin
  | Failed e => interpret (λ _, inl e) libc fuel input output cin
  | NullChild => RunUndefined
  | OutOfFuelParsing => RunOutOfFuel
  end.

Definition sample_interpret (fuel : nat) (input : string) : Run :=
  interpret_text sample_stod "unordered_map::at" sample_platform fuel input "" "".

(** The texts of the six programs of the test suite, as the raw string
    literals of the tests hold them: a line end, the lines, and the
    indentation of the closing parenthesis. *)
Module texts.

Definition raw (lines : list string) : string :=
  cxx.newline
  +:+ String.concat "" ((λ line, line +:+ cxx.newline) <$> lines)
  +:+ "            ".

Definition code1 : string :=
  raw [ "                a = 1";
        "                b = 2";
        "                c = a + b";
        "                print(c)" ].

Definition code2 : string :=
  raw [ "                if true then";
        "                    print(" +:+ cxx.quote +:+ "true" +:+ cxx.quote +:+ ")";
        "                end if" ].

Definition code3 : string :=
  raw [ "                if 1 < 0 then";
        "                    print(" +:+ cxx.quote +:+ "true" +:+ cxx.quote +:+ ")";
        "                else";
        "                    print(" +:+ cxx.quote +:+ "false" +:+ cxx.quote +:+ ")";
        "                end if" ].

Definition code4 : string :=
  raw [ "                a = " +:+ cxx.quote +:+ cxx.quote;
        "                for i in range(1, 10, 1)";
        "                    a += to_string(i)";
        "                end for";
        "                print(a)" ].

Definition code5 : string :=
  raw [ "                a = " +:+ cxx.quote +:+ "ITMOITMO" +:+ cxx.quote;
        "                print(a[1:8])" ].

Definition code6 : string :=
  raw [ "                n = 10";
        "                res = 1";
        "                for i in range(1, n + 1, 1)";
        "                    res *= i";
        "                end for";
        "                print(res)" ].

End texts.

(** ** What the properties are stated with *)

(** The visitor a run ends with, or the fresh one when it does not end
    normally. *)
Definition final_or_fresh {A} (o : Outcome A) : EvalVisitor :=
  default (EvalVisitor_new "" "") (final o).

(** A parser for closed examples: the programs it knows, by their text, and
    a parse error for every other text. *)
Definition parser_of (known : list (string * list BaseNode)) (code : string)
  : exception + list BaseNode :=
  match list_find (λ entry, fst entry = code) known with
  | Some (_, (_, statements)) => inr statements
  | None => inl (runtime_error "Incorrect expression")
  end.

(** The height of the scope stack, [scopes_.size()]. *)
Definition depth (v : EvalVisitor) : nat := length (scopes_ v).

(** A step that keeps the height of the scope stack and the ghost counter,
    and at most appends to the output. *)
Definition same_frame (v v' : EvalVisitor) : Prop :=
  depth v' = depth v ∧ unpopped v' = unpopped v ∧ ∃ s, out_ v' = out_ v +:+ s.

(** The height of the scope stack, counted against the scopes that the
    string branch of the [for] loop left behind: apart from them, the stack
    is [z] scopes higher than at the start, and one more when it was empty
    at the start and a first binding has created the outermost scope. *)
Definition balanced (z : nat) (v0 v : EvalVisitor) : Prop :=
  unpopped v0 ≤ unpopped v
  ∧ (depth v + unpopped v0 = depth v0 + unpopped v + z
     ∨ (depth v0 = 0 ∧ depth v + unpopped v0 = 1 + unpopped v + z)).

(** What the visitor [v] has written is what [v0] had written and more. *)
Definition extends_output (v0 v : EvalVisitor) : Prop :=
  ∃ written, out_ v = out_ v0 +:+ written.

(** [value.index()]: which alternative of the variant a value holds. *)
Definition alternative (value : ValueType) : nat :=
  match value with
  | Monostate => 0
  | Double _ => 1
  | StringPtr _ => 2
  | FunctionPtr _ => 3
  | ListPtr _ => 4
  end.

(** A text with a newline after its last line, when it has a last line
    that lacks one. *)
Fixpoint with_final_newline (s : string) : string :=
  match s with
  | EmptyString => EmptyString
  | String c rest =>
      match rest with
      | EmptyString =>
          if decide (c = ascii_of_nat 10) then s else String c cxx.newline
      | _ => String c (with_final_newline rest)
      end
  end.

(** The visitor after a program has run on a fresh one. *)
Definition visitor_after (statements : list BaseNode) : EvalVisitor :=
  final_or_fresh (run sample_platform 100 statements).

(** A fresh visitor with the given shared strings in its store. *)
Definition visitor_with_strings (strings : list string) : EvalVisitor :=
  set_string_store strings (EvalVisitor_new "" "").

(** The number of characters ahead of the lexer, and the length of the
    text: the place of the lexer and what is ahead of it. *)
Definition characters_ahead (lexer : Lexer) : nat := String.length (ahead lexer).

Definition text_length (lexer : Lexer) : nat :=
  current_symbol_ lexer + characters_ahead lexer.

(** The lexer after the characters of [word], which were ahead of it. *)
Definition after_word (current : nat) (word rest : string) : Lexer :=
  MkLexer (current + String.length word) rest.

Definition quote_char : ascii := ascii_of_nat 34.
Definition backslash : ascii := ascii_of_nat 92.

(** A string written as a literal of the language: between double
    quotes, with a backslash before each double quote and each backslash
    of it. *)
Fixpoint escape (s : string) : string :=
  match s with
  | EmptyString => EmptyString
  | String c s' =>
      if decide (c = quote_char) then String backslash (String c (escape s'))
      else if decide (c = backslash) then String backslash (String c (escape s'))
      else String c (escape s')
  end.

Definition literal (s : string) : string :=
  String quote_char (escape s +:+ String quote_char EmptyString).

(** The next character ahead is there and satisfies [p]. *)
Definition starts_with (p : ascii → bool) (s : string) : bool :=
  match s with
  | String c _ => p c
  | EmptyString => false
  end.

(** The characters of an identifier. *)
Definition identifier_symbol (c : ascii) : bool :=
  cctype.isalnum c || bool_decide (c = "_"%char).

(** The token that [GetPeek] gives at [lexer]. *)
Definition peeked (stod : string → exception + float * nat)
    (lexer : Lexer) (token : Token) : Prop :=
  ∃ lexer', GetNextToken stod lexer = Done token lexer'.

(** Only the end of the text is ahead of the lexer. *)
Definition at_the_end (stod : string → exception + float * nat)
    (lexer : Lexer) : Prop :=
  ∃ token, peeked stod lexer token ∧ IsEOF token = true.

(** The exceptions that leave the parser: its own, and those of
    [std::stod]. *)
Definition thrown_by_parser (stod : string → exception + float * nat)
    (e : exception) : Prop :=
  (∃ message, e = runtime_error message) ∨ ∃ str, stod str = inl e.

(** The statements that a call of the parser gave. *)
Definition parsed_statements {A} (result : Parsed A) : option A :=
  match result with
  | Done a _ => Some a
  | _ => None
  end.

(** Fuel that is enough for a text, and the statements of the text. *)
Definition enough_fuel (text : string) : nat := 2 * String.length text + 3.

Definition parse (stod : string → exception + float * nat) (what_at : string)
    (text : string) : option (list BaseNode) :=
  parsed_statements (ParseCode stod what_at (enough_fuel text) text).

(** The binary operators and the prefix operators as they are written:
    the entries of the tables of the lexer whose token is one. *)
Definition binary_operators : list (string * TokenType) :=
  List.filter (λ entry, IsBinOperator (MkToken (snd entry) NoValue))
              (kOperators ++ kKeyWords).

Definition prefix_operators : list (string * TokenType) :=
  List.filter (λ entry, bool_decide (is_Some (kPrefixBindingPower (snd entry))))
              (kOperators ++ kKeyWords).

(** * Properties *)

(** ** The library functions and the test suite

    The model of the library on some values, and the evaluator on the six
    programs of the repository's test suite, with the outputs the suite
    expects. *)

Example floor_examples :
  (cxx.floor 2.5, cxx.floor (-2.5), cxx.floor 3, cxx.floor 0.5)
  = (2, -3, 3, 0)%float.
Proof. reflexivity. Qed.

Example ceil_round_examples :
  (cxx.ceil 2.5, cxx.ceil (-2.5), cxx.round 2.5, cxx.round (-2.5), cxx.round 2.25)
  = (3, -2, 3, -3, 2)%float.
Proof. reflexivity. Qed.

Example to_size_t_examples :
  (cxx.to_size_t 0.5, cxx.to_size_t 3.75, cxx.to_size_t (-1), cxx.to_size_t nan)
  = (Some 0, Some 3, None, None).
Proof. reflexivity. Qed.

Example to_string_examples :
  (cxx.to_string 3628800, cxx.to_string 0, cxx.to_string (-7))
  = ("3628800", "0", "-7").
Proof. reflexivity. Qed.

Example string_examples :
  (cxx.find "a,b,c" "," 2, cxx.find "abc" "" 3, cxx.find "abc" "" 4,
   cxx.ends_with "hello" "llo", cxx.replace "a-b" 1 1 "+",
   cxx.getline ("ab" +:+ cxx.newline +:+ "c"))
  = (Some 3, Some 3, None, true, "a+b", ("ab", "c")).
Proof. reflexivity. Qed.

Example test_suite_outputs (libc : Platform) :
  tests.output_of libc <$>
    [tests.program1; tests.program2; tests.program3; tests.program4;
     tests.program5; tests.program6]
  = Some <$> ["3"; "true"; "false"; "123456789"; "TMOITMO"; "3628800"].
Proof. vm_compute. reflexivity. Qed.

(** ** A program logic for invariants of the scope stack and the output

    [Inv z v0 v] relates the visitor [v0] at the start of a run to the
    visitor [v] at a point where [z] scopes pushed by the constructs being
    executed are still to be popped; [InvT v0 v] is what is known of the
    visitor when an exception leaves the run.  The rules below hold for every
    such pair that the primitive steps of the evaluator respect. *)

Lemma append_empty_r (s : string) : s +:+ "" = s.
Proof.
  induction s as [|c s IH]; [reflexivity|].
  change (String c (s +:+ "") = String c s). now rewrite IH.
Qed.

Lemma append_assoc (a b c : string) : (a +:+ b) +:+ c = a +:+ (b +:+ c).
Proof.
  induction a as [|x a IH]; [reflexivity|].
  change (String x ((a +:+ b) +:+ c) = String x (a +:+ (b +:+ c))).
  now rewrite IH.
Qed.

Lemma same_frame_fields (v v' : EvalVisitor) :
  scopes_ v' = scopes_ v → unpopped v' = unpopped v → out_ v' = out_ v →
  same_frame v v'.
Proof.
  intros Hs Hu Ho. unfold same_frame, depth. rewrite Hs, Hu, Ho.
  repeat split. exists "". now rewrite append_empty_r.
Qed.

Lemma same_frame_depth (v v' : EvalVisitor) :
  depth v' = depth v → unpopped v' = unpopped v → out_ v' = out_ v →
  same_frame v v'.
Proof.
  intros Hs Hu Ho. unfold same_frame. rewrite Hs, Hu, Ho.
  repeat split. exists "". now rewrite append_empty_r.
Qed.

Lemma assign_from_back_length scopes name value scopes' :
  assign_from_back scopes name value = Some scopes' →
  length scopes' = length scopes.
Proof.
  revert scopes'. induction scopes as [|it rest IH]; intros scopes'; simpl.
  - discriminate.
  - destruct (it !! name).
    + intros [= <-]. reflexivity.
    + destruct (assign_from_back rest name value) as [rest'|] eqn:E; simpl;
        [|discriminate].
      intros [= <-]. simpl. f_equal. now apply IH.
Qed.

(** [SetVariable] throws nothing, and changes the height of the scope stack
    only by the scope it pushes when the stack is empty. *)
Lemma SetVariable_frame name value v :
  match SetVariable name value v with
  | Normal _ v' =>
      (scopes_ v = [] ∧ same_frame (push_scope v) v')
      ∨ (scopes_ v ≠ [] ∧ same_frame v v')
  | Thrown _ _ => False
  | Undefined | OutOfFuel => True
  end.
Proof.
  destruct v as [r sc fn o i cf ss ls rc u].
  unfold SetVariable, and_then, M_then, gets, modify, PushScope, mret, M_ret,
    insert_function_name, undefined, push_scope. simpl.
  destruct sc as [|back rest]; simpl.
  - rewrite lookup_empty. simpl.
    destruct (HoldsFunction value); simpl;
      left; split; auto; now apply same_frame_depth.
  - destruct (back !! name) eqn:Hback; simpl.
    + destruct (HoldsFunction value); simpl; [destruct fn; simpl; auto|];
        right; split; auto; now apply same_frame_depth.
    + destruct (assign_from_back rest name value) as [rest'|] eqn:Hrest; simpl.
      * apply assign_from_back_length in Hrest.
        destruct (HoldsFunction value); simpl; [destruct fn; simpl; auto|];
          right; split; auto; apply same_frame_depth; auto;
          unfold depth; simpl; now f_equal.
      * destruct (HoldsFunction value); simpl; [destruct fn; simpl; auto|];
          right; split; auto; now apply same_frame_depth.
Qed.

Section Hoare.

Context (Inv : nat → EvalVisitor → EvalVisitor → Prop).
Context (InvT : EvalVisitor → EvalVisitor → Prop).

Hypothesis Inv_frame : ∀ z v0 v v', Inv z v0 v → same_frame v v' → Inv z v0 v'.
Hypothesis Inv_push : ∀ z v0 v, Inv z v0 v → Inv (S z) v0 (push_scope v).
Hypothesis Inv_pop : ∀ z v0 v, Inv (S z) v0 v → Inv z v0 (pop_scope v).
Hypothesis Inv_first_scope :
  ∀ z v0 v, scopes_ v = [] → Inv z v0 v → Inv z v0 (push_scope v).
Hypothesis Inv_unpopped :
  ∀ z v0 v, Inv (S z) v0 v → Inv z v0 (set_unpopped (S (unpopped v)) v).
Hypothesis Inv_thrown : ∀ z v0 v, Inv z v0 v → InvT v0 v.

Definition hoare {A} (z : nat) (m : M A) (z' : nat) : Prop :=
  ∀ v0 v, Inv z v0 v →
    match m v with
    | Normal _ v' => Inv z' v0 v'
    | Thrown _ v' => InvT v0 v'
    | Undefined | OutOfFuel => True
    end.

Lemma hoare_ret {A} z (a : A) : hoare z (mret a) z.
Proof. intros v0 v H. exact H. Qed.

Lemma hoare_bind {A B} z z1 z2 (m : M A) (k : A → M B) :
  hoare z m z1 → (∀ a, hoare z1 (k a) z2) → hoare z (and_then m k) z2.
Proof.
  intros Hm Hk v0 v H. specialize (Hm v0 v H).
  unfold and_then, M_then. destruct (m v) as [a v'| | |]; auto.
  apply Hk, Hm.
Qed.

Lemma hoare_throw {A} z z' (e : exception) : hoare z (throw e : M A) z'.
Proof. intros v0 v H. simpl. eauto. Qed.

Lemma hoare_undefined {A} z z' : hoare z (undefined : M A) z'.
Proof. intros v0 v H. exact I. Qed.

Lemma hoare_out_of_fuel {A} z z' : hoare z (out_of_fuel : M A) z'.
Proof. intros v0 v H. exact I. Qed.

Lemma hoare_gets {A} z (f : EvalVisitor → A) : hoare z (gets f) z.
Proof. intros v0 v H. exact H. Qed.

Lemma hoare_reads {A} z (f : EvalVisitor → Result A) : hoare z (reads f) z.
Proof. intros v0 v H. unfold reads. destruct (f v); simpl; eauto. Qed.

Lemma hoare_defined {A} z (x : option A) : hoare z (defined x) z.
Proof. destruct x; [apply hoare_ret | apply hoare_undefined]. Qed.

Lemma hoare_modify z (f : EvalVisitor → EvalVisitor) :
  (∀ v, same_frame v (f v)) → hoare z (modify f) z.
Proof. intros Hf v0 v H. simpl. eapply Inv_frame; eauto. Qed.

Lemma hoare_make_shared_string z s : hoare z (make_shared_string s) z.
Proof.
  intros v0 v H. simpl. eapply Inv_frame; eauto.
  now apply same_frame_fields.
Qed.

Lemma hoare_make_shared_List z l : hoare z (make_shared_List l) z.
Proof.
  intros v0 v H. simpl. eapply Inv_frame; eauto.
  now apply same_frame_fields.
Qed.

Lemma hoare_write z s : hoare z (write s) z.
Proof.
  apply hoare_modify. intros v. repeat split. now exists s.
Qed.

Lemma hoare_insert_function_name z name : hoare z (insert_function_name name) z.
Proof.
  intros v0 v H. unfold insert_function_name.
  destruct (function_names_ v); [exact I|].
  eapply Inv_frame; eauto. now apply same_frame_fields.
Qed.

Lemma hoare_PushScope z : hoare z PushScope (S z).
Proof. intros v0 v H. now apply Inv_push. Qed.

Lemma hoare_PopScope z : hoare (S z) PopScope z.
Proof. intros v0 v H. now apply Inv_pop. Qed.

Lemma hoare_leave_unpopped z : hoare (S z) leave_unpopped z.
Proof. intros v0 v H. now apply Inv_unpopped. Qed.

Create HintDb hoare.

Ltac hoare_leaf :=
  first
    [ apply hoare_ret | apply hoare_throw | apply hoare_undefined
    | apply hoare_out_of_fuel | apply hoare_gets | apply hoare_reads
    | apply hoare_defined | apply hoare_make_shared_string
    | apply hoare_make_shared_List | apply hoare_write
    | apply hoare_insert_function_name | apply hoare_PushScope
    | apply hoare_PopScope | apply hoare_leave_unpopped
    | apply hoare_modify; intros ?; apply same_frame_fields; reflexivity
    | solve [eauto with hoare] ].

Ltac hoare_go :=
  repeat lazymatch goal with
    | |- hoare _ (and_then _ _) _ => eapply hoare_bind; [ | intros ? ]
    | |- hoare _ (if ?b then _ else _) _ => destruct b
    | |- hoare _ (match ?x with _ => _ end) _ => destruct x
    | |- hoare _ _ _ => hoare_leaf
    end.

Context (libc : Platform).

Lemma hoare_SetVariable z name value : hoare z (SetVariable name value) z.
Proof.
  intros v0 v H.
  pose proof (SetVariable_frame name value v) as Hspec.
  destruct (SetVariable name value v) as [[] v'| | |]; try easy.
  destruct Hspec as [[Hempty Hframe]|[_ Hframe]].
  - eapply Inv_frame; [|exact Hframe]. now apply Inv_first_scope.
  - eapply Inv_frame; eauto.
Qed.

Local Hint Resolve hoare_SetVariable : hoare.

Lemma hoare_CalculateCompare z lhs rhs operation :
  hoare z (CalculateCompare lhs rhs operation) z.
Proof. unfold CalculateCompare. hoare_go. Qed.

Lemma hoare_compare_strings z lhs rhs cmp :
  hoare z (compare_strings lhs rhs cmp) z.
Proof. unfold compare_strings. hoare_go. Qed.

Local Hint Resolve hoare_CalculateCompare hoare_compare_strings : hoare.

Lemma hoare_CalculateLess z lhs rhs : hoare z (CalculateLess lhs rhs) z.
Proof. unfold CalculateLess. hoare_go. Qed.

Lemma hoare_CalculateGreater z lhs rhs : hoare z (CalculateGreater lhs rhs) z.
Proof. unfold CalculateGreater. hoare_go. Qed.

Lemma hoare_CalculateEqual z lhs rhs : hoare z (CalculateEqual lhs rhs) z.
Proof. unfold CalculateEqual. hoare_go. Qed.

Lemma hoare_CalculateNotEqual z lhs rhs : hoare z (CalculateNotEqual lhs rhs) z.
Proof. unfold CalculateNotEqual. hoare_go. Qed.

Lemma hoare_CalculateLessOrEqual z lhs rhs :
  hoare z (CalculateLessOrEqual lhs rhs) z.
Proof. unfold CalculateLessOrEqual. hoare_go. Qed.

Lemma hoare_CalculateGreaterOrEqual z lhs rhs :
  hoare z (CalculateGreaterOrEqual lhs rhs) z.
Proof. unfold CalculateGreaterOrEqual. hoare_go. Qed.

Lemma hoare_CalculateAdd z lhs rhs : hoare z (CalculateAdd lhs rhs) z.
Proof. unfold CalculateAdd. hoare_go. Qed.

Lemma hoare_CalculateSub z lhs rhs : hoare z (CalculateSub lhs rhs) z.
Proof. unfold CalculateSub. hoare_go. Qed.

Lemma hoare_CalculateMult z lhs rhs : hoare z (CalculateMult lhs rhs) z.
Proof. unfold CalculateMult. hoare_go. Qed.

Lemma hoare_CalculateDiv z lhs rhs : hoare z (CalculateDiv lhs rhs) z.
Proof. unfold CalculateDiv. hoare_go. Qed.

Lemma hoare_CalculateMod z lhs rhs : hoare z (CalculateMod libc lhs rhs) z.
Proof. unfold CalculateMod. hoare_go. Qed.

Lemma hoare_CalculatePow z lhs rhs : hoare z (CalculatePow libc lhs rhs) z.
Proof. unfold CalculatePow. hoare_go. Qed.

Local Hint Resolve hoare_CalculateLess hoare_CalculateGreater
  hoare_CalculateEqual hoare_CalculateNotEqual hoare_CalculateLessOrEqual
  hoare_CalculateGreaterOrEqual hoare_CalculateAdd hoare_CalculateSub
  hoare_CalculateMult hoare_CalculateDiv hoare_CalculateMod
  hoare_CalculatePow : hoare.

(** The rules for the [Visit] overloads, given the rule for the recursive
    call. *)
Section HoareVisit.

Context (Calculate : BaseNode → M unit) (fuel : nat).
Hypothesis hoare_Calculate : ∀ node z, hoare z (Calculate node) z.

Local Hint Resolve hoare_Calculate : hoare.

Lemma hoare_calculate_elements z nodes :
  hoare z (calculate_elements Calculate nodes) z.
Proof. induction nodes as [|element rest IH]; simpl; hoare_go. Qed.

Lemma hoare_statement_loop z stop statements :
  hoare z (statement_loop Calculate stop statements) z.
Proof. induction statements as [|statement rest IH]; simpl; hoare_go. Qed.

Lemma hoare_bind_arguments z names args i :
  hoare z (bind_arguments Calculate names args i) z.
Proof.
  revert i. induction names as [|name names IH]; intros i; simpl; hoare_go.
Qed.

Local Hint Resolve hoare_calculate_elements hoare_statement_loop
  hoare_bind_arguments : hoare.

Lemma hoare_AssignToLeftOperand z lhs_ :
  hoare z (AssignToLeftOperand lhs_) z.
Proof. unfold AssignToLeftOperand. hoare_go. Qed.

Local Hint Resolve hoare_AssignToLeftOperand : hoare.

Lemma hoare_compound_assign z operation lhs_ rhs_ :
  (∀ lhs rhs, hoare z (operation lhs rhs) z) →
  hoare z (compound_assign Calculate operation lhs_ rhs_) z.
Proof. intros Hop. unfold compound_assign. hoare_go. Qed.

Lemma hoare_Visit_BinaryOperationNode z operation_ lhs_ rhs_ :
  hoare z (Visit_BinaryOperationNode libc Calculate operation_ lhs_ rhs_) z.
Proof.
  unfold Visit_BinaryOperationNode, CalculateAssign, CalculateAddAssign,
    CalculateSubAssign, CalculateMultAssign, CalculateDivAssign,
    CalculateModAssign, CalculatePowAssign.
  destruct operation_;
    try (apply hoare_compound_assign; intros; auto with hoare); hoare_go.
Qed.

Lemma hoare_Visit_UnaryOperationNode z operation_ arg_ :
  hoare z (Visit_UnaryOperationNode Calculate operation_ arg_) z.
Proof.
  unfold Visit_UnaryOperationNode, CalculateUnaryMinus, CalculateUnaryPlus,
    CalculateLogicalNot.
  hoare_go.
Qed.

Lemma hoare_Visit_ListLiteralNode z elements_ :
  hoare z (Visit_ListLiteralNode Calculate elements_) z.
Proof. unfold Visit_ListLiteralNode. hoare_go. Qed.

Lemma hoare_Visit_VariableNode z name_ : hoare z (Visit_VariableNode name_) z.
Proof. unfold Visit_VariableNode. hoare_go. Qed.

Lemma hoare_Visit_IfNode z then_statements_ else_statements_ condition_ :
  hoare z (Visit_IfNode Calculate then_statements_ else_statements_ condition_) z.
Proof. unfold Visit_IfNode, ExecuteStatements. hoare_go. Qed.

Lemma hoare_Visit_UnnamedFunctionCallNode z function_ args_ :
  hoare z (Visit_UnnamedFunctionCallNode Calculate function_ args_) z.
Proof. unfold Visit_UnnamedFunctionCallNode. hoare_go. Qed.

Lemma hoare_Visit_FunctionCallNode z function_name_ args_ :
  hoare z (Visit_FunctionCallNode Calculate function_name_ args_) z.
Proof. unfold Visit_FunctionCallNode. hoare_go. Qed.

Lemma hoare_after_body z : hoare z after_body z.
Proof. unfold after_body. hoare_go. Qed.

Local Hint Resolve hoare_after_body : hoare.

Lemma hoare_while_loop z rounds condition_ statements_ :
  hoare z (while_loop Calculate rounds condition_ statements_) z.
Proof. induction rounds as [|rounds IH]; simpl; hoare_go. Qed.

Lemma hoare_list_rounds z name statements_ sequence size i rounds :
  hoare z (list_rounds Calculate name statements_ sequence size i rounds) z.
Proof.
  revert i. induction rounds as [|rounds IH]; intros i; simpl; hoare_go.
Qed.

Lemma hoare_string_statements z statements :
  hoare z (string_statements Calculate statements) z.
Proof. induction statements as [|statement rest IH]; simpl; hoare_go. Qed.

Local Hint Resolve hoare_string_statements : hoare.

Lemma hoare_string_rounds z name statements_ sequence size i rounds :
  hoare z (string_rounds Calculate name statements_ sequence size i rounds) z.
Proof.
  revert i. induction rounds as [|rounds IH]; intros i; simpl; hoare_go.
Qed.

Local Hint Resolve hoare_list_rounds hoare_string_rounds : hoare.

Lemma hoare_Visit_ForNode z iterable_name_ sequence_ statements_ :
  hoare z (Visit_ForNode Calculate iterable_name_ sequence_ statements_) z.
Proof. unfold Visit_ForNode. hoare_go. Qed.

Lemma hoare_require_args z n args_ message :
  hoare z (require_args n args_ message) z.
Proof. unfold require_args. hoare_go. Qed.

Lemma hoare_calculate_arg z args_ i : hoare z (calculate_arg Calculate args_ i) z.
Proof. unfold calculate_arg. hoare_go. Qed.

Local Hint Resolve hoare_require_args hoare_calculate_arg : hoare.

Lemma hoare_ExecutePrint z args_ :
  hoare z (ExecutePrint libc Calculate fuel args_) z.
Proof. unfold ExecutePrint. hoare_go. Qed.

Local Hint Resolve hoare_ExecutePrint : hoare.

Lemma hoare_ExecutePrintln z args_ :
  hoare z (ExecutePrintln libc Calculate fuel args_) z.
Proof. unfold ExecutePrintln. hoare_go. Qed.

Lemma hoare_ExecuteLen z args_ : hoare z (ExecuteLen Calculate args_) z.
Proof. unfold ExecuteLen. hoare_go. Qed.

Lemma hoare_ExecuteRead z args_ : hoare z (ExecuteRead args_) z.
Proof. unfold ExecuteRead. hoare_go. Qed.

Lemma hoare_ExecuteStackTrace z args_ :
  hoare z (ExecuteStackTrace libc fuel args_) z.
Proof. unfold ExecuteStackTrace. hoare_go. Qed.

Lemma hoare_transform_string z name f args_ :
  hoare z (transform_string Calculate name f args_) z.
Proof. unfold transform_string. hoare_go. Qed.

Lemma hoare_move_string_from_result z : hoare z move_string_from_result z.
Proof. unfold move_string_from_result. hoare_go. Qed.

Local Hint Resolve hoare_move_string_from_result : hoare.

Lemma hoare_ExecuteJoin z args_ :
  hoare z (ExecuteJoin libc Calculate fuel args_) z.
Proof. unfold ExecuteJoin. hoare_go. Qed.

Lemma hoare_make_shared_strings z pieces :
  hoare z (make_shared_strings pieces) z.
Proof. induction pieces as [|piece rest IH]; simpl; hoare_go. Qed.

Local Hint Resolve hoare_make_shared_strings : hoare.

Lemma hoare_ExecuteSplit z args_ :
  hoare z (ExecuteSplit Calculate fuel args_) z.
Proof. unfold ExecuteSplit. hoare_go. Qed.

Lemma hoare_range_arg z args_ i : hoare z (range_arg Calculate args_ i) z.
Proof. unfold range_arg. hoare_go. Qed.

Local Hint Resolve hoare_range_arg : hoare.

Lemma hoare_ExecuteRange z args_ :
  hoare z (ExecuteRange Calculate fuel args_) z.
Proof. unfold ExecuteRange. hoare_go. Qed.

Lemma hoare_ExecutePush z args_ : hoare z (ExecutePush Calculate args_) z.
Proof. unfold ExecutePush. hoare_go. Qed.

Lemma hoare_ExecutePop z args_ : hoare z (ExecutePop Calculate args_) z.
Proof. unfold ExecutePop. hoare_go. Qed.

Lemma hoare_ExecuteInsert z args_ : hoare z (ExecuteInsert Calculate args_) z.
Proof. unfold ExecuteInsert. hoare_go. Qed.

Lemma hoare_ExecuteRemove z args_ : hoare z (ExecuteRemove Calculate args_) z.
Proof. unfold ExecuteRemove. hoare_go. Qed.

Lemma hoare_ExecuteSort z args_ : hoare z (ExecuteSort libc Calculate args_) z.
Proof. unfold ExecuteSort. hoare_go. Qed.

Lemma hoare_slice_indices z args_ : hoare z (slice_indices Calculate args_) z.
Proof. induction args_ as [|arg rest IH]; simpl; hoare_go. Qed.

Lemma hoare_slice_substr z s pos count :
  hoare z (slice_substr libc s pos count) z.
Proof. unfold slice_substr. hoare_go. Qed.

Local Hint Resolve hoare_slice_indices hoare_slice_substr : hoare.

Lemma hoare_ExecuteSlice z args_ :
  hoare z (ExecuteSlice libc Calculate fuel args_) z.
Proof. unfold ExecuteSlice. hoare_go. Qed.

Lemma hoare_replace_arg z args_ i : hoare z (replace_arg Calculate args_ i) z.
Proof. unfold replace_arg. hoare_go. Qed.

Local Hint Resolve hoare_replace_arg : hoare.

Lemma hoare_ExecuteReplace z args_ :
  hoare z (ExecuteReplace Calculate fuel args_) z.
Proof. unfold ExecuteReplace. hoare_go. Qed.

Lemma hoare_ExecuteCapitalize z args_ :
  hoare z (ExecuteCapitalize Calculate args_) z.
Proof. unfold ExecuteCapitalize. hoare_go. Qed.

Lemma hoare_ExecuteOperationForNumber z args_ function_name operation :
  (∀ d, hoare z (operation d) z) →
  hoare z (ExecuteOperationForNumber Calculate args_ function_name operation) z.
Proof. intros Hop. unfold ExecuteOperationForNumber. hoare_go. Qed.

Lemma hoare_ExecuteParseNumber z args_ :
  hoare z (ExecuteParseNumber libc Calculate args_) z.
Proof. unfold ExecuteParseNumber. hoare_go. Qed.

Lemma hoare_ExecuteToString z args_ :
  hoare z (ExecuteToString libc Calculate fuel args_) z.
Proof. unfold ExecuteToString. hoare_go. Qed.

Lemma hoare_Visit_GlobalFunctionNode z name_ args_ :
  hoare z (Visit_GlobalFunctionNode libc Calculate fuel name_ args_) z.
Proof.
  destruct name_; simpl;
    unfold ExecuteLower, ExecuteUpper, ExecuteAbs, ExecuteSqrt, ExecuteCeil,
      ExecuteFloor, ExecuteRound, ExecuteRnd;
    auto using hoare_ExecutePrint, hoare_ExecutePrintln, hoare_ExecuteLen,
      hoare_ExecuteRead, hoare_ExecuteStackTrace, hoare_transform_string,
      hoare_ExecuteJoin, hoare_ExecuteSplit, hoare_ExecuteRange,
      hoare_ExecutePush, hoare_ExecutePop, hoare_ExecuteInsert,
      hoare_ExecuteRemove, hoare_ExecuteSort, hoare_ExecuteSlice,
      hoare_ExecuteReplace, hoare_ExecuteCapitalize, hoare_ExecuteParseNumber,
      hoare_ExecuteToString;
    apply hoare_ExecuteOperationForNumber; intros d; hoare_go.
Qed.

Lemma hoare_Visit z node : hoare z (Visit libc Calculate fuel node) z.
Proof.
  destruct node; simpl;
    auto using hoare_Visit_ListLiteralNode, hoare_Visit_VariableNode,
      hoare_Visit_BinaryOperationNode, hoare_Visit_UnaryOperationNode,
      hoare_Visit_FunctionCallNode, hoare_Visit_UnnamedFunctionCallNode,
      hoare_Visit_IfNode, hoare_while_loop, hoare_Visit_ForNode,
      hoare_statement_loop, hoare_Visit_GlobalFunctionNode;
    unfold Visit_NumberLiteralNode, Visit_StringLiteralNode,
      Visit_NilLiteralNode, Visit_FunctionImplementationNode,
      Visit_BreakNode, Visit_ContinueNode, Visit_ReturnNode; hoare_go.
Qed.

End HoareVisit.

(** Every run of the evaluator keeps the invariant. *)
Lemma hoare_Calculate_all fuel : ∀ node z, hoare z (Calculate libc fuel node) z.
Proof.
  induction fuel as [|fuel IH]; intros node z; simpl.
  - apply hoare_out_of_fuel.
  - now apply hoare_Visit.
Qed.

End Hoare.

(** ** Scope balance (C3) *)



(** ** The output only grows (C9) *)

Lemma extends_output_hoare libc fuel node :
  hoare (λ _, extends_output) extends_output 0 (Calculate libc fuel node) 0.
Proof.
  apply hoare_Calculate_all; unfold extends_output; try easy.
  intros _ v0 v v' [s Hs] (_ & _ & [s' Hs']).
  exists (s +:+ s'). now rewrite Hs', Hs, append_assoc.
Qed.

Lemma output_grows libc fuel node v :
  match Calculate libc fuel node v with
  | Normal _ v' | Thrown _ v' => extends_output v v'
  | Undefined | OutOfFuel => True
  end.
Proof.
  apply (extends_output_hoare libc fuel node v v).
  exists "". now rewrite append_empty_r.
Qed.

(** ** The claims *)

Import ast.

(** *** C1: the operators [and] and [or] *)

(** [Visit(BinaryOperationNode&)] has no case for [kLogicalAnd] and
    [kLogicalOr]: both operands are evaluated and nothing else is done. *)
Lemma logical_operator_is_sequencing libc Calculate lhs_ rhs_ :
  Visit_BinaryOperationNode libc Calculate kLogicalAnd lhs_ rhs_
  = (Calculate lhs_;; lhs ← gets result_;
     Calculate rhs_;; rhs ← gets result_; mret tt)
  ∧ Visit_BinaryOperationNode libc Calculate kLogicalOr lhs_ rhs_
    = (Calculate lhs_;; lhs ← gets result_;
       Calculate rhs_;; rhs ← gets result_; mret tt).
Proof. split; reflexivity. Qed.

(** So the visitor is left as the right operand left it, with the raw value
    of the right operand in [result_]. *)
Lemma logical_operator_result libc fuel operation_ lhs_ rhs_ v v1 v2 :
  operation_ = kLogicalAnd ∨ operation_ = kLogicalOr →
  Calculate libc fuel lhs_ v = Normal tt v1 →
  Calculate libc fuel rhs_ v1 = Normal tt v2 →
  Calculate libc (S fuel) (BinaryOperationNode operation_ lhs_ rhs_) v
  = Normal tt v2.
Proof.
  intros [-> | ->] H1 H2; simpl;
    unfold and_then, M_then, gets, mret, M_ret; now rewrite H1, H2.
Qed.

(** C1 (the code departs from the claim): [2 and 3] leaves the Number 3 in
    the result register and [0 or 7] the Number 7, the raw value of the right
    operand in both cases, where the boolean coercion of the operation is
    true and the claim promises the Number 1; [print(2 and 3)] writes 3. *)
Theorem logical_operators_leave_right_operand (libc : Platform) :
  result_ <$> final (run libc 3 [binary kLogicalAnd (number 2) (number 3)])
  = Some (Double 3)
  ∧ result_ <$> final (run libc 3 [binary kLogicalOr (number 0) (number 7)])
    = Some (Double 7)
  ∧ printed (run libc 4 [print (binary kLogicalAnd (number 2) (number 3))])
    = Some "3".
Proof. repeat split; vm_compute; reflexivity. Qed.

(** *** C2: [break], [continue] and [return] in loops *)

(** What the [while] loop and the list branch of the [for] loop do after a
    round does not tell [break] from [continue]: both flags go back to
    [kDefault] and the next round begins. *)
Lemma break_is_treated_as_continue (v : EvalVisitor) :
  control_flow_ v = kBreakFlow →
  after_body v = Normal tt (set_control_flow_ kDefault v)
  ∧ after_body (set_control_flow_ kContinueFlow v)
    = Normal tt (set_control_flow_ kDefault v).
Proof.
  intros H. unfold after_body, and_then, M_then, gets, modify. simpl.
  rewrite H. split; reflexivity.
Qed.

(** C2 (the code departs from the claim): after [break] the [while] loop
    evaluates its condition again and goes on until the condition fails, so
    [i = 0; while i < 3: i = i + 1; break] ends with [i] at 3; a [for] loop
    over a list or a string goes on to the next element after [break]; in
    the string branch [continue] goes on with the next statement of the same
    round; and a [return] in a [while] loop does not leave the loop, which
    runs on while its condition holds. *)
Theorem loops_run_on_after_break (libc : Platform) :
  printed (run libc 20
    [ assign "i" (number 0);
      WhileNode (binary kLess (var "i") (number 3))
        [ assign "i" (binary kPlus (var "i") (number 1)); BreakNode ];
      print (var "i") ]) = Some "3"
  ∧ printed (run libc 20
      [ ForNode "x" (ListLiteralNode [number 1; number 2; number 3])
          [ print (var "x"); BreakNode ] ]) = Some "123"
  ∧ printed (run libc 20
      [ ForNode "c" (text "abc") [ print (var "c"); BreakNode ] ])
    = Some "abc"
  ∧ printed (run libc 20
      [ ForNode "c" (text "ab") [ ContinueNode; print (var "c") ] ])
    = Some "ab"
  ∧ printed (run libc 20
      [ assign "i" (number 0);
        WhileNode (binary kLess (var "i") (number 3))
          [ assign "i" (binary kPlus (var "i") (number 1));
            ReturnNode (var "i") ];
        print (var "i") ]) = Some "3".
Proof. repeat split; vm_compute; reflexivity. Qed.

(** *** C4: the control-flow flag after a call *)

(** A named call always resets the flag. *)
Lemma named_call_resets_control_flow libc fuel function_name_ args_ v v' :
  Calculate libc (S fuel) (FunctionCallNode function_name_ args_) v
  = Normal tt v' →
  control_flow_ v' = kDefault.
Proof.
  simpl. unfold Visit_FunctionCallNode.
  set (rec := Calculate libc fuel).
  unfold and_then, M_then, gets, reads, throw, modify, PushScope, PopScope,
    mret, M_ret.
  destruct (IsFunctionName v function_name_); simpl; [|discriminate].
  destruct (FindVariable v function_name_) as [variable|]; [|discriminate].
  destruct (get_FunctionPtr variable) as [function| | |]; try discriminate.
  destruct (negb _); [discriminate|].
  destruct (bind_arguments rec (arg_names function) args_ 0 (push_scope v))
    as [[] v1| | |]; try discriminate.
  destruct (statement_loop rec is_return (body function) v1)
    as [[] v2| | |]; try discriminate.
  destruct (is_return (control_flow_ v2)); intros [= <-]; reflexivity.
Qed.

(** C4 (the code departs from the claim): an unnamed call resets the flag
    only when it is [kReturn].  Calling a function whose body is [break] (or
    [continue]) through [UnnamedFunctionCallNode] completes without an error
    and leaves the flag at [kBreak] (or [kContinue]). *)
Theorem unnamed_call_keeps_break_flag (libc : Platform) :
  control_flow_ <$> final (run libc 5
    [ UnnamedFunctionCallNode (function 0 [] [BreakNode]) [] ])
  = Some kBreakFlow
  ∧ control_flow_ <$> final (run libc 5
      [ UnnamedFunctionCallNode (function 0 [] [ContinueNode]) [] ])
    = Some kContinueFlow.
Proof. split; vm_compute; reflexivity. Qed.

(** *** C5: unary operations *)

(** [Visit(UnaryOperationNode&)] evaluates the operand and then calls a
    helper that evaluates it again. *)
Lemma unary_operation_evaluates_twice Calculate arg_ :
  Visit_UnaryOperationNode Calculate kLogicalNot arg_
  = (Calculate arg_;; CalculateLogicalNot Calculate arg_)
  ∧ CalculateLogicalNot Calculate arg_
    = (Calculate arg_;;
       result ← gets result_;
       b ← reads (λ this, GetBool this result);
       modify (set_result_ (Double (cxx.of_bool (negb b))))).
Proof. split; reflexivity. Qed.

(** C5 (the code departs from the claim): the operand of a unary operation
    is evaluated twice, so its side effects occur twice: [not print("x")]
    writes [xx], [-print(1)] writes [11], and [not push(l, 0)] appends two
    elements to the empty list [l]. *)
Theorem unary_operand_evaluated_twice (libc : Platform) :
  printed (run libc 5 [ UnaryOperationNode kLogicalNot (print (text "x")) ])
  = Some "xx"
  ∧ printed (run libc 5 [ UnaryOperationNode kMinus (print (number 1)) ])
    = Some "11"
  ∧ printed (run libc 9
      [ assign "l" (ListLiteralNode []);
        UnaryOperationNode kLogicalNot (call kPush [var "l"; number 0]);
        print (call kLen [var "l"]) ]) = Some "2".
Proof. repeat split; vm_compute; reflexivity. Qed.

(** *** C6: arguments of a named call *)

(** The scope that the loop of [SetVariable] assigns to is the one that the
    loop of [FindVariable] finds first. *)
Lemma find_after_assign scopes name value scopes' :
  assign_from_back scopes name value = Some scopes' →
  find_from_back scopes' name = Some value.
Proof.
  revert scopes'. induction scopes as [|it rest IH]; intros scopes'; simpl.
  - discriminate.
  - destruct (it !! name) eqn:Hit.
    + intros [= <-]. simpl. now rewrite lookup_insert_eq.
    + destruct (assign_from_back rest name value) as [rest'|]; simpl;
        [|discriminate].
      intros [= <-]. simpl. rewrite Hit. now apply IH.
Qed.

(** Once [SetVariable] has bound a parameter, every lookup of its name finds
    the argument, also the lookups made while the next arguments of the same
    call are evaluated. *)
Lemma SetVariable_then_FindVariable name value v v' :
  SetVariable name value v = Normal tt v' →
  FindVariable v' name = Some value.
Proof.
  destruct v as [r sc fn o i cf ss ls rc u].
  unfold SetVariable, and_then, M_then, gets, modify, PushScope, mret, M_ret,
    insert_function_name, undefined, push_scope, FindVariable. simpl.
  destruct sc as [|back rest]; simpl.
  - rewrite lookup_empty. simpl.
    destruct (HoldsFunction value); simpl; intros [= <-]; simpl;
      now rewrite lookup_insert_eq.
  - destruct (back !! name) eqn:Hback; simpl.
    + destruct (HoldsFunction value); simpl; [destruct fn; simpl|];
        try discriminate; intros [= <-]; simpl; now rewrite lookup_insert_eq.
    + destruct (assign_from_back rest name value) as [rest'|] eqn:Hrest; simpl.
      * apply find_after_assign in Hrest.
        destruct (HoldsFunction value); simpl; [destruct fn; simpl|];
          try discriminate; intros [= <-]; simpl; now rewrite Hback.
      * destruct (HoldsFunction value); simpl; [destruct fn; simpl|];
          try discriminate; intros [= <-]; simpl; now rewrite lookup_insert_eq.
Qed.

(** The binding of a parameter goes through [SetVariable] as well, which
    assigns to the nearest scope that already holds the name: a call
    overwrites a variable of the caller that is named like a parameter. *)
Example call_overwrites_callers_variable (libc : Platform) :
  printed (run libc 9
    [ assign "n" (number 5);
      assign "f" (function 0 ["n"] [ReturnNode (var "n")]);
      FunctionCallNode "f" [number 1];
      print (var "n") ]) = Some "1".
Proof. vm_compute; reflexivity. Qed.

(** C6 (the code departs from the claim): the arguments are evaluated after
    [PushScope()], each one after the parameters before it were bound.  With
    [f = function(a, b) return b end function], the call [f(1, a)] in a
    program that never defined [a] evaluates its second argument to the first
    parameter and prints 1; evaluated in the caller's context the argument
    would end the run with [Variable 'a' not found]. *)
Theorem argument_sees_earlier_parameter (libc : Platform) :
  printed (run libc 9
    [ assign "f" (function 0 ["a"; "b"] [ReturnNode (var "b")]);
      print (FunctionCallNode "f" [number 1; var "a"]) ]) = Some "1"
  ∧ run libc 9 [ print (var "a") ]
    = Thrown (runtime_error "Variable 'a' not found") (EvalVisitor_new "" "").
Proof. split; vm_compute; reflexivity. Qed.

(** *** C7: comparing two lists *)

(** Two lists are compared through [CalculateCompare], where the function
    object is applied to the two [std::shared_ptr<List>]: the answer is the
    order of the addresses of the two list objects.  The sizes of the lists
    are never read. *)
Lemma list_comparisons_compare_addresses (l1 l2 : ptr) (v : EvalVisitor) :
  CalculateLess (ListPtr l1) (ListPtr l2) v
  = Normal tt (set_result_ (Double (cxx.of_bool (l1 <? l2))) v)
  ∧ CalculateLessOrEqual (ListPtr l1) (ListPtr l2) v
    = Normal tt (set_result_ (Double (cxx.of_bool (l1 <=? l2))) v)
  ∧ CalculateGreater (ListPtr l1) (ListPtr l2) v
    = Normal tt (set_result_ (Double (cxx.of_bool (l2 <? l1))) v)
  ∧ CalculateGreaterOrEqual (ListPtr l1) (ListPtr l2) v
    = Normal tt (set_result_ (Double (cxx.of_bool (l2 <=? l1))) v).
Proof. repeat split; reflexivity. Qed.

(** For two distinct list objects, whatever they hold, [<=] fails in one of
    the two directions. *)
Lemma distinct_lists_not_mutually_less_or_equal (l1 l2 : ptr) (v : EvalVisitor) :
  l1 ≠ l2 →
  CalculateLessOrEqual (ListPtr l1) (ListPtr l2) v
  = Normal tt (set_result_ (Double 0) v)
  ∨ CalculateLessOrEqual (ListPtr l2) (ListPtr l1) v
    = Normal tt (set_result_ (Double 0) v).
Proof.
  intros Hne.
  destruct (list_comparisons_compare_addresses l1 l2 v) as (_ & H12 & _).
  destruct (list_comparisons_compare_addresses l2 l1 v) as (_ & H21 & _).
  rewrite H12, H21.
  destruct (Nat.leb_spec l1 l2), (Nat.leb_spec l2 l1); auto; lia.
Qed.

(** C7 (the code departs from the claim): with [a = [1]] and [b = [1]], two
    lists of one element each, the claim makes both [a <= b] and [b <= a]
    the Number 1; the run prints 1 for the first and 0 for the second,
    because [b] is the object at the higher address. *)
Theorem list_comparison_ignores_sizes (libc : Platform) :
  printed (run libc 9
    [ assign "a" (ListLiteralNode [number 1]);
      assign "b" (ListLiteralNode [number 1]);
      print (binary kLessOrEqual (var "a") (var "b"));
      print (binary kLessOrEqual (var "b") (var "a")) ]) = Some "10".
Proof. vm_compute; reflexivity. Qed.

(** *** C8: a list times a number *)

Lemma repeat_elements_spec {A} (elements : list A) (new_size : nat) :
  elements ≠ [] ∨ new_size = 0 →
  ∃ buffer, repeat_elements elements new_size = Some buffer
            ∧ length buffer = new_size
            ∧ ∀ i, i < new_size →
                   buffer !! i = elements !! (i `mod` length elements).
Proof.
  intros Hok. unfold repeat_elements.
  destruct (mapM (λ i, elements !! (i `mod` length elements)) (seq 0 new_size))
    as [buffer|] eqn:E.
  - exists buffer. split; [reflexivity|].
    pose proof (length_mapM _ _ _ E) as Hlen. rewrite length_seq in Hlen.
    split; [congruence|]. intros i Hi.
    apply mapM_Some_1 in E.
    destruct (Forall2_lookup_l _ _ _ i i E) as (y & Hy & Hf).
    { now apply lookup_seq_lt. }
    now rewrite Hy, Hf.
  - exfalso. apply mapM_None_1, Exists_exists in E.
    destruct E as (i & Hin & Hnone).
    apply elem_of_seq in Hin. apply lookup_ge_None in Hnone.
    destruct Hok as [Hne | ->]; [|lia].
    assert (length elements ≠ 0) by (destruct elements; simpl; congruence).
    pose proof (Nat.mod_upper_bound i (length elements)). lia.
Qed.

(** What [CalculateMult] does with a list and a number that is not
    negative: the new list has [count * len] elements, where [count] is the
    number converted to [std::size_t], that is, truncated on its own. *)
Lemma list_times_number (p : ptr) (n : float) (v : EvalVisitor)
    (elements : list ValueType) (count : nat) :
  list_store v !! p = Some elements →
  (n <? 0)%float = false →
  cxx.to_size_t n = Some count →
  (Z.of_nat count * Z.of_nat (length elements) < 2 ^ 64)%Z →
  ∃ buffer,
    CalculateMult (ListPtr p) (Double n) v
    = Normal tt (set_result_ (ListPtr (length (list_store v)))
                   (set_list_store (list_store v ++ [buffer]) v))
    ∧ length buffer = count * length elements
    ∧ ∀ i, i < length buffer →
           buffer !! i = elements !! (i `mod` length elements).
Proof.
  intros Hp Hn Hcount Hsmall.
  assert (Z.to_nat (cxx.as_size_t (Z.of_nat count * Z.of_nat (length elements)))
          = count * length elements) as Hsize.
  { unfold cxx.as_size_t. rewrite Z.mod_small.
    - now rewrite <- Nat2Z.inj_mul, Nat2Z.id.
    - split; [apply Z.mul_nonneg_nonneg; lia | exact Hsmall]. }
  destruct (repeat_elements_spec elements (count * length elements))
    as (buffer & Hbuffer & Hlen & Hnth).
  { destruct elements; [right; simpl; lia | left; congruence]. }
  exists buffer. split; [|split; [exact Hlen | now rewrite Hlen]].
  unfold CalculateMult, HoldsNumber, HoldsList. cbn [andb].
  unfold reads, get_elements, list_at, get_ListPtr, get_double, defined,
    make_shared_List, modify, mret, M_ret.
  unfold and_then, M_then, Result_then.
  cbv beta iota. rewrite Hn, Hp, Hcount. cbv beta iota.
  rewrite Hsize, Hbuffer. reflexivity.
Qed.

(** C8 (the code departs from the claim): [[1, 2, 3, 4] * 0.5] is the empty
    list, since 0.5 is truncated to 0 before it is multiplied by the length,
    where the claim promises floor(0.5 * 4) = 2 elements; [[1, 2] * 2.5] has
    4 elements where the claim promises 5.  The string branch of the same
    function multiplies first: ["abcd" * 0.5] is ["ab"]. *)
Theorem list_times_fraction_truncates_first (libc : Platform) :
  printed (run libc 9
    [ print (binary kMultiply
               (ListLiteralNode [number 1; number 2; number 3; number 4])
               (number 0.5)) ]) = Some "[]"
  ∧ printed (run libc 9
      [ print (binary kMultiply (ListLiteralNode [number 1; number 2])
                                (number 2.5)) ]) = Some "[1, 2, 1, 2]"
  ∧ printed (run libc 9
      [ print (binary kMultiply (text "abcd") (number 0.5)) ]) = Some "ab".
Proof. repeat split; vm_compute; reflexivity. Qed.

(** *** C10: comparing [nil] with [nil] *)

(** C10: two Nil values are the same alternative of the variant, so
    [CalculateCompare] applies the function object to two [std::monostate]s:
    [==] leaves the Number 1 and [!=] the Number 0, both at the level of the
    operators and for the expressions [nil == nil] and [nil != nil]; the
    Number 1 is true under the boolean coercion. *)
Theorem nil_equals_nil (libc : Platform) (v : EvalVisitor) :
  CalculateEqual Monostate Monostate v = Normal tt (set_result_ (Double 1) v)
  ∧ CalculateNotEqual Monostate Monostate v
    = Normal tt (set_result_ (Double 0) v)
  ∧ (∀ fuel,
       Calculate libc (S (S fuel)) (binary kEqual NilLiteralNode NilLiteralNode) v
       = Normal tt (set_result_ (Double 1) v))
  ∧ (∀ fuel,
       Calculate libc (S (S fuel)) (binary kNotEqual NilLiteralNode NilLiteralNode) v
       = Normal tt (set_result_ (Double 0) v))
  ∧ (∀ this, GetBool this (Double 1) = Value true).
Proof. repeat split; reflexivity. Qed.

(** *** C3: the scope stack *)


(** The exit that the amended claim leaves aside: a [return] in the body of
    a [for] loop over a string leaves [Visit(ForNode&)] with the scope of the
    round still on the stack. *)
Example return_in_string_for_leaves_scope (libc : Platform) :
  (λ v, (depth v, unpopped v)) <$> final (run libc 5
    [ ForNode "c" (text "ab") [ReturnNode (number 1)] ]) = Some (1, 1).
Proof. vm_compute; reflexivity. Qed.

(** A runtime error pops nothing: the exception leaves with the scopes of
    the constructs it crosses still on the stack. *)
Example error_leaves_scopes :
  run sample_platform 5 [ IfNode [var "x"] [] (number 1) ]
  = Thrown (runtime_error "Variable 'x' not found")
           (push_scope (set_result_ (Double 1) (EvalVisitor_new "" ""))).
Proof. vm_compute; reflexivity. Qed.



(** *** C9: the entry point *)

(** The code that [interpret] collects from its input: the lines, each
    with a newline after it. *)
Lemma append_cons (c : ascii) (a b : string) :
  String c a +:+ b = String c (a +:+ b).
Proof. reflexivity. Qed.

Lemma append_nil_l (b : string) : "" +:+ b = b.
Proof. reflexivity. Qed.

Lemma getline_with_final_newline (s : string) :
  s ≠ "" →
  String.length (snd (cxx.getline s)) < String.length s
  ∧ fst (cxx.getline s) +:+ cxx.newline
      +:+ with_final_newline (snd (cxx.getline s))
    = with_final_newline s.
Proof.
  induction s as [|c s IH]; [easy|]. intros _.
  cbn [cxx.getline].
  destruct (decide (c = ascii_of_nat 10)) as [->|Hc].
  - cbn [fst snd String.length]. split; [lia|].
    rewrite append_nil_l. unfold cxx.newline. rewrite append_cons, append_nil_l.
    destruct s; [reflexivity|].
    cbn [with_final_newline]. reflexivity.
  - destruct s as [|c' s'].
    + cbn [cxx.getline fst snd String.length with_final_newline]. split; [lia|].
      rewrite append_cons, append_nil_l, append_empty_r.
      now destruct (decide (c = ascii_of_nat 10)).
    + destruct IH as [Hlen Heq]; [easy|].
      destruct (cxx.getline (String c' s')) as [line rest].
      cbn [fst snd] in *. cbn [String.length] in *. split; [lia|].
      rewrite append_cons, Heq. reflexivity.
Qed.

Lemma read_code_with_final_newline (rounds : nat) :
  ∀ input, String.length input < rounds →
           read_code rounds input = with_final_newline input.
Proof.
  induction rounds as [|rounds IH]; intros input Hlen; [lia|].
  destruct input as [|c input]; [reflexivity|].
  cbn [read_code].
  destruct (getline_with_final_newline (String c input)) as [Hrest Heq]; [easy|].
  destruct (cxx.getline (String c input)) as [line rest].
  cbn [fst snd] in *. rewrite IH by lia. exact Heq.
Qed.

(** C9: the parser is given the lines of the input, each with its newline.
    [interpret] returns [false] exactly when the parser or the evaluator
    throws, and then the output stream holds what the program had written
    until then, then the message of the exception, then one newline; on a
    run without an error it returns [true] and the stream holds what the
    program wrote.  What the program wrote comes after what the stream
    held before.  (A run that is undefined, or has not come to an end when
    the fuel is used up, has no result.) *)
Theorem interpret_fails_exactly_on_error
    (ParseCode : string → exception + list BaseNode) (libc : Platform)
    (fuel : nat) (input output cin : string) :
  match ParseCode (with_final_newline input) with
  | inl e =>
      interpret ParseCode libc fuel input output cin
      = Returned false (output +:+ what libc e +:+ cxx.newline)
  | inr statements =>
      match Calculate libc fuel (RootNode statements)
                      (EvalVisitor_new output cin) with
      | Normal _ v =>
          interpret ParseCode libc fuel input output cin
          = Returned true (out_ v)
          ∧ ∃ written, out_ v = output +:+ written
      | Thrown e v =>
          interpret ParseCode libc fuel input output cin
          = Returned false (out_ v +:+ what libc e +:+ cxx.newline)
          ∧ ∃ written, out_ v = output +:+ written
      | Undefined =>
          interpret ParseCode libc fuel input output cin = RunUndefined
      | OutOfFuel =>
          interpret ParseCode libc fuel input output cin = RunOutOfFuel
      end
  end.
Proof.
  unfold interpret. rewrite read_code_with_final_newline by lia.
  destruct (ParseCode _) as [e|statements]; [reflexivity|].
  pose proof (output_grows libc fuel (RootNode statements)
                (EvalVisitor_new output cin)) as Hgrows.
  destruct (Calculate libc fuel (RootNode statements) _) as [[] v|e v| |];
    try reflexivity; (split; [reflexivity|exact Hgrows]).
Qed.

(** The three ways a call returns, on a parser that knows one program with
    an error after its first statement and one without. *)
Example interpret_examples :
  let known :=
    [ ("print(1)" +:+ cxx.newline +:+ "x" +:+ cxx.newline,
       [print (number 1); var "x"]);
      ("print(2)" +:+ cxx.newline, [print (number 2)]) ] in
  interpret (parser_of known) sample_platform 9
            ("print(1)" +:+ cxx.newline +:+ "x") "" ""
  = Returned false ("1Variable 'x' not found" +:+ cxx.newline)
  ∧ interpret (parser_of known) sample_platform 9 "print(2)" "" ""
    = Returned true "2"
  ∧ interpret (parser_of known) sample_platform 9 "1 +" "" ""
    = Returned false ("Incorrect expression" +:+ cxx.newline).
Proof. repeat split; vm_compute; reflexivity. Qed.

(** * Further properties of the evaluator *)

(** ** Strings of the library *)

Lemma length_append (a b : string) :
  String.length (a +:+ b) = String.length a + String.length b.
Proof.
  induction a as [|c a IH]; [reflexivity|].
  rewrite append_cons. cbn [String.length]. now rewrite IH.
Qed.

Lemma length_substring (s : string) :
  ∀ n m, String.length (substring n m s) = Nat.min m (String.length s - n).
Proof.
  induction s as [|c s IH]; intros n m.
  - destruct n, m; reflexivity.
  - destruct n as [|n]; [|exact (IH n m)].
    destruct m as [|m]; [reflexivity|].
    cbn [substring String.length]. rewrite (IH 0 m).
    rewrite Nat.sub_0_r. cbn [Nat.sub]. lia.
Qed.

Lemma substring_whole (s : string) : substring 0 (String.length s) s = s.
Proof. induction s as [|c s IH]; simpl; [reflexivity|now rewrite IH]. Qed.

Lemma substring_append_l (a b : string) :
  substring 0 (String.length a) (a +:+ b) = a.
Proof.
  induction a as [|c a IH]; simpl.
  - now destruct b.
  - change (String c (substring 0 (String.length a) (a +:+ b)) = String c a).
    now rewrite IH.
Qed.

Lemma substring_append_r (a b : string) (n : nat) :
  substring (String.length a) n (a +:+ b) = substring 0 n b.
Proof.
  induction a as [|c a IH]; simpl; [reflexivity|].
  change (substring (String.length a) n (a +:+ b) = substring 0 n b).
  exact IH.
Qed.

Lemma substring_add (s : string) :
  ∀ a m n, substring a (m + n) s = substring a m s +:+ substring (a + m) n s.
Proof.
  induction s as [|c s IH]; intros a m n.
  - destruct a, m, n; reflexivity.
  - destruct a as [|a]; [|exact (IH a m n)].
    destruct m as [|m]; [reflexivity|].
    cbn [substring Nat.add]. rewrite (IH 0 m n). reflexivity.
Qed.

Lemma prefix_append (a b : string) : String.prefix a (a +:+ b) = true.
Proof. apply prefix_correct, substring_append_l. Qed.

Lemma ends_with_append (a b : string) : cxx.ends_with (a +:+ b) b = true.
Proof.
  unfold cxx.ends_with. rewrite length_append.
  apply andb_true_intro. split.
  - apply Nat.leb_le. lia.
  - apply bool_decide_eq_true.
    replace (String.length a + String.length b - String.length b)
      with (String.length a) by lia.
    now rewrite substring_append_r, substring_whole.
Qed.

Lemma index_ge (pattern s : string) :
  ∀ n m, String.index n pattern s = Some m → n ≤ m.
Proof.
  induction s as [|c s IH]; intros n m; cbn [String.index].
  - destruct n; [|discriminate]. lia.
  - destruct n as [|n]; [lia|].
    destruct (String.index n pattern s) as [k|] eqn:Hk; [|discriminate].
    intros [= <-]. apply IH in Hk. lia.
Qed.

(** Where [find] finds a pattern that is not empty. *)
Lemma find_bounds (s pattern : string) (start e : nat) :
  pattern ≠ "" →
  cxx.find s pattern start = Some e →
  start ≤ e
  ∧ e + String.length pattern ≤ String.length s
  ∧ substring e (String.length pattern) s = pattern.
Proof.
  unfold cxx.find. intros Hne Hfind.
  pose proof (index_ge _ _ _ _ Hfind) as Hge.
  pose proof (index_correct1 _ _ _ _ Hfind) as Hsub.
  repeat split; try assumption.
  pose proof (f_equal String.length Hsub) as Hlen.
  rewrite length_substring in Hlen.
  destruct pattern; [contradiction|]. cbn [String.length] in *. lia.
Qed.

(** The empty pattern is found wherever the search starts. *)
Lemma find_empty_pattern (s : string) :
  ∀ start, start ≤ String.length s → cxx.find s "" start = Some start.
Proof.
  unfold cxx.find.
  induction s as [|c s IH]; intros start Hstart; cbn [String.length] in Hstart.
  - replace start with 0 by lia. reflexivity.
  - destruct start as [|start]; [reflexivity|].
    cbn [String.index]. rewrite IH by lia. reflexivity.
Qed.

(** ** Variables and scopes *)

Lemma find_after_assign_other scopes name other value scopes' :
  other ≠ name →
  assign_from_back scopes name value = Some scopes' →
  find_from_back scopes' other = find_from_back scopes other.
Proof.
  intros Hne. revert scopes'.
  induction scopes as [|it rest IH]; intros scopes'; simpl.
  - discriminate.
  - destruct (it !! name) eqn:Hit.
    + intros [= <-]. simpl. now rewrite lookup_insert_ne.
    + destruct (assign_from_back rest name value) as [rest'|]; simpl;
        [|discriminate].
      intros [= <-]. simpl. now rewrite (IH rest').
Qed.

(** The loop of [SetVariable] finds a scope to assign to exactly when the
    loop of [FindVariable] finds the name. *)
Lemma assign_from_back_None scopes name value :
  assign_from_back scopes name value = None ↔ find_from_back scopes name = None.
Proof.
  induction scopes as [|it rest IH]; simpl; [easy|].
  destruct (it !! name); [easy|].
  destruct (assign_from_back rest name value); simpl; split; try easy.
  - intros H. apply IH in H. discriminate.
  - intros _. now apply IH.
Qed.

Lemma SetVariable_keeps_other_variables name other value v v' :
  other ≠ name →
  SetVariable name value v = Normal tt v' →
  FindVariable v' other = FindVariable v other.
Proof.
  intros Hne.
  destruct v as [r sc fn o i cf ss ls rc u].
  unfold SetVariable, and_then, M_then, gets, modify, PushScope, mret, M_ret,
    insert_function_name, undefined, push_scope, FindVariable. simpl.
  destruct sc as [|back rest]; simpl.
  - rewrite lookup_empty. simpl.
    destruct (HoldsFunction value); simpl; intros [= <-]; simpl;
      now rewrite lookup_insert_ne, lookup_empty.
  - destruct (back !! name) eqn:Hback; simpl.
    + destruct (HoldsFunction value); simpl; [destruct fn; simpl|];
        try discriminate; intros [= <-]; simpl; now rewrite lookup_insert_ne.
    + destruct (assign_from_back rest name value) as [rest'|] eqn:Hrest; simpl.
      * apply (find_after_assign_other _ _ other) in Hrest; [|exact Hne].
        destruct (HoldsFunction value); simpl; [destruct fn; simpl|];
          try discriminate; intros [= <-]; simpl; now rewrite Hrest.
      * destruct (HoldsFunction value); simpl; [destruct fn; simpl|];
          try discriminate; intros [= <-]; simpl; now rewrite lookup_insert_ne.
Qed.

(** [SetVariable] followed by [FindVariable]: the name that was set is found
    with the value it was given, and every other name is found as before. *)
Theorem SetVariable_is_an_update
    (name other : string) (value : ValueType) (v v' : EvalVisitor) :
  SetVariable name value v = Normal tt v' →
  FindVariable v' other
  = if decide (other = name) then Some value else FindVariable v other.
Proof.
  intros Hset. destruct (decide (other = name)) as [->|Hne].
  - eapply SetVariable_then_FindVariable; eauto.
  - eapply SetVariable_keeps_other_variables; eauto.
Qed.

Lemma SetVariable_is_an_update_witness :
  FindVariable
    (final_or_fresh (SetVariable "x" (Double 1) (visitor_after [assign "y" (number 2)])))
    "x" = Some (Double 1)
  ∧ FindVariable
      (final_or_fresh (SetVariable "x" (Double 1) (visitor_after [assign "y" (number 2)])))
      "y" = Some (Double 2)
  ∧ FindVariable
      (final_or_fresh (SetVariable "y" (Double 3) (visitor_after [assign "y" (number 2)])))
      "y" = Some (Double 3).
Proof.
  split; [|split].
  - apply (SetVariable_is_an_update "x" "x" (Double 1)
             (visitor_after [assign "y" (number 2)])).
    vm_compute. reflexivity.
  - apply (SetVariable_is_an_update "x" "y" (Double 1)
             (visitor_after [assign "y" (number 2)])).
    vm_compute. reflexivity.
  - apply (SetVariable_is_an_update "y" "y" (Double 3)
             (visitor_after [assign "y" (number 2)])).
    vm_compute. reflexivity.
Defined.

(** What a block does to a variable that is assigned in it ([PushScope()],
    the assignment, [PopScope()]).  A name that no scope holds is bound in
    the scope of the block and gone after it.  A name that an enclosing scope
    holds is assigned there, and the assignment outlives the block; but
    [function_names_] is as before the block, so a function assigned to such
    a name inside a block is no function name after it. *)
Theorem block_scoping (name : string) (value : ValueType) (v : EvalVisitor) :
  ∃ v', (PushScope;; SetVariable name value;; PopScope) v = Normal tt v'
    ∧ function_names_ v' = function_names_ v
    ∧ match FindVariable v name with
      | None => scopes_ v' = scopes_ v
      | Some _ =>
          FindVariable v' name = Some value
          ∧ (∀ other, other ≠ name → FindVariable v' other = FindVariable v other)
          ∧ depth v' = depth v
      end.
Proof.
  destruct v as [r sc fn o i cf ss ls rc u].
  unfold SetVariable, and_then, M_then, gets, modify, PushScope, PopScope,
    mret, M_ret, insert_function_name, undefined, push_scope, pop_scope,
    FindVariable, depth. simpl.
  rewrite lookup_empty.
  destruct (assign_from_back sc name value) as [sc'|] eqn:Hassign; simpl.
  - destruct (find_from_back sc name) eqn:Hfind.
    2:{ apply (assign_from_back_None sc name value) in Hfind.
        rewrite Hfind in Hassign. discriminate Hassign. }
    destruct (HoldsFunction value); simpl; eexists; (split; [reflexivity|]);
      simpl; (split; [reflexivity|]); (split; [|split]);
      eauto using find_after_assign, find_after_assign_other,
                  assign_from_back_length.
  - apply assign_from_back_None in Hassign. rewrite Hassign.
    destruct (HoldsFunction value); simpl; eexists; (split; [reflexivity|]);
      simpl; split; reflexivity.
Qed.

(** ** Operators *)

(** [(s + t) - t] is [s]: subtracting from a concatenation the string that
    was appended gives back the first string, in a new object; the operands
    are left as they were. *)
Theorem string_sum_minus_suffix (p q : ptr) (s t : string) (v : EvalVisitor) :
  string_store v !! p = Some s →
  string_store v !! q = Some t →
  ∃ v', (CalculateAdd (StringPtr p) (StringPtr q);;
         sum ← gets result_;
         CalculateSub sum (StringPtr q)) v = Normal tt v'
        ∧ get_string v' (result_ v') = Value s
        ∧ string_store v' !! p = Some s ∧ string_store v' !! q = Some t.
Proof.
  intros Hp Hq.
  unfold CalculateAdd, CalculateSub, HoldsNumber, HoldsString. cbn [andb].
  unfold reads, get_string, get_StringPtr, string_at, make_shared_string,
    modify, gets.
  unfold and_then, M_then, Result_then. cbv beta iota.
  rewrite Hp, Hq. cbv beta iota. simpl.
  rewrite lookup_app_r by lia. rewrite Nat.sub_diag. simpl.
  rewrite (lookup_app_l_Some _ _ _ _ Hq). simpl.
  rewrite ends_with_append, length_append.
  replace (String.length s + String.length t - String.length t)
    with (String.length s) by lia.
  unfold cxx.erase. rewrite substring_append_l.
  eexists. split; [reflexivity|]. simpl.
  rewrite lookup_app_r by (rewrite length_app; simpl; lia).
  rewrite length_app. simpl.
  replace (length (string_store v) + 1 - (length (string_store v) + 1)) with 0 by lia.
  split; [reflexivity|].
  split; apply lookup_app_l_Some, lookup_app_l_Some; assumption.
Qed.

Lemma string_sum_minus_suffix_witness :
  ∃ v', (CalculateAdd (StringPtr 0) (StringPtr 1);;
         sum ← gets result_;
         CalculateSub sum (StringPtr 1)) (visitor_with_strings ["ab"; "c"])
        = Normal tt v'
        ∧ get_string v' (result_ v') = Value "ab"
        ∧ string_store v' !! 0 = Some "ab" ∧ string_store v' !! 1 = Some "c".
Proof.
  apply (string_sum_minus_suffix 0 1 "ab" "c" (visitor_with_strings ["ab"; "c"]));
    reflexivity.
Defined.

(** Two values that hold different alternatives of the variant compare
    as 0 under every one of the six comparison operators, [!=] included. *)
Theorem comparison_of_different_types_is_zero
    (lhs rhs : ValueType) (v : EvalVisitor) :
  alternative lhs ≠ alternative rhs →
  ∀ compare,
    compare ∈ [CalculateEqual; CalculateNotEqual; CalculateLess;
               CalculateLessOrEqual; CalculateGreater; CalculateGreaterOrEqual] →
    compare lhs rhs v = Normal tt (set_result_ (Double 0) v).
Proof.
  intros Hne compare Hin.
  repeat (apply elem_of_cons in Hin; destruct Hin as [->|Hin]);
    try (now apply elem_of_nil in Hin);
    destruct lhs, rhs; simpl in Hne; try congruence; reflexivity.
Qed.

Lemma comparison_of_different_types_is_zero_witness :
  CalculateNotEqual (Double 1) Monostate (EvalVisitor_new "" "")
  = Normal tt (set_result_ (Double 0) (EvalVisitor_new "" "")).
Proof.
  apply (comparison_of_different_types_is_zero
           (Double 1) Monostate (EvalVisitor_new "" "")).
  - simpl. lia.
  - apply list_elem_of_further, list_elem_of_here.
Defined.

(** Two strings are equal when their characters are, whichever objects
    hold them, and [!=] is the opposite of [==] on them. *)
Theorem string_equality_compares_contents
    (p q : ptr) (a b : string) (v : EvalVisitor) :
  string_store v !! p = Some a →
  string_store v !! q = Some b →
  CalculateEqual (StringPtr p) (StringPtr q) v
  = Normal tt (set_result_ (Double (if decide (a = b) then 1 else 0)) v)
  ∧ CalculateNotEqual (StringPtr p) (StringPtr q) v
    = Normal tt (set_result_ (Double (if decide (a = b) then 0 else 1)) v).
Proof.
  intros Hp Hq.
  unfold CalculateEqual, CalculateNotEqual, compare_strings, HoldsString.
  cbn [andb].
  unfold reads, get_string, get_StringPtr, string_at, modify.
  unfold and_then, M_then, Result_then. cbv beta iota.
  rewrite Hp, Hq. cbv beta iota.
  destruct (String.eqb_spec a b) as [Heq|Hne];
    destruct (decide (a = b)); try contradiction; split; reflexivity.
Qed.

Lemma string_equality_compares_contents_witness :
  CalculateEqual (StringPtr 0) (StringPtr 1) (visitor_with_strings ["ab"; "ab"])
  = Normal tt (set_result_ (Double (if decide ("ab" = "ab") then 1 else 0))
                 (visitor_with_strings ["ab"; "ab"]))
  ∧ CalculateNotEqual (StringPtr 0) (StringPtr 1) (visitor_with_strings ["ab"; "ab"])
    = Normal tt (set_result_ (Double (if decide ("ab" = "ab") then 0 else 1))
                   (visitor_with_strings ["ab"; "ab"])).
Proof.
  apply (string_equality_compares_contents
           0 1 "ab" "ab" (visitor_with_strings ["ab"; "ab"])); reflexivity.
Defined.

(** Two lists are equal only when they are the same object: a list equals
    itself, and two list objects are unequal whatever they hold. *)
Theorem list_equality_compares_identity (p q : ptr) (v : EvalVisitor) :
  CalculateEqual (ListPtr p) (ListPtr q) v
  = Normal tt (set_result_ (Double (if decide (p = q) then 1 else 0)) v)
  ∧ CalculateNotEqual (ListPtr p) (ListPtr q) v
    = Normal tt (set_result_ (Double (if decide (p = q) then 0 else 1)) v).
Proof.
  unfold CalculateEqual, CalculateNotEqual, CalculateCompare, HoldsString.
  cbn [andb]. unfold modify. simpl.
  destruct (Nat.eqb_spec p q) as [Heq|Hne];
    destruct (decide (p = q)); try contradiction; split; reflexivity.
Qed.

(** [x op= e] is [x = x op e]: for each of the six compound assignments
    the evaluator does what it does for the assignment of the operation. *)
Theorem compound_assignment_is_assignment_of_the_operation
    (libc : Platform) (fuel : nat) (lhs_ rhs_ : BaseNode) (v : EvalVisitor) :
  ∀ compound operation,
    (compound, operation) ∈
      [(kAddAssign, kPlus); (kSubAssign, kMinus); (kMultAssign, kMultiply);
       (kDivAssign, kDivide); (kModAssign, kModulo); (kPowAssign, kPower)] →
    Calculate libc (S (S fuel)) (binary compound lhs_ rhs_) v
    = Calculate libc (S (S (S fuel)))
        (binary kAssign lhs_ (binary operation lhs_ rhs_)) v.
Proof.
  intros compound operation Hin. unfold binary.
  repeat (apply elem_of_cons in Hin; destruct Hin as [[= -> ->]|Hin]);
    try (now apply elem_of_nil in Hin);
    cbn [Calculate Visit Visit_BinaryOperationNode];
    unfold CalculateAddAssign, CalculateSubAssign, CalculateMultAssign,
      CalculateDivAssign, CalculateModAssign, CalculatePowAssign,
      compound_assign, CalculateAssign;
    cbn [Calculate Visit Visit_BinaryOperationNode];
    set (rec := Visit libc (Calculate libc fuel) fuel);
    unfold and_then, M_then;
    destruct (rec lhs_ v) as [[] v1| | |]; try reflexivity;
    unfold gets;
    destruct (rec rhs_ v1) as [[] v2| | |]; reflexivity.
Qed.

Lemma compound_assignment_is_assignment_of_the_operation_witness :
  Calculate sample_platform 5 (binary kAddAssign (var "x") (number 1))
            (visitor_after [assign "x" (number 2)])
  = Calculate sample_platform 6
      (binary kAssign (var "x") (binary kPlus (var "x") (number 1)))
      (visitor_after [assign "x" (number 2)]).
Proof.
  apply (compound_assignment_is_assignment_of_the_operation
           sample_platform 3 (var "x") (number 1)
           (visitor_after [assign "x" (number 2)]) kAddAssign kPlus).
  apply list_elem_of_here.
Defined.

(** ** Lists *)

(** [List::GetElement] on an index of [int64_t]: the element at the index
    when the index is from 0 up to the size, the exception otherwise.  A
    negative index always throws: the comparison with [elements.size()]
    converts it to a large [std::size_t], so the branch that would count
    it from the end is never reached. *)
Theorem GetElement_bounds (elements : list ValueType) (index : Z) :
  (- 2 ^ 63 ≤ index < 2 ^ 63)%Z →
  (Z.of_nat (length elements) < 2 ^ 63)%Z →
  if decide (0 ≤ index < Z.of_nat (length elements))%Z
  then ∃ element, elements !! Z.to_nat index = Some element
                  ∧ GetElement elements index = Value element
  else GetElement elements index
       = Raise (runtime_error
                  "Index is out of range when getting element from list").
Proof.
  intros Hindex Hsize. unfold GetElement, cxx.as_size_t.
  destruct (decide (0 ≤ index < Z.of_nat (length elements))%Z) as [Hin|Hout].
  - rewrite Z.mod_small by lia.
    destruct (decide _) as [Hbad|_]; [lia|].
    destruct (decide (index < 0)%Z); [lia|].
    destruct (lookup_lt_is_Some_2 elements (Z.to_nat index)) as [element He];
      [lia|].
    exists element. now rewrite He.
  - destruct (decide _) as [_|Hgood]; [reflexivity|].
    exfalso. apply Hgood.
    destruct (Z_lt_le_dec index 0) as [Hneg|Hpos].
    + left. replace (index mod 2 ^ 64)%Z with (index + 2 ^ 64)%Z; [lia|].
      apply Z.mod_unique with (q := (-1)%Z); lia.
    + left. rewrite Z.mod_small by lia. lia.
Qed.

Lemma GetElement_bounds_witness :
  if decide (0 ≤ -1 < Z.of_nat (length [Double 1; Double 2]))%Z
  then ∃ element, [Double 1; Double 2] !! Z.to_nat (-1) = Some element
                  ∧ GetElement [Double 1; Double 2] (-1) = Value element
  else GetElement [Double 1; Double 2] (-1)
       = Raise (runtime_error
                  "Index is out of range when getting element from list").
Proof. apply (GetElement_bounds [Double 1; Double 2] (-1)); simpl; lia. Defined.

Lemma at_int64_in_range (elements : list ValueType) (i : Z) :
  (0 ≤ i < Z.of_nat (length elements))%Z →
  (Z.of_nat (length elements) < 2 ^ 63)%Z →
  ∃ element, elements !! Z.to_nat i = Some element
             ∧ at_int64 elements i = Value element.
Proof.
  intros Hi Hsize. unfold at_int64, cxx.as_size_t.
  rewrite Z.mod_small by lia.
  destruct (decide _) as [_|Hbad]; [|lia].
  destruct (lookup_lt_is_Some_2 elements (Z.to_nat i)) as [element He]; [lia|].
  exists element. now rewrite He.
Qed.

(** The loop of [GetSublist] with step 1 from [i] up to [end_]: the
    elements at [i], ..., [end_], both included. *)
Lemma sublist_from_up_to (count : nat) :
  ∀ (rounds : nat) (elements : list ValueType) (i end_ : Z),
    (0 ≤ i)%Z → (end_ < Z.of_nat (length elements))%Z →
    (Z.of_nat (length elements) < 2 ^ 63)%Z →
    (end_ - i + 1 = Z.of_nat (S count))%Z →
    S count ≤ rounds →
    sublist_from rounds elements i end_ 1
    = Value (take (S count) (drop (Z.to_nat i) elements)).
Proof.
  induction count as [|count IH]; intros rounds elements i end_ Hi He Hsize Hn Hr;
    (destruct rounds as [|rounds]; [lia|]); simpl sublist_from;
    destruct (at_int64_in_range elements i) as (element & Hlook & ->);
    try lia; unfold and_then, Result_then; cbv beta iota.
  - destruct (decide _) as [_|Hbad]; [|lia].
    now rewrite (drop_S _ _ _ Hlook).
  - destruct (decide _) as [Hbad|_]; [lia|].
    unfold int64. destruct (decide _) as [_|Hbad]; [|lia].
    destruct (decide (i + 1 = i)%Z) as [Hsame|_]; [lia|].
    rewrite (IH rounds elements (i + 1)%Z end_) by lia.
    rewrite (drop_S _ _ _ Hlook).
    replace (Z.to_nat (i + 1)) with (S (Z.to_nat i)) by lia.
    reflexivity.
Qed.

(** The slice [l[a:b]] of a list, for [0 <= a < b <= len(l)]: [ExecuteSlice]
    calls [GetSublist(a, b - 1)], which gives the [b - a] elements from
    position [a] on. *)
Theorem list_slice (fuel : nat) (elements : list ValueType) (a b : Z) :
  (0 ≤ a < b)%Z →
  (b ≤ Z.of_nat (length elements))%Z →
  (Z.of_nat (length elements) < 2 ^ 63)%Z →
  Z.to_nat (b - a) ≤ fuel →
  GetSublist fuel elements a (b - 1) 1
  = Value (take (Z.to_nat (b - a)) (drop (Z.to_nat a) elements)).
Proof.
  intros Hab Hb Hsize Hfuel. unfold GetSublist.
  destruct (decide (0 < a ∧ b - 1 < 0)%Z); [lia|].
  destruct (decide (a < 0 ∧ 0 < b - 1)%Z); [lia|].
  destruct (decide (a < 0)%Z); [lia|].
  destruct (decide (b - 1 < 0)%Z); [lia|].
  destruct (Z.to_nat (b - a)) as [|count] eqn:Hcount; [lia|].
  apply sublist_from_up_to; lia.
Qed.

Lemma list_slice_witness :
  GetSublist 5 [Double 1; Double 2; Double 3; Double 4] 1 (3 - 1) 1
  = Value (take (Z.to_nat (3 - 1))
             (drop (Z.to_nat 1) [Double 1; Double 2; Double 3; Double 4])).
Proof.
  apply (list_slice 5 [Double 1; Double 2; Double 3; Double 4] 1 3);
    simpl; lia.
Defined.

(** A slice whose end is not after its start is not empty: for
    [0 < b <= a < len(l)] the loop of [GetSublist] takes the element at [a]
    before it compares the position with the end, so [l[a:b]] is the list
    of that one element. *)
Theorem list_slice_with_end_before_start
    (fuel : nat) (elements : list ValueType) (a b : Z) :
  (0 < b ≤ a)%Z →
  (a < Z.of_nat (length elements))%Z →
  (Z.of_nat (length elements) < 2 ^ 63)%Z →
  ∃ element, elements !! Z.to_nat a = Some element
             ∧ GetSublist (S fuel) elements a (b - 1) 1 = Value [element].
Proof.
  intros Hab Ha Hsize. unfold GetSublist.
  destruct (decide (0 < a ∧ b - 1 < 0)%Z); [lia|].
  destruct (decide (a < 0 ∧ 0 < b - 1)%Z); [lia|].
  destruct (decide (a < 0)%Z); [lia|].
  destruct (decide (b - 1 < 0)%Z); [lia|].
  simpl sublist_from.
  destruct (at_int64_in_range elements a) as (element & Hlook & ->); try lia.
  exists element. split; [exact Hlook|].
  unfold and_then, Result_then. cbv beta iota.
  destruct (decide _) as [_|Hbad]; [reflexivity|lia].
Qed.

Lemma list_slice_with_end_before_start_witness :
  ∃ element, [Double 1; Double 2; Double 3] !! Z.to_nat 2 = Some element
             ∧ GetSublist 1 [Double 1; Double 2; Double 3] 2 (1 - 1) 1
               = Value [element].
Proof.
  apply (list_slice_with_end_before_start 0 [Double 1; Double 2; Double 3] 2 1);
    simpl; lia.
Defined.

(** [l[0:0]] is the whole list: the end [0 - 1] is negative, is counted
    from the end of the list and becomes the last position. *)
Theorem list_slice_from_zero_to_zero (fuel : nat) (elements : list ValueType) :
  elements ≠ [] →
  (Z.of_nat (length elements) < 2 ^ 63)%Z →
  length elements ≤ fuel →
  GetSublist fuel elements 0 (0 - 1) 1 = Value elements.
Proof.
  intros Hne Hsize Hfuel. unfold GetSublist.
  destruct (decide (0 < 0 ∧ 0 - 1 < 0)%Z); [lia|].
  destruct (decide (0 < 0 ∧ 0 < 0 - 1)%Z); [lia|].
  destruct (decide (0 < 0)%Z); [lia|].
  destruct (decide (0 - 1 < 0)%Z); [|lia].
  destruct elements as [|x rest]; [contradiction|].
  rewrite (sublist_from_up_to (length rest)); simpl length in *; try lia.
  simpl. now rewrite take_ge by lia.
Qed.

Lemma list_slice_from_zero_to_zero_witness :
  GetSublist 2 [Double 1; Double 2] 0 (0 - 1) 1 = Value [Double 1; Double 2].
Proof.
  apply (list_slice_from_zero_to_zero 2 [Double 1; Double 2]);
    [discriminate | simpl; lia | simpl; lia].
Defined.

Lemma Visit_VariableNode_bound (name : string) (value : ValueType) (v : EvalVisitor) :
  FindVariable v name = Some value →
  Visit_VariableNode name v = Normal tt (set_result_ value v).
Proof.
  intros H. unfold Visit_VariableNode, and_then, M_then, gets, modify.
  now rewrite H.
Qed.

Lemma Calculate_step (libc : Platform) (fuel : nat) (node : BaseNode) :
  Calculate libc (S fuel) node = Visit libc (Calculate libc fuel) fuel node.
Proof. reflexivity. Qed.

Lemma Calculate_variable (libc : Platform) (fuel : nat) (name : string)
    (value : ValueType) (v : EvalVisitor) :
  FindVariable v name = Some value →
  Calculate libc (S fuel) (VariableNode name) v = Normal tt (set_result_ value v).
Proof. intros H. rewrite Calculate_step. now apply Visit_VariableNode_bound. Qed.

(** [push(l, x)], for an [x] whose evaluation ends normally and leaves
    [l] bound to its list: the value of [x] is appended to the list object
    that [l] holds, as that object stands after [x] has been evaluated, and
    the object is left in the result register; [pop(l)] after it leaves
    every list of the store as it was when [x] had been evaluated. *)
Theorem push_then_pop_restores_list
    (libc : Platform) (fuel : nat) (name : string) (x : BaseNode) (p : ptr)
    (elements : list ValueType) (v vx : EvalVisitor) :
  FindVariable v name = Some (ListPtr p) →
  Calculate libc (2 + fuel) x (set_result_ (ListPtr p) v) = Normal tt vx →
  FindVariable vx name = Some (ListPtr p) →
  list_store vx !! p = Some elements →
  ∃ v1 v2,
    Calculate libc (3 + fuel) (call kPush [var name; x]) v = Normal tt v1
    ∧ list_store v1 !! p = Some (elements ++ [result_ vx])
    ∧ result_ v1 = ListPtr p
    ∧ Calculate libc (3 + fuel) (call kPop [var name]) v1 = Normal tt v2
    ∧ list_store v2 = list_store vx.
Proof.
  intros Hfind Hx Hfindx Hp. unfold call, var.
  change (3 + fuel) with (S (S (S fuel))). change (2 + fuel) with (S (S fuel)) in Hx.
  assert (p < length (list_store vx)) as Hlt by (eapply lookup_lt_Some; eauto).
  exists (set_result_ (ListPtr p)
            (set_list_store (<[p := elements ++ [result_ vx]]> (list_store vx)) vx)).
  eexists.
  split; [|split; [|split; [|split]]].
  - rewrite Calculate_step. cbn [Visit Visit_GlobalFunctionNode].
    unfold ExecutePush, require_args, calculate_arg, defined,
      HoldsList, reads, gets, get_ListPtr, list_at, assign_elements, modify,
      mret, M_ret.
    unfold and_then, M_then, Result_then. cbn [length Nat.eqb lookup list_lookup].
    rewrite (Calculate_variable _ _ _ _ _ Hfind).
    cbn [result_ set_result_ negb]. rewrite Hx. rewrite Hp. reflexivity.
  - cbn [list_store set_result_ set_list_store]. now rewrite list_lookup_insert_eq.
  - reflexivity.
  - rewrite Calculate_step. cbn [Visit Visit_GlobalFunctionNode].
    unfold ExecutePop, require_args, calculate_arg, defined,
      HoldsList, reads, gets, get_ListPtr, list_at, assign_elements, modify,
      mret, M_ret.
    unfold and_then, M_then, Result_then. cbn [length Nat.eqb lookup list_lookup].
    rewrite Calculate_variable with (value := ListPtr p) by exact Hfindx.
    cbn [result_ set_result_ negb list_store set_list_store].
    rewrite list_lookup_insert_eq by exact Hlt.
    rewrite bool_decide_eq_false_2 by (now destruct elements).
    reflexivity.
  - cbn [list_store set_result_ set_list_store]. rewrite list_insert_insert_eq.
    rewrite length_app. cbn [length].
    replace (length elements + 1 - 1) with (length elements) by lia.
    rewrite take_app_length. now apply list_insert_id.
Qed.

Lemma push_then_pop_restores_list_witness :
  ∃ v1 v2,
    Calculate sample_platform (3 + 1)
      (call kPush [var "l"; ListLiteralNode [number 7]])
      (visitor_after [assign "l" (ListLiteralNode [number 1])])
    = Normal tt v1
    ∧ list_store v1 !! 0 = Some ([Double 1] ++ [ListPtr 1])
    ∧ result_ v1 = ListPtr 0
    ∧ Calculate sample_platform (3 + 1) (call kPop [var "l"]) v1 = Normal tt v2
    ∧ list_store v2 = [[Double 1]; [Double 7]].
Proof.
  apply (push_then_pop_restores_list sample_platform 1 "l"
           (ListLiteralNode [number 7]) 0 [Double 1]
           (visitor_after [assign "l" (ListLiteralNode [number 1])])
           (final_or_fresh
              (Calculate sample_platform (2 + 1) (ListLiteralNode [number 7])
                 (set_result_ (ListPtr 0)
                    (visitor_after [assign "l" (ListLiteralNode [number 1])])))));
    vm_compute; reflexivity.
Defined.

(** ** Calls *)

(** A named call with the wrong number of arguments throws after
    [PushScope()]: the exception leaves with the scope of the call still on
    the stack, and no argument has been evaluated. *)
Theorem call_with_wrong_arity
    (libc : Platform) (fuel : nat) (function_name_ : string)
    (args_ : list BaseNode) (function : FunctionDefinition) (v : EvalVisitor) :
  IsFunctionName v function_name_ = true →
  FindVariable v function_name_ = Some (FunctionPtr function) →
  length (arg_names function) ≠ length args_ →
  Calculate libc (S fuel) (FunctionCallNode function_name_ args_) v
  = Thrown (runtime_error
              ("Function '" +:+ function_name_ +:+ "' with "
               +:+ cxx.to_string (Z.of_nat (length args_))
               +:+ " arguments not found"))
           (push_scope v).
Proof.
  intros Hname Hfind Harity. cbn [Calculate Visit].
  unfold Visit_FunctionCallNode.
  unfold and_then, M_then, gets, reads, PushScope, modify. cbv beta.
  rewrite Hname. cbn [negb]. cbv beta iota. rewrite Hfind. simpl.
  apply Nat.eqb_neq in Harity. now rewrite Harity.
Qed.

Lemma call_with_wrong_arity_witness :
  Calculate sample_platform 1 (FunctionCallNode "f" [number 1])
            (visitor_after [assign "f" (function 0 [] [])])
  = Thrown (runtime_error
              ("Function '" +:+ "f" +:+ "' with "
               +:+ cxx.to_string (Z.of_nat (length [number 1]))
               +:+ " arguments not found"))
           (push_scope (visitor_after [assign "f" (function 0 [] [])])).
Proof.
  apply (call_with_wrong_arity sample_platform 0 "f" [number 1]
           (MkFunctionDefinition 0 [] [])
           (visitor_after [assign "f" (function 0 [] [])]));
    [vm_compute; reflexivity | vm_compute; reflexivity | simpl; lia].
Defined.

(** A name stays a function name when its variable is assigned another
    value. *)
Lemma function_name_outlives_function
    (name : string) (value : ValueType) (v v' : EvalVisitor) :
  IsFunctionName v name = true →
  SetVariable name value v = Normal tt v' →
  IsFunctionName v' name = true.
Proof.
  destruct v as [r sc fn o i cf ss ls rc u].
  unfold SetVariable, and_then, M_then, gets, modify, PushScope, mret, M_ret,
    insert_function_name, undefined, push_scope, IsFunctionName. simpl.
  intros Hname.
  assert (∀ back rest extra,
            fn = back :: rest →
            existsb (λ scope : gset string, bool_decide (name ∈ scope))
                    ((extra ∪ back) :: rest) = true) as Hgrow.
  { intros back rest extra ->. simpl in *.
    apply orb_true_iff in Hname. apply orb_true_iff.
    destruct Hname as [Hname|Hname]; [left|now right].
    apply bool_decide_eq_true in Hname. apply bool_decide_eq_true.
    set_solver. }
  destruct sc as [|back rest]; simpl.
  - rewrite lookup_empty. simpl.
    destruct (HoldsFunction value); simpl; intros [= <-]; simpl.
    + apply orb_true_iff. left. apply bool_decide_eq_true. set_solver.
    + exact Hname.
  - destruct (back !! name) eqn:Hback; simpl.
    + destruct (HoldsFunction value); simpl;
        [destruct fn as [|fback frest]; simpl; [discriminate|]|];
        intros [= <-]; simpl; [now apply (Hgrow fback frest)|exact Hname].
    + destruct (assign_from_back rest name value) as [rest'|] eqn:Hrest; simpl;
        (destruct (HoldsFunction value); simpl;
         [destruct fn as [|fback frest]; simpl; [discriminate|]|];
         intros [= <-]; simpl; [now apply (Hgrow fback frest)|exact Hname]).
Qed.

(** Calling a name that was a function name and has since been assigned a
    value that is no function: the name is still in [function_names_], the
    variable is found, and [std::get] throws [std::bad_variant_access]
    instead of the evaluator's own "not found" error. *)
Theorem call_after_reassignment
    (libc : Platform) (fuel : nat) (function_name_ : string)
    (args_ : list BaseNode) (value : ValueType) (v v' : EvalVisitor) :
  IsFunctionName v function_name_ = true →
  HoldsFunction value = false →
  SetVariable function_name_ value v = Normal tt v' →
  Calculate libc (S fuel) (FunctionCallNode function_name_ args_) v'
  = Thrown bad_variant_access v'.
Proof.
  intros Hname Hvalue Hset.
  pose proof (function_name_outlives_function _ _ _ _ Hname Hset) as Hname'.
  pose proof (SetVariable_then_FindVariable _ _ _ _ Hset) as Hfind.
  cbn [Calculate Visit]. unfold Visit_FunctionCallNode.
  unfold and_then, M_then, gets, reads. cbv beta.
  rewrite Hname'. cbn [negb]. cbv beta iota. rewrite Hfind.
  destruct value; try discriminate; reflexivity.
Qed.

Lemma call_after_reassignment_witness :
  Calculate sample_platform 1 (FunctionCallNode "f" [])
    (final_or_fresh
       (SetVariable "f" (Double 1) (visitor_after [assign "f" (function 0 [] [])])))
  = Thrown bad_variant_access
      (final_or_fresh
         (SetVariable "f" (Double 1)
            (visitor_after [assign "f" (function 0 [] [])]))).
Proof.
  apply (call_after_reassignment sample_platform 0 "f" [] (Double 1)
           (visitor_after [assign "f" (function 0 [] [])]));
    vm_compute; reflexivity.
Defined.

Lemma bind_arguments_ignores_extra
    (Calculate : BaseNode → M unit) (names : list string)
    (args_ extra : list BaseNode) :
  ∀ (i : nat) (v : EvalVisitor),
    i + length names ≤ length args_ →
    bind_arguments Calculate names (args_ ++ extra) i v
    = bind_arguments Calculate names args_ i v.
Proof.
  induction names as [|name names IH]; intros i v Hlen; simpl; [reflexivity|].
  simpl in Hlen.
  rewrite lookup_app_l by lia.
  unfold and_then, M_then.
  destruct (defined (args_ !! i) v) as [arg v1| | |]; try reflexivity.
  destruct (Calculate arg v1) as [[] v2| | |]; try reflexivity.
  unfold gets.
  destruct (SetVariable name (result_ v2) v2) as [[] v3| | |]; try reflexivity.
  apply IH. lia.
Qed.

(** An unnamed call does not compare the number of arguments with the
    number of parameters.  Whatever the callee is, when it gives a function
    with no more parameters than there are arguments, the arguments beyond
    the parameters are never evaluated, and the call is what it is without
    them. *)
Theorem unnamed_call_ignores_extra_arguments
    (libc : Platform) (fuel : nat) (callee : BaseNode)
    (args_ extra : list BaseNode) (v : EvalVisitor) :
  match Calculate libc (S fuel) callee v with
  | Normal _ v1 =>
      match result_ v1 with
      | FunctionPtr func => length (arg_names func) ≤ length args_
      | _ => True
      end
  | _ => True
  end →
  Calculate libc (S (S fuel)) (UnnamedFunctionCallNode callee (args_ ++ extra)) v
  = Calculate libc (S (S fuel)) (UnnamedFunctionCallNode callee args_) v.
Proof.
  intros Hlen. rewrite !Calculate_step.
  cbn [Visit]. unfold Visit_UnnamedFunctionCallNode.
  unfold and_then, M_then, gets, reads, get_FunctionPtr, HoldsFunction,
    PushScope, modify.
  destruct (Calculate libc (S fuel) callee v) as [[] v1| | |]; try reflexivity.
  destruct (result_ v1) as [| | |func|]; try reflexivity.
  cbn [mret M_ret].
  rewrite bind_arguments_ignores_extra by (simpl; lia). reflexivity.
Qed.

Lemma unnamed_call_ignores_extra_arguments_witness :
  Calculate sample_platform 7
    (UnnamedFunctionCallNode (FunctionCallNode "f" [])
                             ([number 1] ++ [print (text "x")]))
    (visitor_after
       [assign "f" (function 0 []
                      [ReturnNode (function 1 ["a"] [ReturnNode (var "a")])])])
  = Calculate sample_platform 7
      (UnnamedFunctionCallNode (FunctionCallNode "f" []) [number 1])
      (visitor_after
         [assign "f" (function 0 []
                        [ReturnNode (function 1 ["a"] [ReturnNode (var "a")])])]).
Proof.
  apply (unnamed_call_ignores_extra_arguments sample_platform 5
           (FunctionCallNode "f" []) [number 1] [print (text "x")]
           (visitor_after
              [assign "f" (function 0 []
                             [ReturnNode (function 1 ["a"] [ReturnNode (var "a")])])])).
  vm_compute. lia.
Defined.

(** ** Built-in functions *)

(** [capitalize(s)] writes through the pointer: the string object that [s]
    holds is changed, so every holder of it sees the capital letter; on the
    empty string [front()] on an empty [std::string] is undefined. *)
Theorem capitalize_changes_the_string_itself
    (libc : Platform) (fuel : nat) (name : string) (p : ptr) (s : string)
    (v : EvalVisitor) :
  FindVariable v name = Some (StringPtr p) →
  string_store v !! p = Some s →
  Calculate libc (3 + fuel) (call kCapitalize [var name]) v
  = match s with
    | EmptyString => Undefined
    | String c rest =>
        Normal tt
          (set_result_ (StringPtr p)
             (set_string_store (<[p := String (cxx.toupper c) rest]> (string_store v))
                (set_result_ (StringPtr p) v)))
    end.
Proof.
  intros Hfind Hp.
  simpl. unfold ExecuteCapitalize, require_args, calculate_arg, defined,
    reads, gets, string_at, assign_string, modify, mret, M_ret.
  unfold and_then, M_then. simpl.
  rewrite (Visit_VariableNode_bound _ _ _ Hfind). simpl. rewrite Hp.
  now destruct s.
Qed.

Lemma capitalize_changes_the_string_itself_witness :
  Calculate sample_platform (3 + 0) (call kCapitalize [var "s"])
            (visitor_after [assign "s" (text "ab"); assign "t" (var "s")])
  = Normal tt
      (set_result_ (StringPtr 0)
         (set_string_store ["Ab"]
            (visitor_after [assign "s" (text "ab"); assign "t" (var "s")]))).
Proof.
  apply (capitalize_changes_the_string_itself sample_platform 0 "s" 0 "ab"
           (visitor_after [assign "s" (text "ab"); assign "t" (var "s")]));
    vm_compute; reflexivity.
Defined.

Lemma split_pieces_not_empty (rounds : nat) (s d : string) (start : nat)
    (pieces : list string) :
  split_pieces rounds s d start = Value pieces → pieces ≠ [].
Proof.
  destruct rounds as [|rounds]; [discriminate|]. cbn [split_pieces].
  destruct (cxx.find s d start); [|now intros [= <-]].
  destruct (decide _); [discriminate|].
  unfold and_then, Result_then.
  destruct (split_pieces rounds s d _); try discriminate. now intros [= <-].
Qed.

(** The pieces that the loop of [ExecuteSplit] cuts from position [start]
    on, joined by the delimiter, are the source string from [start] on. *)
Lemma split_pieces_concat (rounds : nat) (s d : string) :
  ∀ (start : nat) (pieces : list string),
    d ≠ "" →
    start ≤ String.length s →
    split_pieces rounds s d start = Value pieces →
    String.concat d pieces = substring start (String.length s - start) s.
Proof.
  induction rounds as [|rounds IH]; intros start pieces Hd Hstart;
    [discriminate|].
  cbn [split_pieces].
  destruct (cxx.find s d start) as [e|] eqn:Hfind; [|now intros [= <-]].
  destruct (find_bounds _ _ _ _ Hd Hfind) as (Hge & Hle & Hsub).
  destruct (decide _) as [Hsame|_].
  { destruct d; [done|]. cbn [String.length] in Hsame. lia. }
  unfold and_then, Result_then.
  destruct (split_pieces rounds s d (e + String.length d)) as [rest| | |] eqn:Hrest;
    try discriminate.
  intros [= <-].
  pose proof (split_pieces_not_empty _ _ _ _ _ Hrest) as Hne.
  pose proof (IH _ _ Hd Hle Hrest) as Htail.
  destruct rest as [|piece rest]; [contradiction|].
  change (substring start (e - start) s +:+ d +:+ String.concat d (piece :: rest)
          = substring start (String.length s - start) s).
  rewrite Htail.
  replace (String.length s - start)
    with ((e - start) + (String.length d + (String.length s - (e + String.length d))))
    by lia.
  rewrite substring_add, substring_add.
  replace (start + (e - start)) with e by lia.
  rewrite Hsub. reflexivity.
Qed.

(** With a delimiter that is not empty the loop is left: [start] moves on
    in every round, so more rounds than the string has characters from
    [start] on are enough. *)
Lemma split_pieces_returns (rounds : nat) (s d : string) :
  d ≠ "" →
  ∀ start,
    start ≤ String.length s →
    String.length s - start < rounds →
    ∃ pieces, split_pieces rounds s d start = Value pieces.
Proof.
  intros Hd. induction rounds as [|rounds IH]; intros start Hstart Hrounds; [lia|].
  cbn [split_pieces].
  destruct (cxx.find s d start) as [e|] eqn:Hfind; [|eauto].
  destruct (find_bounds _ _ _ _ Hd Hfind) as (Hge & Hle & _).
  assert (Hlength : 0 < String.length d).
  { destruct d; [done|cbn [String.length]; lia]. }
  destruct (decide _) as [Hsame|_]; [lia|].
  destruct (IH (e + String.length d)) as [rest Hrest]; [lia..|].
  unfold and_then, Result_then. rewrite Hrest. eauto.
Qed.

(** What [split] cuts, [join] puts together: the pieces of a string on a
    delimiter that is not empty are never none, and joined by the delimiter
    they are the string. *)
Theorem split_then_join (rounds : nat) (s d : string) (pieces : list string) :
  d ≠ "" →
  split_pieces rounds s d 0 = Value pieces →
  pieces ≠ [] ∧ String.concat d pieces = s.
Proof.
  intros Hd Hsplit. split; [eapply split_pieces_not_empty; eauto|].
  rewrite (split_pieces_concat rounds s d 0 pieces Hd) by (lia || assumption).
  rewrite Nat.sub_0_r. apply substring_whole.
Qed.

Lemma split_then_join_witness :
  ["a"; ""; "b"] ≠ [] ∧ String.concat "," ["a"; ""; "b"] = "a,,b".
Proof.
  apply (split_then_join 5 "a,,b" "," ["a"; ""; "b"]);
    [discriminate | reflexivity].
Defined.

(** On a list of strings [join] is the concatenation of their characters
    with the delimiter between two neighbours. *)
Theorem join_of_strings
    (libc : Platform) (fuel : nat) (this : EvalVisitor)
    (elements : list ValueType) (texts : list string) (delimiter : string) :
  Forall2 (λ element text,
             ∃ p, element = StringPtr p ∧ string_store this !! p = Some text)
          elements texts →
  join_elements libc fuel this elements delimiter
  = Value (String.concat delimiter texts).
Proof.
  induction 1 as [|element text elements texts (p & -> & Hp) Hrest IH];
    [reflexivity|].
  cbn [join_elements HoldsString].
  unfold get_string, get_StringPtr, string_at, and_then, Result_then.
  rewrite Hp. unfold and_then, Result_then in IH. rewrite IH.
  destruct Hrest as [|element' text' elements' texts' _ _].
  - rewrite bool_decide_eq_true_2 by reflexivity.
    cbn [String.concat]. now rewrite append_empty_r.
  - rewrite bool_decide_eq_false_2 by discriminate. reflexivity.
Qed.

Lemma join_of_strings_witness :
  join_elements sample_platform 0 (visitor_with_strings ["a"; "b"])
                [StringPtr 0; StringPtr 1] ", "
  = Value (String.concat ", " ["a"; "b"]).
Proof.
  apply (join_of_strings sample_platform 0 (visitor_with_strings ["a"; "b"])
           [StringPtr 0; StringPtr 1] ["a"; "b"] ", ").
  repeat constructor; eexists; split; reflexivity.
Defined.

Lemma replace_of_nothing_by_nothing (rounds : nat) :
  ∀ s position,
    position ≤ String.length s →
    replace_from rounds s "" "" (Some position) = NoFuel.
Proof.
  induction rounds as [|rounds IH]; intros s position Hposition; [reflexivity|].
  cbn [replace_from is_empty negb andb String.length].
  assert (Hlength : String.length (cxx.replace s position 0 "") = String.length s).
  { unfold cxx.replace. rewrite !length_append, !length_substring.
    cbn [String.length]. lia. }
  rewrite find_empty_pattern by lia.
  apply IH. lia.
Qed.

(** [split] with an empty delimiter and [replace] of an empty string are
    not left by the condition of their loop: [find] finds the empty string
    wherever it is asked to look.  For variables [s], [d] and [n] that
    hold strings, the one of [d] empty: [split(s, d)] ends with
    [std::bad_alloc], whatever the text of [s], and the moves have left
    both string objects empty; [replace(s, d, n)] ends with
    [std::bad_alloc] when the string of [n] is not empty, with the strings
    as they were, and does not end, whatever the fuel, when it is empty
    too. *)
Theorem empty_pattern_fills_the_memory
    (libc : Platform) (fuel : nat) (text delimiter new : string) (p q r : ptr)
    (s n : string) (v : EvalVisitor) :
  FindVariable v text = Some (StringPtr p) →
  FindVariable v delimiter = Some (StringPtr q) →
  FindVariable v new = Some (StringPtr r) →
  string_store v !! p = Some s →
  string_store v !! q = Some "" →
  string_store v !! r = Some n →
  Calculate libc (3 + fuel) (call kSplit [var text; var delimiter]) v
  = Thrown bad_alloc
      (set_string_store (<[q := ""]> (<[p := ""]> (string_store v)))
         (set_result_ (StringPtr q) v))
  ∧ Calculate libc (3 + fuel) (call kReplace [var text; var delimiter; var new]) v
    = if decide (n = "") then OutOfFuel
      else Thrown bad_alloc (set_result_ (StringPtr r) v).
Proof.
  intros Htext Hdelimiter Hnew Hp Hq Hr.
  assert (Hlt : p < length (string_store v)) by (eapply lookup_lt_Some; eauto).
  split.
  - simpl. unfold ExecuteSplit, require_args, calculate_arg, defined,
      move_string_from_result, HoldsString, reads, gets, get_StringPtr,
      string_at, assign_string, modify, mret, M_ret.
    unfold and_then, M_then, Result_then. simpl.
    rewrite (Visit_VariableNode_bound _ _ _ Htext). simpl. rewrite Hp. simpl.
    rewrite Visit_VariableNode_bound with (value := StringPtr q)
      by exact Hdelimiter.
    simpl.
    assert (Hempty : <[p := ""]> (string_store v) !! q = Some "").
    { destruct (decide (q = p)) as [->|Hne].
      - now rewrite list_lookup_insert_eq.
      - now rewrite list_lookup_insert_ne. }
    rewrite Hempty. simpl. rewrite find_empty_pattern by lia.
    reflexivity.
  - simpl. unfold ExecuteReplace, replace_arg, require_args, calculate_arg,
      defined, HoldsString, reads, gets, get_string, get_StringPtr,
      string_at, modify, mret, M_ret.
    unfold and_then, M_then, Result_then. simpl.
    rewrite (Visit_VariableNode_bound _ _ _ Htext). simpl. rewrite Hp. simpl.
    rewrite Visit_VariableNode_bound with (value := StringPtr q)
      by exact Hdelimiter.
    simpl. rewrite Hq. simpl.
    rewrite Visit_VariableNode_bound with (value := StringPtr r)
      by exact Hnew.
    simpl. rewrite Hr. simpl. rewrite find_empty_pattern by lia.
    destruct (decide (n = "")) as [->|Hn].
    + cbn [String.length Nat.add].
      rewrite find_empty_pattern by lia. cbv iota beta.
      cbn [String.length Nat.add].
      rewrite find_empty_pattern by lia.
      rewrite replace_of_nothing_by_nothing by lia. reflexivity.
    + destruct n; [done|]. reflexivity.
Qed.

Lemma empty_pattern_fills_the_memory_witness :
  Calculate sample_platform (3 + 0) (call kSplit [var "s"; var "d"])
    (visitor_after [assign "s" (text "ab"); assign "d" (text "");
                    assign "n" (text "x")])
  = Thrown bad_alloc
      (set_string_store [""; ""; "x"]
         (set_result_ (StringPtr 1)
            (visitor_after [assign "s" (text "ab"); assign "d" (text "");
                            assign "n" (text "x")])))
  ∧ Calculate sample_platform (3 + 0)
      (call kReplace [var "s"; var "d"; var "n"])
      (visitor_after [assign "s" (text "ab"); assign "d" (text "");
                      assign "n" (text "x")])
    = Thrown bad_alloc
        (set_result_ (StringPtr 2)
           (visitor_after [assign "s" (text "ab"); assign "d" (text "");
                           assign "n" (text "x")])).
Proof.
  apply (empty_pattern_fills_the_memory sample_platform 0 "s" "d" "n" 0 1 2 "ab" "x"
           (visitor_after [assign "s" (text "ab"); assign "d" (text "");
                           assign "n" (text "x")]));
    vm_compute; reflexivity.
Defined.

(** ** The entry point *)

Lemma with_final_newline_ends (s : string) :
  with_final_newline (s +:+ cxx.newline) = s +:+ cxx.newline.
Proof.
  induction s as [|c s IH]; [reflexivity|].
  rewrite append_cons. cbn [with_final_newline].
  rewrite IH. now destruct s.
Qed.

Lemma with_final_newline_adds (s : string) :
  s ≠ "" → (∀ lines, s ≠ lines +:+ cxx.newline) →
  with_final_newline s = s +:+ cxx.newline.
Proof.
  induction s as [|c s IH]; [easy|]. intros _ Hends.
  destruct s as [|c' s'].
  - cbn [with_final_newline].
    destruct (decide (c = ascii_of_nat 10)) as [->|Hc]; [|reflexivity].
    now destruct (Hends "").
  - rewrite append_cons.
    change (String c (with_final_newline (String c' s'))
            = String c (String c' s' +:+ cxx.newline)).
    rewrite IH; [reflexivity|easy|].
    intros lines Heq. apply (Hends (String c lines)).
    now rewrite append_cons, <- Heq.
Qed.

Lemma ends_with_newline_inv (s : string) :
  cxx.ends_with s cxx.newline = true →
  s = substring 0 (String.length s - 1) s +:+ cxx.newline.
Proof.
  unfold cxx.ends_with. intros H. apply andb_prop in H as [Hlen Hsuffix].
  apply Nat.leb_le in Hlen. apply bool_decide_eq_true in Hsuffix.
  change (String.length cxx.newline) with 1 in *.
  rewrite <- Hsuffix.
  pose proof (substring_add s 0 (String.length s - 1) 1) as Hadd.
  rewrite Nat.add_0_l in Hadd. rewrite <- Hadd.
  replace (String.length s - 1 + 1) with (String.length s) by lia.
  now rewrite substring_whole.
Qed.

(** The text that [interpret] hands to the parser: nothing for an empty
    input; the input itself when it ends in a newline; the input and a
    newline when its last line has none. *)
Theorem read_code_adds_the_missing_newline (input : string) :
  read_code (S (String.length input)) input
  = if decide (input = "") then ""
    else if cxx.ends_with input cxx.newline then input
         else input +:+ cxx.newline.
Proof.
  rewrite read_code_with_final_newline by lia.
  destruct (decide (input = "")) as [->|Hne]; [reflexivity|].
  destruct (cxx.ends_with input cxx.newline) eqn:Hends.
  - apply ends_with_newline_inv in Hends. rewrite Hends at 1.
    now rewrite with_final_newline_ends.
  - apply with_final_newline_adds; [exact Hne|].
    intros lines ->. now rewrite ends_with_append in Hends.
Qed.

(** ** Invariants of every run *)

(** Whatever the evaluator is run on, and whether it ends normally or
    with an exception, what had been written to the output is still there,
    at the front of what the output holds afterwards. *)
Theorem evaluator_only_appends_to_output
    (libc : Platform) (fuel : nat) (node : BaseNode) (v : EvalVisitor) :
  match Calculate libc fuel node v with
  | Normal _ v' | Thrown _ v' => String.prefix (out_ v) (out_ v') = true
  | Undefined | OutOfFuel => True
  end.
Proof.
  pose proof (extends_output_hoare libc fuel node v v) as H.
  assert (extends_output v v) as Hstart
    by (exists ""; now rewrite append_empty_r).
  specialize (H Hstart).
  destruct (Calculate libc fuel node v) as [[] v'|e v'| |]; try exact I;
    destruct H as [written ->]; apply prefix_append.
Qed.

Lemma balanced_or_leaked_hoare libc fuel node :
  hoare balanced (λ v0 v, depth v0 ≤ depth v) 0 (Calculate libc fuel node) 0.
Proof.
  apply hoare_Calculate_all; unfold balanced, same_frame, depth; try easy.
  - intros z v0 v v' H (Hd & Hu & _). rewrite Hd, Hu. exact H.
  - intros z v0 v H. simpl. lia.
  - intros z v0 v H. simpl. destruct (scopes_ v); simpl in *; lia.
  - intros z v0 v Hempty H. simpl. rewrite Hempty in *. simpl in *. lia.
  - intros z v0 v H. simpl. lia.
  - intros z v0 v H. lia.
Qed.

(** The evaluator never leaves the scope stack lower than it found it:
    an exception leaves with the scopes of the constructs it crosses still
    pushed, and no construct pops a scope it did not push. *)
Theorem evaluator_never_lowers_the_scope_stack
    (libc : Platform) (fuel : nat) (node : BaseNode) (v : EvalVisitor) :
  match Calculate libc fuel node v with
  | Normal _ v' | Thrown _ v' => depth v ≤ depth v'
  | Undefined | OutOfFuel => True
  end.
Proof.
  pose proof (balanced_or_leaked_hoare libc fuel node v v) as H.
  assert (balanced 0 v v) as Hstart by (unfold balanced; lia).
  specialize (H Hstart).
  destruct (Calculate libc fuel node v) as [[] v'|e v'| |]; try exact I;
    unfold balanced in *; lia.
Qed.


(** * Properties of the lexer and the parser *)

(** ** The lexer *)

Lemma move_to_ahead (lexer : Lexer) : move_to lexer (ahead lexer) = lexer.
Proof.
  destruct lexer as [n s]. unfold move_to. simpl.
  now rewrite Nat.sub_diag, Nat.add_0_r.
Qed.

Lemma span_length (p : ascii → bool) (s : string) :
  String.length (fst (span p s)) + String.length (snd (span p s))
  = String.length s.
Proof.
  induction s as [|c s IH]; [reflexivity|]. cbn [span].
  destruct (p c); [|reflexivity].
  destruct (span p s) as [word remaining]. cbn [fst snd String.length] in *. lia.
Qed.

Lemma find_char_length (c : ascii) (s : string) :
  String.length (find_char c s) ≤ String.length s.
Proof.
  induction s as [|c' s IH]; [reflexivity|]. cbn [find_char].
  destruct (decide (c' = c)); cbn [String.length]; lia.
Qed.

Lemma after_comment_length (s remaining : string) :
  after_comment s = Some remaining →
  String.length remaining < String.length s.
Proof.
  induction s as [|c s IH]; [discriminate|]. cbn [after_comment String.length].
  destruct (decide (c = "*"%char)).
  - destruct s as [|d s']; [discriminate|].
    destruct (decide (d = "/"%char)).
    + intros [= <-]. cbn [String.length]. lia.
    + intros H. apply IH in H. lia.
  - intros H. apply IH in H. lia.
Qed.

Lemma string_literal_length_bounded (n : nat) :
  ∀ s str remaining,
    String.length s ≤ n →
    string_literal s = (str, Some remaining) →
    String.length remaining < String.length s.
Proof.
  induction n as [|n IH]; intros s str remaining Hn;
    (destruct s as [|c s]; [discriminate|]); cbn [String.length] in Hn; [lia|].
  cbn [string_literal String.length].
  destruct (decide (c = ascii_of_nat 34)).
  - intros [= _ <-]. lia.
  - destruct (decide (c = ascii_of_nat 92)).
    + destruct s as [|escaped s'']; [discriminate|].
      destruct (string_literal s'') as [str' remaining'] eqn:Hrec.
      intros [= _ ->]. apply IH in Hrec; cbn [String.length] in *; lia.
    + destruct (string_literal s) as [str' remaining'] eqn:Hrec.
      intros [= _ ->]. apply IH in Hrec; cbn [String.length] in *; lia.
Qed.

Lemma string_literal_length (s str remaining : string) :
  string_literal s = (str, Some remaining) →
  String.length remaining < String.length s.
Proof. now apply (string_literal_length_bounded (String.length s)). Qed.

(** [lexer'] is the lexer moved forward, by one character at least. *)
Definition moved_forward (lexer lexer' : Lexer) : Prop :=
  text_length lexer' = text_length lexer
  ∧ characters_ahead lexer' < characters_ahead lexer.

(** [lexer'] is the lexer where it was or moved forward. *)
Definition not_moved_back (lexer lexer' : Lexer) : Prop :=
  text_length lexer' = text_length lexer
  ∧ characters_ahead lexer' ≤ characters_ahead lexer.

Lemma not_moved_back_to (lexer : Lexer) (remaining : string) :
  String.length remaining ≤ characters_ahead lexer →
  not_moved_back lexer (move_to lexer remaining).
Proof. unfold not_moved_back, text_length, characters_ahead, move_to. simpl. lia. Qed.

Lemma moved_forward_to (lexer : Lexer) (remaining : string) :
  String.length remaining < characters_ahead lexer →
  moved_forward lexer (move_to lexer remaining).
Proof. unfold moved_forward, text_length, characters_ahead, move_to. simpl. lia. Qed.

Lemma moved_forward_after (lexer lexer' lexer'' : Lexer) :
  not_moved_back lexer lexer' → moved_forward lexer' lexer'' →
  moved_forward lexer lexer''.
Proof. unfold not_moved_back, moved_forward. lia. Qed.

Lemma SkipSpaces_not_back (lexer : Lexer) : not_moved_back lexer (SkipSpaces lexer).
Proof.
  apply not_moved_back_to. unfold characters_ahead.
  pose proof (span_length (λ c, not_end_line c && bool_decide (c = " "%char))
                          (ahead lexer)). lia.
Qed.

Lemma SkipComments_not_back (lexer lexer' : Lexer) :
  SkipComments lexer = inr lexer' → not_moved_back lexer lexer'.
Proof.
  unfold SkipComments.
  destruct (ahead lexer) as [|a [|b s2]] eqn:Hahead;
    try (intros [= <-]; split; reflexivity).
  destruct (bool_decide (a = "/"%char) && bool_decide (b = "/"%char)).
  { intros [= <-]. apply not_moved_back_to. unfold characters_ahead.
    rewrite Hahead. cbn [String.length].
    pose proof (find_char_length (ascii_of_nat 10) s2). lia. }
  destruct (negb _).
  { intros [= <-]. split; reflexivity. }
  destruct (after_comment s2) as [remaining|] eqn:Hclose; [|discriminate].
  intros [= <-]. apply after_comment_length in Hclose.
  apply not_moved_back_to. unfold characters_ahead.
  rewrite Hahead. cbn [String.length]. lia.
Qed.

(** The token types of the three tables: none is the type of the end of
    the text, nor one of the types whose token carries a value that the
    parser reads. *)
Definition of_a_table (type : TokenType) : bool :=
  match type with
  | kEOF | kIdentifier | kString | kNumber | kIncorrect | kEndLine => false
  | _ => true
  end.

(** The value that the parser reads from a token is there: a string in an
    identifier and in a string literal, a double in a number. *)
Definition carries_its_value (token : Token) : bool :=
  match token_type_ token, value_ token with
  | (kIdentifier | kString), Text _ => true
  | (kIdentifier | kString), _ => false
  | kNumber, Real _ => true
  | kNumber, _ => false
  | _, _ => true
  end.

Lemma find_in_Some {A} (table : list (string * A)) (key : string) (a : A) :
  find_in table key = Some a → (key, a) ∈ table.
Proof.
  unfold find_in. induction table as [|[k v] table IH]; [discriminate|].
  cbn [List.find fst]. destruct (String.eqb k key) eqn:Hk.
  - intros [= <-]. apply String.eqb_eq in Hk as ->. apply list_elem_of_here.
  - intros H. apply list_elem_of_further, IH, H.
Qed.

Lemma find_in_table (table : list (string * TokenType)) key type :
  forallb (λ entry, of_a_table (snd entry) && negb (is_empty (fst entry))) table = true →
  find_in table key = Some type →
  of_a_table type = true ∧ key ≠ EmptyString.
Proof.
  intros Htable Hfind. apply find_in_Some in Hfind.
  rewrite forallb_forall in Htable.
  apply list_elem_of_In, Htable in Hfind. cbn [fst snd] in Hfind.
  apply andb_true_iff in Hfind as [Htype Hkey]. split; [exact Htype|].
  now destruct key.
Qed.

Lemma of_a_table_carries (type : TokenType) (value : TokenValue) :
  of_a_table type = true →
  carries_its_value (MkToken type value) = true ∧ type ≠ kEOF.
Proof. destruct type; try discriminate; intros _; split; try reflexivity; discriminate. Qed.

(** What a token that the lexer gives satisfies, for one that is not the
    end of the text. *)
Definition token_after (lexer : Lexer) (token : Token) (lexer' : Lexer) : Prop :=
  moved_forward lexer lexer'
  ∧ carries_its_value token = true
  ∧ token_type_ token ≠ kEOF.

Lemma GetDelimiter_Some lexer token lexer' :
  GetDelimiter lexer = Some (token, lexer') → token_after lexer token lexer'.
Proof.
  unfold GetDelimiter. destruct (ahead lexer) as [|c remaining] eqn:Hahead;
    [discriminate|].
  destruct (find_in kDelimiters (String c "")) as [type|] eqn:Htype; [|discriminate].
  intros [= <- <-]. apply find_in_table in Htype as [Htype _]; [|reflexivity].
  split; [|now apply of_a_table_carries].
  apply moved_forward_to. unfold characters_ahead. rewrite Hahead.
  cbn [String.length]. lia.
Qed.

Lemma GetOperator_Some lexer token lexer' :
  GetOperator lexer = Some (token, lexer') → token_after lexer token lexer'.
Proof.
  unfold GetOperator. destruct (ahead lexer) as [|a remaining] eqn:Hahead;
    [discriminate|].
  assert (Hone : match find_in kOperators (String a "") with
                 | Some type =>
                     Some (MkToken type (Text (String a "")), move_to lexer remaining)
                 | None => None
                 end = Some (token, lexer') → token_after lexer token lexer').
  { destruct (find_in kOperators (String a "")) as [type|] eqn:Htype; [|discriminate].
    intros [= <- <-]. apply find_in_table in Htype as [Htype _]; [|reflexivity].
    split; [|now apply of_a_table_carries].
    apply moved_forward_to. unfold characters_ahead. rewrite Hahead.
    cbn [String.length]. lia. }
  destruct remaining as [|b remaining]; [exact Hone|].
  destruct (negb (Lexer_IsEndLine lexer)); [|exact Hone].
  destruct (find_in kOperators (String a (String b ""))) as [type|] eqn:Htype;
    [|exact Hone].
  intros [= <- <-]. apply find_in_table in Htype as [Htype _]; [|reflexivity].
  split; [|now apply of_a_table_carries].
  apply moved_forward_to. unfold characters_ahead. rewrite Hahead.
  cbn [String.length]. lia.
Qed.

Lemma GetStringLiteral_Some lexer token lexer' :
  GetStringLiteral lexer = Some (token, lexer') → token_after lexer token lexer'.
Proof.
  unfold GetStringLiteral. destruct (ahead lexer) as [|c s'] eqn:Hahead;
    [discriminate|].
  destruct (negb _); [discriminate|].
  destruct (string_literal s') as [str [remaining|]] eqn:Hliteral;
    intros [= <- <-]; (split; [|split; [reflexivity|discriminate]]);
    apply moved_forward_to; unfold characters_ahead; rewrite Hahead;
    cbn [String.length]; [|lia].
  apply string_literal_length in Hliteral. lia.
Qed.

Lemma GetKeyWord_Some lexer token lexer' :
  GetKeyWord lexer = Some (token, lexer') → token_after lexer token lexer'.
Proof.
  unfold GetKeyWord. pose proof (span_length cctype.isalpha (ahead lexer)) as Hspan.
  destruct (span cctype.isalpha (ahead lexer)) as [keyword remaining].
  cbn [fst snd] in Hspan.
  destruct (find_in kKeyWords keyword) as [type|] eqn:Htype; [|discriminate].
  intros [= <- <-]. apply find_in_table in Htype as [Htype Hkey]; [|reflexivity].
  split; [|now apply of_a_table_carries].
  apply moved_forward_to. unfold characters_ahead.
  destruct keyword; [done|]. cbn [String.length] in Hspan. lia.
Qed.

Lemma GetIdentifier_Some lexer token lexer' :
  GetIdentifier lexer = Some (token, lexer') → token_after lexer token lexer'.
Proof.
  unfold GetIdentifier.
  pose proof (span_length
                (λ c, not_end_line c && (cctype.isalnum c || bool_decide (c = "_"%char)))
                (ahead lexer)) as Hspan.
  destruct (span _ (ahead lexer)) as [word remaining]. cbn [fst snd] in Hspan.
  destruct word as [|first word]; [discriminate|].
  destruct (_ || _); [discriminate|].
  intros [= <- <-]. split; [|split; [reflexivity|discriminate]].
  apply moved_forward_to. unfold characters_ahead.
  cbn [String.length] in Hspan. lia.
Qed.

Section Lexing.

Context (stod : string → exception + float * nat).

(** The exceptions that leave [GetNextToken]. *)
Definition thrown_by_lexer (e : exception) : Prop :=
  e = runtime_error "Unclosed comment" ∨ ∃ str, stod str = inl e.

Lemma GetNumberLiteral_Some lexer token lexer' :
  GetNumberLiteral stod lexer = inr (Some (token, lexer')) →
  token_after lexer token lexer'.
Proof.
  unfold GetNumberLiteral. destruct (ahead lexer) as [|c s'] eqn:Hahead;
    [discriminate|].
  destruct (negb _); [discriminate|].
  pose proof (span_length (λ c, not_end_line c && IsNumberSymbol c) (String c s'))
    as Hspan.
  destruct (span _ (String c s')) as [str remaining]. cbn [fst snd] in Hspan.
  unfold ParseDoubleFromStr. destruct str as [|d str]; [discriminate|].
  cbn [is_empty]. destruct (stod _) as [e|[value end_]]; [discriminate|].
  destruct (negb _); [discriminate|].
  intros [= <- <-]. split; [|split; [reflexivity|discriminate]].
  apply moved_forward_to. unfold characters_ahead. rewrite Hahead.
  cbn [String.length] in *. lia.
Qed.

Lemma GetNumberLiteral_throws lexer e :
  GetNumberLiteral stod lexer = inl e → thrown_by_lexer e.
Proof.
  unfold GetNumberLiteral. destruct (ahead lexer) as [|c s']; [discriminate|].
  destruct (negb _); [discriminate|].
  destruct (span _ (String c s')) as [str remaining].
  unfold ParseDoubleFromStr. destruct (is_empty str); [discriminate|].
  destruct (stod str) as [e'|[value end_]] eqn:Hstod.
  - intros [= <-]. right. now exists str.
  - destruct (negb _); discriminate.
Qed.

(** How a call of [GetNextToken] ends. *)
Definition GetNextToken_ends (lexer : Lexer) (result : Parsed Token) : Prop :=
  match result with
  | Done token lexer' =>
      carries_its_value token = true
      ∧ if IsEOF token
        then token = MkToken kEOF NoValue
             ∧ not_moved_back lexer lexer' ∧ ahead lexer' = EmptyString
        else moved_forward lexer lexer'
  | Failed e => thrown_by_lexer e
  | NullChild | OutOfFuelParsing => False
  end.

Lemma ends_with_token lexer skipped token lexer' :
  not_moved_back lexer skipped →
  token_after skipped token lexer' →
  GetNextToken_ends lexer (Done token lexer').
Proof.
  intros Hskipped (Hmoved & Hvalue & Htype). split; [exact Hvalue|].
  unfold IsEOF. rewrite bool_decide_eq_false_2 by exact Htype.
  eapply moved_forward_after; eassumption.
Qed.

Lemma GetNextToken_spec (lexer : Lexer) :
  GetNextToken_ends lexer (GetNextToken stod lexer).
Proof.
  unfold GetNextToken.
  pose proof (SkipSpaces_not_back lexer) as Hspaces.
  destruct (SkipComments (SkipSpaces lexer)) as [e|skipped] eqn:Hcomments.
  { unfold SkipComments in Hcomments.
    destruct (ahead (SkipSpaces lexer)) as [|a [|b s2]]; try discriminate.
    destruct (_ && _); [discriminate|]. destruct (negb _); [discriminate|].
    destruct (after_comment s2); [discriminate|].
    injection Hcomments as <-. now left. }
  apply SkipComments_not_back in Hcomments.
  assert (Hskipped : not_moved_back lexer skipped).
  { unfold not_moved_back in *. lia. }
  clear Hspaces Hcomments.
  unfold Lexer_IsEOF. destruct (ahead skipped) as [|c s'] eqn:Hahead.
  { cbn [is_empty]. split; [reflexivity|].
    change (IsEOF (MkToken kEOF NoValue)) with true. cbv iota. auto. }
  cbn [is_empty]. unfold Lexer_IsEndLine, advance. rewrite Hahead.
  destruct (bool_decide (c = ascii_of_nat 10)).
  { apply (ends_with_token lexer skipped); [exact Hskipped|].
    split; [|split; [reflexivity|discriminate]].
    apply moved_forward_to. unfold characters_ahead. rewrite Hahead.
    cbn [String.length]. lia. }
  destruct (GetDelimiter skipped) as [[token lexer']|] eqn:Hdelimiter.
  { eapply ends_with_token, GetDelimiter_Some; eassumption. }
  destruct (GetOperator skipped) as [[token lexer']|] eqn:Hoperator.
  { eapply ends_with_token, GetOperator_Some; eassumption. }
  destruct (GetStringLiteral skipped) as [[token lexer']|] eqn:Hstring.
  { eapply ends_with_token, GetStringLiteral_Some; eassumption. }
  destruct (GetNumberLiteral stod skipped) as [e|[[token lexer']|]] eqn:Hnumber.
  { eapply GetNumberLiteral_throws, Hnumber. }
  { eapply ends_with_token, GetNumberLiteral_Some; eassumption. }
  destruct (GetKeyWord skipped) as [[token lexer']|] eqn:Hkeyword.
  { eapply ends_with_token, GetKeyWord_Some; eassumption. }
  destruct (GetIdentifier skipped) as [[token lexer']|] eqn:Hidentifier.
  { eapply ends_with_token, GetIdentifier_Some; eassumption. }
  apply (ends_with_token lexer skipped); [exact Hskipped|].
  split; [|split; [reflexivity|discriminate]].
  apply moved_forward_to. unfold characters_ahead. rewrite Hahead.
  cbn [String.length]. lia.
Qed.

Lemma GetNextToken_at_the_end (lexer : Lexer) :
  ahead lexer = EmptyString →
  GetNextToken stod lexer = Done (MkToken kEOF NoValue) lexer.
Proof.
  destruct lexer as [current s]. cbn [ahead]. intros ->.
  unfold GetNextToken, SkipSpaces, move_to. cbn. now rewrite Nat.add_0_r.
Qed.

End Lexing.


Lemma string_literal_escape (s rest : string) :
  string_literal (escape s +:+ String quote_char rest) = (s, Some rest).
Proof.
  induction s as [|c s IH].
  - cbn. reflexivity.
  - cbn [escape]. destruct (decide (c = quote_char)) as [->|Hquote].
    { change (string_literal (String backslash (String quote_char
                (escape s +:+ String quote_char rest))) = (String quote_char s, Some rest)).
      cbn [string_literal]. rewrite IH. reflexivity. }
    destruct (decide (c = backslash)) as [->|Hbackslash].
    { change (string_literal (String backslash (String backslash
                (escape s +:+ String quote_char rest))) = (String backslash s, Some rest)).
      cbn [string_literal]. rewrite IH. reflexivity. }
    change (string_literal (String c (escape s +:+ String quote_char rest))
            = (String c s, Some rest)).
    cbn [string_literal]. fold quote_char backslash.
    destruct (decide (c = quote_char)); [done|].
    destruct (decide (c = backslash)); [done|].
    now rewrite IH.
Qed.

(** [GetNextToken] only moves forward.  The place of the lexer and the
    characters ahead of it make up the length of the text before and after;
    a token that is not the end of the text has taken one character at
    least; and once it has given the end of the text the lexer stays where
    it is and gives the end again.  So a loop that takes tokens until the
    end of the text comes to an end. *)
Theorem GetNextToken_moves_forward stod (lexer : Lexer) token lexer' :
  GetNextToken stod lexer = Done token lexer' →
  text_length lexer' = text_length lexer
  ∧ if IsEOF token
    then GetNextToken stod lexer' = Done token lexer'
    else characters_ahead lexer' < characters_ahead lexer.
Proof.
  intros Hnext. pose proof (GetNextToken_spec stod lexer) as Hspec.
  rewrite Hnext in Hspec. destruct Hspec as [_ Hspec].
  destruct (IsEOF token).
  - destruct Hspec as (-> & [Hlength _] & Hahead). split; [exact Hlength|].
    now apply GetNextToken_at_the_end.
  - destruct Hspec as [Hlength Hless]. now split.
Qed.

Lemma GetNextToken_moves_forward_witness :
  text_length (MkLexer 1 " = 1") = text_length (MkLexer 0 "x = 1")
  ∧ characters_ahead (MkLexer 1 " = 1") < characters_ahead (MkLexer 0 "x = 1").
Proof.
  apply (GetNextToken_moves_forward sample_stod (MkLexer 0 "x = 1")
           (MkToken kIdentifier (Text "x")) (MkLexer 1 " = 1")).
  vm_compute. reflexivity.
Defined.

Lemma move_to_rest (current : nat) (word rest : string) :
  move_to (MkLexer current (word +:+ rest)) rest = after_word current word rest.
Proof.
  unfold move_to, after_word. cbn [current_symbol_ ahead]. f_equal.
  rewrite length_append. lia.
Qed.

(** The alternatives of [GetNextToken], in the order in which it tries
    them. *)
Definition alternatives stod (lexer : Lexer) : Parsed Token :=
  match GetDelimiter lexer with
  | Some (token, lexer') => Done token lexer'
  | None =>
  match GetOperator lexer with
  | Some (token, lexer') => Done token lexer'
  | None =>
  match GetStringLiteral lexer with
  | Some (token, lexer') => Done token lexer'
  | None =>
  match GetNumberLiteral stod lexer with
  | inl e => Failed e
  | inr (Some (token, lexer')) => Done token lexer'
  | inr None =>
  match GetKeyWord lexer with
  | Some (token, lexer') => Done token lexer'
  | None =>
  match GetIdentifier lexer with
  | Some (token, lexer') => Done token lexer'
  | None =>
      Done (MkToken kIncorrect (Size (current_symbol_ lexer)))
           (move_to lexer EmptyString)
  end end end end end end.

(** Where the first character ahead is not a space, a slash or the end
    of the line, nothing is skipped. *)
Lemma GetNextToken_alternatives stod (current : nat) (c : ascii) (s : string) :
  c ≠ " "%char → c ≠ "/"%char → c ≠ ascii_of_nat 10 →
  GetNextToken stod (MkLexer current (String c s))
  = alternatives stod (MkLexer current (String c s)).
Proof.
  intros Hspace Hslash Hline. unfold GetNextToken, SkipSpaces.
  cbn [ahead span]. rewrite (bool_decide_eq_false_2 _ Hspace), andb_false_r.
  cbn [snd].
  change (String c s) with (ahead (MkLexer current (String c s))) at 2.
  rewrite move_to_ahead. unfold SkipComments. cbn [ahead].
  rewrite (bool_decide_eq_false_2 _ Hslash). cbn [andb negb].
  assert (Hskipped : match s with
                     | EmptyString => inr (MkLexer current (String c s))
                     | String _ _ => inr (MkLexer current (String c s))
                     end = (inr (MkLexer current (String c s)) : exception + Lexer)).
  { now destruct s. }
  rewrite Hskipped. unfold Lexer_IsEOF, Lexer_IsEndLine. cbn [ahead is_empty].
  now rewrite (bool_decide_eq_false_2 _ Hline).
Qed.

(** A string written as a literal is read back as that string: for every
    string [s], with double quotes, backslashes or line ends in it or not,
    the lexer at [literal s] gives a [kString] token whose value is [s],
    and stands after the closing quote. *)
Theorem string_literal_round_trip stod (current : nat) (s rest : string) :
  GetNextToken stod (MkLexer current (literal s +:+ rest))
  = Done (MkToken kString (Text s)) (after_word current (literal s) rest).
Proof.
  rewrite <- move_to_rest.
  assert (Hahead : literal s +:+ rest
                   = String quote_char (escape s +:+ String quote_char rest)).
  { unfold literal. now rewrite append_cons, append_assoc. }
  rewrite Hahead. pose proof (string_literal_escape s rest) as Hliteral.
  rewrite GetNextToken_alternatives by discriminate.
  destruct (escape s +:+ String quote_char rest) as [|b s2] eqn:Hrest.
  { destruct (escape s); discriminate. }
  unfold alternatives, GetDelimiter, GetOperator, GetStringLiteral.
  cbn - [string_literal move_to]. rewrite Hliteral. reflexivity.
Qed.

Lemma span_word (p : ascii → bool) (word rest : string) :
  forallb p (list_ascii_of_string word) = true →
  starts_with p rest = false →
  span p (word +:+ rest) = (word, rest).
Proof.
  intros Hword Hrest. induction word as [|c word IH].
  - rewrite append_nil_l. destruct rest as [|c rest]; [reflexivity|].
    cbn [starts_with span] in *. now rewrite Hrest.
  - cbn [list_ascii_of_string forallb] in Hword.
    apply andb_true_iff in Hword as [Hc Hword].
    rewrite append_cons. cbn [span]. now rewrite Hc, IH.
Qed.

Lemma span_before (p : ascii → bool) (word rest : string) :
  starts_with p rest = false →
  (span p (word +:+ rest)).1 = (span p word).1.
Proof.
  intros Hrest. induction word as [|c word IH].
  - rewrite append_nil_l. destruct rest as [|c rest]; [reflexivity|].
    cbn [starts_with span] in *. now rewrite Hrest.
  - rewrite append_cons. cbn [span]. destruct (p c); [|reflexivity].
    destruct (span p (word +:+ rest)), (span p word). cbn in *. now subst.
Qed.

(** Ahead of a letter the lexer finds no delimiter, no operator, no
    string literal and no number. *)
Lemma alternatives_of_a_word stod (current : nat) (c : ascii) (s : string) :
  cctype.isalpha c = true →
  alternatives stod (MkLexer current (String c s))
  = match GetKeyWord (MkLexer current (String c s)) with
    | Some (token, lexer') => Done token lexer'
    | None =>
        match GetIdentifier (MkLexer current (String c s)) with
        | Some (token, lexer') => Done token lexer'
        | None => Done (MkToken kIncorrect (Size current))
                       (move_to (MkLexer current (String c s)) EmptyString)
        end
    end.
Proof.
  intros Hletter. unfold alternatives.
  assert (Hnone : GetDelimiter (MkLexer current (String c s)) = None
                  ∧ GetOperator (MkLexer current (String c s)) = None
                  ∧ GetStringLiteral (MkLexer current (String c s)) = None
                  ∧ GetNumberLiteral stod (MkLexer current (String c s)) = inr None).
  { destruct c as [[] [] [] [] [] [] [] []]; try discriminate;
      destruct s; repeat split. }
  destruct Hnone as (Hdelimiter & Hoperator & Hstring & Hnumber).
  now rewrite Hdelimiter, Hoperator, Hstring, Hnumber.
Qed.

Lemma letter_starts_a_token (c : ascii) :
  cctype.isalpha c = true →
  c ≠ " "%char ∧ c ≠ "/"%char ∧ c ≠ ascii_of_nat 10.
Proof. intros H. repeat split; intros ->; discriminate. Qed.

Lemma GetNextToken_of_a_word stod (current : nat) (c : ascii) (s : string) :
  cctype.isalpha c = true →
  GetNextToken stod (MkLexer current (String c s))
  = match GetKeyWord (MkLexer current (String c s)) with
    | Some (token, lexer') => Done token lexer'
    | None =>
        match GetIdentifier (MkLexer current (String c s)) with
        | Some (token, lexer') => Done token lexer'
        | None => Done (MkToken kIncorrect (Size current))
                       (move_to (MkLexer current (String c s)) EmptyString)
        end
    end.
Proof.
  intros Hletter. destruct (letter_starts_a_token c Hletter) as (? & ? & ?).
  rewrite GetNextToken_alternatives by assumption.
  now apply alternatives_of_a_word.
Qed.

(** [GetKeyWord] is tried before [GetIdentifier] and collects letters
    only: a keyword before a character that is not a letter is that
    keyword, also when the character is a digit or an underscore, which
    [GetIdentifier] would have taken.  So [end1] is the keyword [end] and
    then the number [1], not an identifier. *)
Theorem keyword_before_a_non_letter stod (current : nat)
    (keyword : string) (type : TokenType) (rest : string) :
  (keyword, type) ∈ kKeyWords →
  starts_with cctype.isalpha rest = false →
  GetNextToken stod (MkLexer current (keyword +:+ rest))
  = Done (MkToken type (Text keyword)) (after_word current keyword rest).
Proof.
  intros Hkeyword Hrest. rewrite <- move_to_rest.
  assert (Hspan : span cctype.isalpha (keyword +:+ rest) = (keyword, rest)
                  ∧ find_in kKeyWords keyword = Some type
                  ∧ starts_with cctype.isalpha keyword = true).
  { unfold kKeyWords in Hkeyword.
    repeat (apply elem_of_cons in Hkeyword as [[= -> ->]|Hkeyword];
            [split; [apply span_word; [reflexivity|exact Hrest]|split; reflexivity]|]).
    now apply elem_of_nil in Hkeyword. }
  destruct Hspan as (Hspan & Hfind & Hletter).
  destruct keyword as [|c keyword]; [discriminate|].
  rewrite append_cons in *. rewrite GetNextToken_of_a_word by exact Hletter.
  unfold GetKeyWord. cbn [ahead]. now rewrite Hspan, Hfind.
Qed.

Lemma keyword_before_a_non_letter_witness :
  GetNextToken sample_stod (MkLexer 0 "end1 = 2")
  = Done (MkToken kEnd (Text "end")) (MkLexer 3 "1 = 2").
Proof.
  apply (keyword_before_a_non_letter sample_stod 0 "end" kEnd "1 = 2").
  - unfold kKeyWords. rewrite !elem_of_cons. tauto.
  - reflexivity.
Defined.

Lemma identifier_symbol_in_line (c : ascii) :
  identifier_symbol c = true →
  not_end_line c && (cctype.isalnum c || bool_decide (c = "_"%char)) = true.
Proof.
  intros H. apply andb_true_iff. split; [|exact H].
  unfold not_end_line. apply negb_true_iff, bool_decide_eq_false_2.
  intros ->. discriminate.
Qed.

(** A word of letters, digits and underscores that begins with a letter,
    and whose leading letters are not a keyword, is one [kIdentifier] token
    with the word as its value; the lexer stands at the first character
    that is none of these. *)
Theorem identifier_token stod (current : nat) (word rest : string) :
  starts_with cctype.isalpha word = true →
  forallb identifier_symbol (list_ascii_of_string word) = true →
  starts_with identifier_symbol rest = false →
  find_in kKeyWords (span cctype.isalpha word).1 = None →
  GetNextToken stod (MkLexer current (word +:+ rest))
  = Done (MkToken kIdentifier (Text word)) (after_word current word rest).
Proof.
  intros Hletter Hword Hrest Hkeyword. rewrite <- move_to_rest.
  assert (Hletters : starts_with cctype.isalpha rest = false).
  { destruct rest as [|c rest]; [reflexivity|]. cbn in *.
    unfold identifier_symbol, cctype.isalnum in Hrest.
    now destruct (cctype.isalpha c). }
  pose proof (span_before cctype.isalpha word rest Hletters) as Hbefore.
  assert (Hspan : span (λ c, not_end_line c
                             && (cctype.isalnum c || bool_decide (c = "_"%char)))
                       (word +:+ rest) = (word, rest)).
  { apply span_word.
    - rewrite forallb_forall in *. intros c Hc.
      apply identifier_symbol_in_line, Hword, Hc.
    - destruct rest as [|c rest]; [reflexivity|]. cbn in *.
      apply andb_false_iff. now right. }
  destruct word as [|c word]; [discriminate|]. cbn [starts_with] in Hletter.
  rewrite append_cons in *. rewrite GetNextToken_of_a_word by exact Hletter.
  unfold GetKeyWord, GetIdentifier. cbn [ahead].
  destruct (span cctype.isalpha (String c (word +:+ rest))) as [letters remaining].
  cbn [fst] in Hbefore. subst letters. rewrite Hkeyword, Hspan.
  assert (Hfirst : cctype.isdigit c || bool_decide (c = "_"%char) = false).
  { destruct c as [[] [] [] [] [] [] [] []]; try discriminate; reflexivity. }
  now rewrite Hfirst.
Qed.

Lemma identifier_token_witness :
  GetNextToken sample_stod (MkLexer 0 "ending_1 = 2")
  = Done (MkToken kIdentifier (Text "ending_1")) (MkLexer 8 " = 2").
Proof.
  apply (identifier_token sample_stod 0 "ending_1" " = 2"); reflexivity.
Defined.

(** ** The parser *)

Section ParserLogic.

Context (stod : string → exception + float * nat) (what_at : string).

(** A call ends, and it ends with an exception of the parser or with a
    value and a lexer that [Q] holds of. *)
Definition ends {A} (result : Parsed A) (Q : A → Lexer → Prop) : Prop :=
  match result with
  | Done a lexer' => Q a lexer'
  | Failed e => thrown_by_parser stod e
  | NullChild | OutOfFuelParsing => False
  end.

Lemma ends_then {A B} (m : Parser A) (k : A → Parser B) lexer
    (Q' : A → Lexer → Prop) (Q : B → Lexer → Prop) :
  ends (m lexer) Q' →
  (∀ a lexer', Q' a lexer' → ends (k a lexer') Q) →
  ends (and_then m k lexer) Q.
Proof.
  unfold and_then, Parser_then. destruct (m lexer); cbn [ends]; auto.
Qed.

Lemma ends_weaken {A} (result : Parsed A) (Q' Q : A → Lexer → Prop) :
  ends result Q' → (∀ a lexer', Q' a lexer' → Q a lexer') → ends result Q.
Proof. destruct result; cbn [ends]; auto. Qed.

Lemma ends_ret {A} (a : A) lexer (Q : A → Lexer → Prop) :
  Q a lexer → ends ((mret a : Parser A) lexer) Q.
Proof. auto. Qed.

Lemma ends_fail {A} message lexer (Q : A → Lexer → Prop) :
  ends ((fail (runtime_error message) : Parser A) lexer) Q.
Proof. left. now exists message. Qed.

Lemma ends_expect {B} ok message (k : unit → Parser B) lexer (Q : B → Lexer → Prop) :
  (ok = true → ends (k tt lexer) Q) →
  ends (and_then (expect ok message) k lexer) Q.
Proof.
  destruct ok; intros H.
  - now apply H.
  - left. now exists message.
Qed.

Lemma peeked_unique lexer token token' :
  peeked stod lexer token → peeked stod lexer token' → token' = token.
Proof. intros [l1 H1] [l2 H2]. congruence. Qed.

Lemma at_the_end_peeked lexer token :
  at_the_end stod lexer → peeked stod lexer token → IsEOF token = true.
Proof.
  intros (token' & Hpeeked & Heof) H.
  now rewrite (peeked_unique _ _ _ Hpeeked H).
Qed.

Lemma not_at_the_end lexer token :
  peeked stod lexer token → IsEOF token = false → ¬ at_the_end stod lexer.
Proof.
  intros Hpeeked Heof Hend. apply (at_the_end_peeked _ _ Hend) in Hpeeked.
  congruence.
Qed.

(** What a call of [GetNextToken] gives. *)
Definition next_token (lexer : Lexer) (token : Token) (lexer' : Lexer) : Prop :=
  peeked stod lexer token
  ∧ carries_its_value token = true
  ∧ characters_ahead lexer' ≤ characters_ahead lexer
  ∧ (IsEOF token = false → characters_ahead lexer' < characters_ahead lexer)
  ∧ (IsEOF token = true → at_the_end stod lexer').

Lemma thrown_by_lexer_parser e : thrown_by_lexer stod e → thrown_by_parser stod e.
Proof. intros [->|H]; [left; eauto|right; exact H]. Qed.

Lemma ends_GetNextToken lexer :
  ends (GetNextToken stod lexer) (next_token lexer).
Proof.
  pose proof (GetNextToken_spec stod lexer) as H.
  destruct (GetNextToken stod lexer) as [token lexer'| | |] eqn:Hnext;
    cbn [ends GetNextToken_ends] in *; try done.
  - destruct H as [Hvalue H]. split; [now exists lexer'|]. split; [exact Hvalue|].
    destruct (IsEOF token).
    + destruct H as (_ & [_ Hback] & Hahead). repeat split; try done.
      intros _. exists (MkToken kEOF NoValue). split; [|reflexivity].
      exists lexer'. now apply GetNextToken_at_the_end.
    + destruct H as [_ Hforward]. repeat split; try done; lia.
  - now apply thrown_by_lexer_parser.
Qed.

Lemma ends_GetPeek lexer :
  ends (GetPeek stod lexer)
       (λ token lexer', lexer' = lexer ∧ peeked stod lexer token
                        ∧ carries_its_value token = true).
Proof.
  unfold GetPeek. pose proof (ends_GetNextToken lexer) as H.
  destruct (GetNextToken stod lexer); cbn [ends] in *; try done.
  destruct H as (? & ? & _). auto.
Qed.

Lemma ends_expect_last ok message lexer (Q : unit → Lexer → Prop) :
  (ok = true → Q tt lexer) → ends (expect ok message lexer) Q.
Proof.
  destruct ok; intros H.
  - now apply H.
  - left. now exists message.
Qed.

Lemma next_token_at_the_end lexer token lexer' :
  at_the_end stod lexer → next_token lexer token lexer' → at_the_end stod lexer'.
Proof.
  intros Hend (Hpeeked & _ & _ & _ & Heof).
  apply Heof, (at_the_end_peeked lexer); assumption.
Qed.

Lemma ends_skip_token lexer :
  ends (skip_token stod lexer) (λ _ lexer', ∃ token, next_token lexer token lexer').
Proof.
  unfold skip_token. eapply ends_then; [apply ends_GetNextToken|].
  intros token lexer' H. apply ends_ret. now exists token.
Qed.

(** A token of one of these types is not the end of the text. *)
Lemma type_not_EOF token type :
  token_type_ token = type → type ≠ kEOF → IsEOF token = false.
Proof. intros <- H. unfold IsEOF. now apply bool_decide_eq_false_2. Qed.

Lemma Get_string_of token :
  carries_its_value token = true →
  IsIdentifier token || IsStringLiteral token = true →
  ∃ s, Get_string token = inr s.
Proof.
  destruct token as [type value]. unfold carries_its_value, Get_string.
  cbn [token_type_ value_]. destruct type; try discriminate;
    destruct value; try discriminate; eauto.
Qed.

Lemma Get_double_of token :
  carries_its_value token = true →
  IsNumberLiteral token = true →
  ∃ d, Get_double token = inr d.
Proof.
  destruct token as [type value]. unfold carries_its_value, Get_double.
  cbn [token_type_ value_]. destruct type; try discriminate;
    destruct value; try discriminate; eauto.
Qed.

Lemma binding_powers_of token :
  IsBinOperator token = true →
  ∃ left_binding_power right_binding_power,
    kLeftBindingPower (token_type_ token) = Some left_binding_power
    ∧ kRightBindingPower (token_type_ token) = Some right_binding_power.
Proof.
  unfold IsBinOperator. destruct (token_type_ token); try discriminate;
    intros _; cbn; eauto.
Qed.

(** The statements collected so far hold a null pointer only when the
    lexer is at the end of the text. *)
Definition null_only_at_the_end (statements : list (option BaseNode))
    (lexer : Lexer) : Prop :=
  None ∈ statements → at_the_end stod lexer.

Lemma ends_children statements lexer (Q : list BaseNode → Lexer → Prop) :
  None ∉ statements →
  (∀ nodes, Q nodes lexer) →
  ends (children statements lexer) Q.
Proof.
  intros Hnone HQ. unfold children.
  destruct (mapM id statements) as [nodes|] eqn:HmapM; [apply HQ|].
  exfalso. clear HQ. induction statements as [|[node|] statements IH].
  - discriminate.
  - cbn in HmapM. destruct (mapM id statements); [discriminate|].
    apply IH; [|reflexivity]. intros H. apply Hnone. now right.
  - apply Hnone. now left.
Qed.

Lemma no_null_before_the_end statements lexer token :
  null_only_at_the_end statements lexer →
  peeked stod lexer token → IsEOF token = false →
  None ∉ statements.
Proof.
  intros Hnull Hpeeked Heof Hnone. eapply not_at_the_end; eauto.
Qed.

Lemma null_only_at_the_end_app statements statement lexer :
  None ∉ statements →
  (statement = None → at_the_end stod lexer) →
  null_only_at_the_end (statements ++ [statement]) lexer.
Proof.
  intros Hnone Hend Helem. apply elem_of_app in Helem as [Helem|Helem]; [done|].
  apply list_elem_of_singleton in Helem. auto.
Qed.

Lemma ends_or_throw {A B} (x : exception + A) (a : A) (k : A → Parser B) lexer
    (Q : B → Lexer → Prop) :
  x = inr a → ends (k a lexer) Q → ends (and_then (or_throw x) k lexer) Q.
Proof. now intros ->. Qed.

Lemma ends_when condition (m : Parser unit) lexer (Q : unit → Lexer → Prop) :
  (condition = true → ends (m lexer) Q) →
  (condition = false → Q tt lexer) →
  ends (when condition m lexer) Q.
Proof. destruct condition; intros H1 H2; [now apply H1|now apply ends_ret, H2]. Qed.

Ltac token_tests :=
  repeat match goal with
  | H : _ && _ = true |- _ => apply andb_true_iff in H as [? ?]
  | H : _ || _ = false |- _ => apply orb_false_iff in H as [? ?]
  | H : negb _ = true |- _ => apply negb_true_iff in H
  | H : negb _ = false |- _ => apply negb_false_iff in H
  end.

Ltac same_token :=
  repeat match goal with
  | H1 : peeked _ ?lexer ?t1, H2 : peeked _ ?lexer ?t2 |- _ =>
      first [ constr_eq t1 t2; clear H2
            | pose proof (peeked_unique _ _ _ H1 H2); subst t2; clear H2 ]
  end.

(** A token that passed one of the tests of its type is not the end of
    the text. *)
Ltac not_EOF H :=
  lazymatch type of H with
  | IsEOF _ = _ => fail
  | _ ?t = true =>
      lazymatch goal with
      | _ : IsEOF t = false |- _ => fail
      | _ =>
          assert (IsEOF t = false)
            by (let H' := fresh in
                pose proof H as H'; apply bool_decide_eq_true in H';
                apply (type_not_EOF _ _ H'); discriminate)
      end
  end.

Ltac token_facts :=
  same_token; token_tests;
  repeat match goal with
  | H : IsLParen _ = true |- _ => not_EOF H
  | H : IsLBracket _ = true |- _ => not_EOF H
  | H : IsIdentifier _ = true |- _ => not_EOF H
  | H : IsEndLine _ = true |- _ => not_EOF H
  | H : IsIf _ = true |- _ => not_EOF H
  | H : IsElseIf _ = true |- _ => not_EOF H
  | H : IsWhile _ = true |- _ => not_EOF H
  | H : IsFor _ = true |- _ => not_EOF H
  | H : IsBreak _ = true |- _ => not_EOF H
  | H : IsContinue _ = true |- _ => not_EOF H
  | H : IsReturn _ = true |- _ => not_EOF H
  | H : IsEnd _ = true |- _ => not_EOF H
  | H : IsFunction _ = true |- _ => not_EOF H
  end;
  repeat match goal with
  | H : ?b = false → _, H' : ?b = false |- _ => specialize (H H')
  | H : ?b = true → _, H' : ?b = true |- _ => specialize (H H')
  | H : at_the_end _ ?lexer, H' : peeked _ ?lexer ?t |- _ =>
      lazymatch goal with
      | _ : IsEOF t = true |- _ => fail
      | _ => pose proof (at_the_end_peeked _ _ H H')
      end
  end.

Ltac step :=
  lazymatch goal with
  | |- ends (and_then (GetNextToken _) _ _) _ =>
      eapply ends_then; [apply ends_GetNextToken|];
      intros ? ? (? & ? & ? & ? & ?); cbv beta
  | |- ends (and_then (GetPeek _) _ _) _ =>
      eapply ends_then; [apply ends_GetPeek|]; intros ? ? (-> & ? & ?); cbv beta
  | |- ends (and_then (expect _ _) _ _) _ => apply ends_expect; intros ?
  | |- ends (and_then (skip_token _) _ _) _ =>
      eapply ends_then; [apply ends_skip_token|];
      intros _ ? (? & ? & ? & ? & ? & ?); cbv beta
  | |- ends (expect _ _ _) _ => apply ends_expect_last; intros ?
  | |- ends (mret _ _) _ => apply ends_ret
  | |- ends (fail _ _) _ => apply ends_fail
  | |- ends ((if ?c then _ else _) _) _ => destruct c eqn:?
  end.

Section Bodies.

Context (PE : Z → Parser BaseNode) (PS : Parser (option BaseNode)) (PI : Parser BaseNode).
Context (fuel : nat).

(** The lexer has moved forward; the lexer has not moved back. *)
Definition consumed {A} (lexer : Lexer) : A → Lexer → Prop :=
  λ _ lexer', characters_ahead lexer' < characters_ahead lexer.

Definition kept {A} (lexer : Lexer) : A → Lexer → Prop :=
  λ _ lexer', characters_ahead lexer' ≤ characters_ahead lexer.

(** [ParseStatement] gives a statement and has moved forward, or a null
    pointer at the end of the text. *)
Definition statement_parsed (lexer : Lexer) : option BaseNode → Lexer → Prop :=
  λ statement lexer',
    match statement with
    | Some _ => characters_ahead lexer' < characters_ahead lexer
    | None => characters_ahead lexer' ≤ characters_ahead lexer ∧ at_the_end stod lexer'
    end.

Hypothesis ends_PE : ∀ minimal_binding_power lexer,
  2 * characters_ahead lexer + 2 ≤ fuel →
  ends (PE minimal_binding_power lexer) (consumed lexer).

Hypothesis ends_PS : ∀ lexer,
  2 * characters_ahead lexer + 3 ≤ fuel →
  ends (PS lexer) (statement_parsed lexer).

Hypothesis ends_PI : ∀ lexer,
  2 * characters_ahead lexer + 2 ≤ fuel →
  ends (PI lexer) (consumed lexer).

Ltac sizes := unfold consumed, kept in *; cbv beta in *; try lia.

(** A call of a function whose lemma is [lemma], followed by more; and
    as the last thing. *)
Ltac call lemma :=
  eapply ends_then; [apply lemma; sizes|]; intros ? ? ?; sizes.

Ltac last_call lemma :=
  eapply ends_weaken; [apply lemma; sizes|]; intros ? ? ?; sizes.

Lemma ends_call_arguments rounds : ∀ args lexer,
  characters_ahead lexer + 1 ≤ rounds →
  2 * characters_ahead lexer + 2 ≤ fuel →
  ends (call_arguments stod PE rounds args lexer) (kept lexer).
Proof.
  induction rounds as [|rounds IH]; intros args lexer Hrounds Hfuel; [lia|].
  cbn [call_arguments]. step. step; [|step; sizes].
  token_facts. step.
  - step. token_facts. last_call IH.
  - eapply ends_then with (Q' := kept lexer).
    { step; [|step; sizes]. step. step. sizes. }
    intros ? lexer1 Hkept. sizes. call ends_PE. last_call IH.
Qed.

Lemma ends_ParseFunctionCall_name function_name lexer :
  2 * characters_ahead lexer + 2 ≤ fuel →
  ends (ParseFunctionCall_name stod PE fuel function_name lexer) (consumed lexer).
Proof.
  intros Hfuel. unfold ParseFunctionCall_name. step. step. token_facts.
  call ends_call_arguments. step. step.
  destruct (find_in kGlobalFunctions function_name); step; sizes.
Qed.

Lemma ends_ParseFunctionCall_lhs lhs lexer :
  2 * characters_ahead lexer + 2 ≤ fuel →
  ends (ParseFunctionCall_lhs stod PE fuel lhs lexer) (consumed lexer).
Proof.
  intros Hfuel. unfold ParseFunctionCall_lhs. step. step. token_facts.
  call ends_call_arguments. step. step. step. sizes.
Qed.

Lemma ends_ParseIdentifier token lexer :
  carries_its_value token = true → IsIdentifier token = true →
  2 * characters_ahead lexer + 2 ≤ fuel →
  ends (ParseIdentifier stod PE fuel token lexer) (kept lexer).
Proof.
  intros Hvalue Hidentifier Hfuel. unfold ParseIdentifier.
  destruct (Get_string_of token Hvalue) as [name Hname].
  { now rewrite Hidentifier. }
  eapply ends_or_throw; [exact Hname|]. step. step.
  - last_call ends_ParseFunctionCall_name.
  - step. sizes.
Qed.

Lemma ends_list_elements rounds : ∀ elements lexer,
  characters_ahead lexer + 1 ≤ rounds →
  2 * characters_ahead lexer + 2 ≤ fuel →
  ends (list_elements stod PE rounds elements lexer) (kept lexer).
Proof.
  induction rounds as [|rounds IH]; intros elements lexer Hrounds Hfuel; [lia|].
  cbn [list_elements]. step. step; [|step; sizes].
  token_facts. step.
  - step. token_facts. last_call IH.
  - call ends_PE. step. step; [step; last_call IH|].
    step; step; sizes.
Qed.

Lemma ends_ParseList lexer :
  2 * characters_ahead lexer + 2 ≤ fuel →
  ends (ParseList stod PE fuel lexer) (kept lexer).
Proof.
  intros Hfuel. unfold ParseList. call ends_list_elements.
  step. step. step. step. sizes.
Qed.

Lemma ends_slice_arguments rounds : ∀ args lexer,
  characters_ahead lexer + 1 ≤ rounds →
  2 * characters_ahead lexer + 2 ≤ fuel →
  ends (slice_arguments stod PE rounds args lexer) (kept lexer).
Proof.
  induction rounds as [|rounds IH]; intros args lexer Hrounds Hfuel; [lia|].
  cbn [slice_arguments]. step. step; [|step; sizes].
  token_facts. step; [|step].
  - step. token_facts. last_call IH.
  - step. token_facts. last_call IH.
  - call ends_PE. step. step; [step; last_call IH|].
    step; [step|last_call IH].
Qed.

Lemma ends_ParseSlice lhs lexer :
  2 * characters_ahead lexer + 2 ≤ fuel →
  ends (ParseSlice stod PE fuel lhs lexer) (consumed lexer).
Proof.
  intros Hfuel. unfold ParseSlice. step. step. token_facts. step. step.
  call ends_slice_arguments. step. step. step. sizes.
Qed.

Lemma ends_parameter_names rounds : ∀ arg_names lexer,
  characters_ahead lexer + 1 ≤ rounds →
  ends (parameter_names stod rounds arg_names lexer) (kept lexer).
Proof.
  induction rounds as [|rounds IH]; intros arg_names lexer Hrounds; [lia|].
  cbn [parameter_names]. step. step; [|step; sizes].
  token_facts. step.
  - step. token_facts. last_call IH.
  - step. step. token_facts.
    match goal with
    | Hvalue : carries_its_value ?t = true, Hidentifier : IsIdentifier ?t = true |- _ =>
        destruct (Get_string_of t Hvalue) as [name Hname];
          [now rewrite Hidentifier|]
    end.
    eapply ends_or_throw; [exact Hname|]. step.
    step; [step; sizes|]. step; [last_call IH|step].
Qed.

(** The loops over the statements of a block: a round moves the lexer
    forward, or is the last but one. *)
Definition rounds_left (rounds : nat) (lexer : Lexer) : Prop :=
  characters_ahead lexer + 2 ≤ rounds ∨ (at_the_end stod lexer ∧ 1 ≤ rounds).

Definition block_parsed (lexer : Lexer)
  : list (option BaseNode) → Lexer → Prop :=
  λ statements lexer',
    characters_ahead lexer' ≤ characters_ahead lexer
    ∧ null_only_at_the_end statements lexer'.

Lemma rounds_left_before_the_end rounds lexer token :
  rounds_left rounds lexer → peeked stod lexer token → IsEOF token = false →
  characters_ahead lexer + 2 ≤ rounds.
Proof.
  intros [H|[Hend _]] Hpeeked Heof; [exact H|].
  now destruct (not_at_the_end _ _ Hpeeked Heof).
Qed.

(** What is known after a statement of a block has been parsed at
    [lexer1], with [statements] before it. *)
Lemma block_after_statement statements statement lexer lexer1 lexer2 token :
  null_only_at_the_end statements lexer →
  peeked stod lexer token → IsEOF token = false →
  statement_parsed lexer1 statement lexer2 →
  null_only_at_the_end (statements ++ [statement]) lexer2.
Proof.
  intros Hnull Hpeeked Heof Hparsed. apply null_only_at_the_end_app.
  - eapply no_null_before_the_end; eassumption.
  - intros ->. apply Hparsed.
Qed.

Lemma statement_parsed_kept lexer statement lexer' :
  statement_parsed lexer statement lexer' →
  characters_ahead lexer' ≤ characters_ahead lexer.
Proof. destruct statement; cbn; lia. Qed.

(** After a statement, and a token that was taken after it, the loop has
    rounds left. *)
Lemma rounds_left_after_statement rounds lexer1 statement lexer2 lexer3 :
  characters_ahead lexer1 + 1 ≤ rounds →
  statement_parsed lexer1 statement lexer2 →
  (lexer3 = lexer2 ∨ ∃ token, next_token lexer2 token lexer3) →
  rounds_left rounds lexer3
  ∧ characters_ahead lexer3 ≤ characters_ahead lexer1
  ∧ (statement = None → at_the_end stod lexer3).
Proof.
  intros Hrounds Hparsed Hnext.
  assert (Hkept : characters_ahead lexer3 ≤ characters_ahead lexer2).
  { destruct Hnext as [->|[token (_ & _ & H & _)]]; [lia|exact H]. }
  assert (Hend : at_the_end stod lexer2 → at_the_end stod lexer3).
  { destruct Hnext as [->|[token Hnext]]; [done|].
    intros H. eapply next_token_at_the_end; eassumption. }
  destruct statement as [node|]; cbn in Hparsed.
  - split; [left; lia|]. split; [lia|discriminate].
  - destruct Hparsed as [Hsize Hend2]. split; [right; split; [auto|lia]|].
    split; [lia|auto].
Qed.

Lemma null_only_at_the_end_next statements statement lexer :
  None ∉ statements →
  (statement = None → at_the_end stod lexer) →
  null_only_at_the_end (statements ++ [statement]) lexer.
Proof. apply null_only_at_the_end_app. Qed.

Lemma ends_function_body rounds : ∀ body lexer,
  rounds_left rounds lexer →
  2 * characters_ahead lexer + 3 ≤ fuel →
  null_only_at_the_end body lexer →
  ends (function_body stod PS rounds body lexer) (block_parsed lexer).
Proof.
  induction rounds as [|rounds IH]; intros body lexer Hrounds Hfuel Hnull.
  { destruct Hrounds as [?|[_ ?]]; lia. }
  cbn [function_body]. step. step; [|step; split; [lia|exact Hnull]].
  token_facts.
  pose proof (rounds_left_before_the_end _ _ _ Hrounds ltac:(eassumption)
                ltac:(eassumption)) as Hleft.
  pose proof (no_null_before_the_end _ _ _ Hnull ltac:(eassumption)
                ltac:(eassumption)) as Hnone.
  step.
  - step. token_facts. eapply ends_weaken.
    + apply IH; [left; lia|lia|]. intros ?. done.
    + intros ? ? [? ?]. split; [lia|done].
  - eapply ends_then; [apply ends_PS; lia|]. intros statement lexer2 Hparsed.
    step.
    eapply ends_then with
      (Q' := λ _ lexer3, lexer3 = lexer2 ∨ ∃ token, next_token lexer2 token lexer3).
    { apply ends_when; intros _; [|now left].
      eapply ends_weaken; [apply ends_skip_token|]. intros ? ? ?. now right. }
    intros ? lexer3 Hnext.
    destruct (rounds_left_after_statement rounds lexer _ _ _ ltac:(lia) Hparsed Hnext)
      as (Hrounds3 & Hsize3 & Hend3).
    eapply ends_weaken.
    + apply IH; [exact Hrounds3|lia|]. now apply null_only_at_the_end_next.
    + intros ? ? [? ?]. split; [lia|done].
Qed.

Lemma ends_loop_statements rounds : ∀ statements lexer,
  rounds_left rounds lexer →
  2 * characters_ahead lexer + 3 ≤ fuel →
  null_only_at_the_end statements lexer →
  ends (loop_statements stod PS rounds statements lexer) (block_parsed lexer).
Proof.
  induction rounds as [|rounds IH]; intros statements lexer Hrounds Hfuel Hnull.
  { destruct Hrounds as [?|[_ ?]]; lia. }
  cbn [loop_statements]. step. step; [|step; split; [lia|exact Hnull]].
  token_facts.
  pose proof (rounds_left_before_the_end _ _ _ Hrounds ltac:(eassumption)
                ltac:(eassumption)) as Hleft.
  pose proof (no_null_before_the_end _ _ _ Hnull ltac:(eassumption)
                ltac:(eassumption)) as Hnone.
  eapply ends_then with (Q' := kept lexer).
  { apply ends_when; intros _; [|sizes].
    eapply ends_weaken; [apply ends_skip_token|].
    intros ? ? (? & _ & _ & ? & _). sizes. }
  intros ? lexer1 Hkept. sizes.
  eapply ends_then; [apply ends_PS; lia|]. intros statement lexer2 Hparsed.
  eapply ends_then; [apply ends_GetNextToken|]. intros token lexer3 Hnext.
  destruct (rounds_left_after_statement rounds lexer1 _ _ lexer3 ltac:(lia) Hparsed)
    as (Hrounds3 & Hsize3 & Hend3); [right; eauto|].
  eapply ends_weaken.
  + apply IH; [exact Hrounds3|lia|]. now apply null_only_at_the_end_next.
  + intros ? ? [? ?]. split; [lia|done].
Qed.

Lemma ends_then_statements rounds : ∀ statements lexer,
  rounds_left rounds lexer →
  2 * characters_ahead lexer + 3 ≤ fuel →
  null_only_at_the_end statements lexer →
  ends (then_statements stod PS rounds statements lexer) (block_parsed lexer).
Proof.
  induction rounds as [|rounds IH]; intros statements lexer Hrounds Hfuel Hnull.
  { destruct Hrounds as [?|[_ ?]]; lia. }
  cbn [then_statements]. step. step; [|step; split; [lia|exact Hnull]].
  token_facts.
  pose proof (rounds_left_before_the_end _ _ _ Hrounds ltac:(eassumption)
                ltac:(eassumption)) as Hleft.
  pose proof (no_null_before_the_end _ _ _ Hnull ltac:(eassumption)
                ltac:(eassumption)) as Hnone.
  eapply ends_then with (Q' := kept lexer).
  { apply ends_when; intros _; [|sizes].
    eapply ends_weaken; [apply ends_skip_token|].
    intros ? ? (? & _ & _ & ? & _). sizes. }
  intros ? lexer1 Hkept. sizes.
  eapply ends_then; [apply ends_PS; lia|]. intros statement lexer2 Hparsed.
  step. step.
  - step.
    destruct (rounds_left_after_statement rounds lexer1 _ _ lexer2 ltac:(lia) Hparsed)
      as (Hrounds3 & Hsize3 & Hend3); [now left|].
    split; [lia|]. now apply null_only_at_the_end_next.
  - eapply ends_then; [apply ends_GetNextToken|]. intros token lexer3 Hnext.
    destruct (rounds_left_after_statement rounds lexer1 _ _ lexer3 ltac:(lia) Hparsed)
      as (Hrounds3 & Hsize3 & Hend3); [right; eauto|].
    eapply ends_weaken.
    + apply IH; [exact Hrounds3|lia|]. now apply null_only_at_the_end_next.
    + intros ? ? [? ?]. split; [lia|done].
Qed.

Lemma ends_else_statements rounds : ∀ else_block lexer,
  rounds_left rounds lexer →
  2 * characters_ahead lexer + 3 ≤ fuel →
  null_only_at_the_end else_block lexer →
  ends (else_statements stod PS rounds else_block lexer) (block_parsed lexer).
Proof.
  induction rounds as [|rounds IH]; intros else_block lexer Hrounds Hfuel Hnull.
  { destruct Hrounds as [?|[_ ?]]; lia. }
  cbn [else_statements]. step. step; [|step; split; [lia|exact Hnull]].
  token_facts.
  pose proof (rounds_left_before_the_end _ _ _ Hrounds ltac:(eassumption)
                ltac:(eassumption)) as Hleft.
  pose proof (no_null_before_the_end _ _ _ Hnull ltac:(eassumption)
                ltac:(eassumption)) as Hnone.
  eapply ends_then; [apply ends_PS; lia|]. intros statement lexer2 Hparsed.
  step. step.
  - step.
    destruct (rounds_left_after_statement rounds lexer _ _ lexer2 ltac:(lia) Hparsed)
      as (Hrounds3 & Hsize3 & Hend3); [now left|].
    split; [lia|]. now apply null_only_at_the_end_next.
  - eapply ends_then; [apply ends_GetNextToken|]. intros token lexer3 Hnext.
    destruct (rounds_left_after_statement rounds lexer _ _ lexer3 ltac:(lia) Hparsed)
      as (Hrounds3 & Hsize3 & Hend3); [right; eauto|].
    eapply ends_weaken.
    + apply IH; [exact Hrounds3|lia|]. now apply null_only_at_the_end_next.
    + intros ? ? [? ?]. split; [lia|done].
Qed.

(** A block that was parsed, with a lexer that is not at the end of the
    text, holds no null pointer. *)
Lemma block_without_null lexer statements lexer' token :
  block_parsed lexer statements lexer' →
  peeked stod lexer' token → IsEOF token = false →
  None ∉ statements.
Proof. intros [_ Hnull]. now apply no_null_before_the_end. Qed.

Lemma rounds_left_of_fuel lexer :
  2 * characters_ahead lexer + 3 ≤ fuel → rounds_left fuel lexer.
Proof. intros H. left. lia. Qed.

Lemma ends_ParseFunction lexer :
  2 * characters_ahead lexer + 2 ≤ fuel →
  ends (ParseFunction stod PS fuel lexer) (consumed lexer).
Proof.
  intros Hfuel. unfold ParseFunction. step. step. token_facts.
  call ends_parameter_names.
  step.
  eapply ends_then with
    (Q' := λ _ lexer2, characters_ahead lexer2 < characters_ahead lexer).
  { apply ends_when; intros _; [|sizes].
    eapply ends_weaken; [apply ends_skip_token|].
    intros ? ? (? & _ & _ & ? & _). sizes. }
  intros ? lexer2 Hkept. sizes. step. step.
  eapply ends_then.
  { apply ends_function_body; [apply rounds_left_of_fuel; lia|lia|].
    intros Hnil. now apply elem_of_nil in Hnil. }
  intros body lexer3 Hbody. step. step. token_facts.
  pose proof (block_without_null _ _ _ _ Hbody ltac:(eassumption)
                ltac:(eassumption)) as Hnone.
  destruct Hbody as [Hsize _]. step.
  eapply ends_then with
    (Q' := λ _ lexer4, characters_ahead lexer4 < characters_ahead lexer).
  { apply ends_when; intros _; [|sizes]. step. step. sizes. }
  intros ? lexer4 Hkept4. sizes.
  eapply ends_then; [apply ends_children with (Q := λ _ lexer', lexer' = lexer4);
                     [exact Hnone|done]|].
  intros nodes ? ->. unfold offset. cbn. lia.
Qed.

Lemma ends_ParseBreak lexer : ends (ParseBreak stod lexer) (consumed lexer).
Proof. unfold ParseBreak. step. step. token_facts. step. sizes. Qed.

Lemma ends_ParseContinue lexer : ends (ParseContinue stod lexer) (consumed lexer).
Proof. unfold ParseContinue. step. step. token_facts. step. sizes. Qed.

Lemma ends_ParseReturn lexer :
  2 * characters_ahead lexer + 2 ≤ fuel →
  ends (ParseReturn stod PE lexer) (consumed lexer).
Proof.
  intros Hfuel. unfold ParseReturn. step. step. token_facts.
  call ends_PE. step. sizes.
Qed.

Ltac skip_when lexer :=
  eapply ends_then with
    (Q' := λ _ lexer', characters_ahead lexer' < characters_ahead lexer);
  [ apply ends_when; intros _; [|sizes];
    eapply ends_weaken; [apply ends_skip_token|];
    intros ? ? (? & _ & _ & ? & _); sizes
  | intros ? ? ?; sizes ].

Ltac block lemma :=
  eapply ends_then;
  [ apply lemma;
    [ apply rounds_left_of_fuel; lia | lia
    | let H := fresh in intros H; now apply elem_of_nil in H ]
  | intros ? ? ? ].

Ltac no_null Hblock :=
  let Hnone := fresh "Hnone" in
  pose proof (block_without_null _ _ _ _ Hblock ltac:(eassumption)
                ltac:(eassumption)) as Hnone;
  destruct Hblock as [? _].

Lemma ends_children_then {B} statements (k : list BaseNode → Parser B) lexer
    (Q : B → Lexer → Prop) :
  None ∉ statements →
  (∀ nodes, ends (k nodes lexer) Q) →
  ends (and_then (children statements) k lexer) Q.
Proof.
  intros Hnone Hk.
  eapply ends_then; [apply ends_children with (Q := λ _ lexer', lexer' = lexer);
                     [exact Hnone|done]|].
  intros nodes ? ->. apply Hk.
Qed.

Lemma ends_ParseWhile lexer :
  2 * characters_ahead lexer + 2 ≤ fuel →
  ends (ParseWhile stod PE PS fuel lexer) (consumed lexer).
Proof.
  intros Hfuel. unfold ParseWhile. step. step. token_facts.
  call ends_PE. step. skip_when lexer.
  block ends_loop_statements.
  match goal with H : block_parsed _ _ _ |- _ => rename H into Hblock end.
  step. step. step. token_facts. no_null Hblock.
  step. step. step.
  apply ends_children_then; [exact Hnone|intros nodes]. step. sizes.
Qed.

Lemma ends_ParseFor lexer :
  2 * characters_ahead lexer + 2 ≤ fuel →
  ends (ParseFor stod PE PS fuel lexer) (consumed lexer).
Proof.
  intros Hfuel. unfold ParseFor. step. step. token_facts.
  step. step. step. token_facts.
  match goal with
  | Hvalue : carries_its_value ?t = true, Hidentifier : IsIdentifier ?t = true |- _ =>
      destruct (Get_string_of t Hvalue) as [name Hname];
        [now rewrite Hidentifier|]
  end.
  eapply ends_or_throw; [exact Hname|]. step. step.
  call ends_PE. step. skip_when lexer.
  block ends_loop_statements.
  match goal with H : block_parsed _ _ _ |- _ => rename H into Hblock end.
  step. step. token_facts. no_null Hblock.
  step. step. step.
  apply ends_children_then; [exact Hnone|intros nodes]. step. sizes.
Qed.

Lemma ends_ParseElse lexer :
  2 * characters_ahead lexer + 3 ≤ fuel →
  ends (ParseElse stod PS fuel lexer)
       (λ else_block lexer',
          characters_ahead lexer' ≤ characters_ahead lexer ∧ None ∉ else_block).
Proof.
  intros Hfuel. unfold ParseElse. step.
  block ends_else_statements.
  match goal with H : block_parsed _ _ _ |- _ => rename H into Hblock end.
  step. step. token_facts. no_null Hblock.
  step. step. step. step. step. split; [sizes|exact Hnone].
Qed.

Lemma ends_ParseIf_body lexer :
  2 * characters_ahead lexer + 1 ≤ fuel →
  ends (ParseIf_body stod PE PS PI fuel lexer) (consumed lexer).
Proof.
  intros Hfuel. unfold ParseIf_body. step. step. token_facts.
  assert (Hconsumed : characters_ahead lexer' < characters_ahead lexer).
  { match goal with
    | H : IsEOF ?t = false → _ |- _ => apply H
    end.
    match goal with
    | H : _ && _ = false |- _ => apply andb_false_iff in H as [H|H]
    end; token_facts; assumption. }
  call ends_PE. step. step.
  block ends_then_statements.
  match goal with H : block_parsed _ _ _ |- _ => rename H into Hblock end.
  step. step. token_facts. no_null Hblock.
  eapply ends_then with
    (Q' := λ else_block lexer',
             characters_ahead lexer' < characters_ahead lexer ∧ None ∉ else_block).
  { step; [|step].
    - step. step. step. step. split; [sizes|apply not_elem_of_nil].
    - call ends_PI. step. split; [sizes|].
      intros Helem. now apply list_elem_of_singleton in Helem.
    - eapply ends_weaken; [apply ends_ParseElse; lia|].
      intros ? ? [? ?]. split; [sizes|assumption]. }
  intros else_block lexer5 [Hsize5 Hnone5].
  apply ends_children_then; [exact Hnone|intros nodes].
  apply ends_children_then; [exact Hnone5|intros else_nodes].
  step. sizes.
Qed.

Lemma ends_non_null (m : Parser BaseNode) lexer :
  ends (m lexer) (consumed lexer) →
  ends (non_null m lexer) (statement_parsed lexer).
Proof.
  intros H. unfold non_null. eapply ends_then; [exact H|].
  intros node lexer' Hconsumed. step. exact Hconsumed.
Qed.

Lemma ends_ParseStatement_body lexer :
  2 * characters_ahead lexer + 2 ≤ fuel →
  ends (ParseStatement_body stod PE PS PI fuel lexer) (statement_parsed lexer).
Proof.
  intros Hfuel. unfold ParseStatement_body. step. step.
  { step. token_facts.
    eapply ends_weaken; [apply ends_PS; lia|].
    intros [node|] lexer2; cbn; [lia|]. intros [? ?]. split; [lia|assumption]. }
  step. token_facts. step.
  { step. split; [lia|]. eexists. split; eassumption. }
  step; [apply ends_non_null, ends_PI, Hfuel|].
  step; [apply ends_non_null, ends_ParseWhile, Hfuel|].
  step; [apply ends_non_null, ends_ParseFor, Hfuel|].
  step; [apply ends_non_null, ends_ParseBreak|].
  step; [apply ends_non_null, ends_ParseContinue|].
  step; [apply ends_non_null, ends_ParseReturn, Hfuel|].
  apply ends_non_null, ends_PE, Hfuel.
Qed.

Lemma ends_binding_loop rounds : ∀ minimal_binding_power lhs lexer,
  characters_ahead lexer + 1 ≤ rounds →
  2 * characters_ahead lexer + 2 ≤ fuel →
  ends (binding_loop stod what_at PE fuel rounds minimal_binding_power lhs lexer)
       (kept lexer).
Proof.
  induction rounds as [|rounds IH];
    intros minimal_binding_power lhs lexer Hrounds Hfuel; [lia|].
  cbn [binding_loop]. step. step; [step; sizes|]. token_facts.
  step; [call ends_ParseFunctionCall_lhs; last_call IH|].
  step; [call ends_ParseSlice; last_call IH|].
  step.
  match goal with
  | H : IsBinOperator ?t = true |- _ =>
      destruct (binding_powers_of t H)
        as (left_binding_power & right_binding_power & Hleft & Hright)
  end.
  unfold at_. rewrite Hleft, Hright.
  unfold and_then at 1 2, Parser_then. cbn [mret Parser_ret].
  step; [step; sizes|].
  step. token_facts. call ends_PE. last_call IH.
Qed.

Lemma prefix_not_EOF token binding_power :
  kPrefixBindingPower (token_type_ token) = Some binding_power →
  IsEOF token = false.
Proof.
  intros H. apply (type_not_EOF _ _ eq_refl). intros Htype.
  now rewrite Htype in H.
Qed.

Lemma atom_not_EOF token : IsAtom token = true → IsEOF token = false.
Proof.
  intros H. apply (type_not_EOF _ _ eq_refl). intros Htype.
  unfold IsAtom in H. now rewrite Htype in H.
Qed.

(** An atom is an identifier, a string, a number, [true], [false] or
    [nil]: the chain of tests in [ParseExpression] leaves none out. *)
Lemma atom_cases token :
  IsAtom token = true →
  IsIdentifier token || IsStringLiteral token || IsNumberLiteral token
  || IsBoolLiteral token || IsNil token = true.
Proof.
  unfold IsAtom, IsIdentifier, IsStringLiteral, IsNumberLiteral, IsBoolLiteral,
    IsTrue, IsFalse, IsNil.
  destruct (token_type_ token); try discriminate; reflexivity.
Qed.

Lemma ends_ParseExpression_body minimal_binding_power lexer :
  2 * characters_ahead lexer + 1 ≤ fuel →
  ends (ParseExpression_body stod what_at PE PS fuel minimal_binding_power lexer)
       (consumed lexer).
Proof.
  intros Hfuel. unfold ParseExpression_body. step.
  match goal with
  | Hnext : IsEOF ?t = false → characters_ahead ?l < _ |- _ =>
      rename t into token; rename l into lexer1; rename Hnext into Hmoved
  end.
  eapply ends_then with
    (Q' := λ _ lexer', characters_ahead lexer' < characters_ahead lexer).
  - destruct (kPrefixBindingPower (token_type_ token)) as [binding_power|] eqn:Hprefix.
    { apply prefix_not_EOF in Hprefix. specialize (Hmoved Hprefix).
      call ends_PE. step. sizes. }
    step; [token_facts; last_call ends_ParseList|].
    step.
    { token_facts. call ends_PE. step. step. step. sizes. }
    step.
    + match goal with H : IsAtom token = true |- _ =>
        pose proof (atom_not_EOF _ H) as Heof; pose proof (atom_cases _ H) as Hcases
      end.
      specialize (Hmoved Heof).
      step.
      { eapply ends_weaken; [apply ends_ParseIdentifier; [assumption..|lia]|].
        intros ? ? ?. sizes. }
      step.
      { destruct (Get_string_of token) as [value Hvalue]; [assumption| |].
        { match goal with H : IsStringLiteral token = true |- _ => rewrite H end.
          apply orb_true_r. }
        eapply ends_or_throw; [exact Hvalue|]. step. sizes. }
      step.
      { destruct (Get_double_of token) as [value Hvalue]; [assumption..|].
        eapply ends_or_throw; [exact Hvalue|]. step. sizes. }
      step; [step; sizes|].
      step; [step; sizes|].
      repeat match goal with H : _ = false |- _ => rewrite H in Hcases end.
      discriminate.
    + step; [|step]. token_facts.
      call ends_ParseFunction. step. sizes.
  - intros lhs lexer2 Hlhs. last_call ends_binding_loop.
Qed.

End Bodies.

Definition expression_parsed (fuel : nat) : Prop :=
  ∀ minimal_binding_power lexer,
    2 * characters_ahead lexer + 2 ≤ fuel →
    ends (ParseExpression stod what_at fuel minimal_binding_power lexer)
         (consumed lexer).

Definition statement_parsed_with (fuel : nat) : Prop :=
  ∀ lexer,
    2 * characters_ahead lexer + 3 ≤ fuel →
    ends (ParseStatement stod what_at fuel lexer) (statement_parsed lexer).

Definition if_parsed (fuel : nat) : Prop :=
  ∀ lexer,
    2 * characters_ahead lexer + 2 ≤ fuel →
    ends (ParseIf stod what_at fuel lexer) (consumed lexer).

Lemma ends_parser (fuel : nat) :
  expression_parsed fuel ∧ statement_parsed_with fuel ∧ if_parsed fuel.
Proof.
  induction fuel as [|fuel (IHE & IHS & IHI)].
  { repeat split; intros ?; intros; lia. }
  repeat split.
  - intros minimal_binding_power lexer Hfuel. cbn [ParseExpression].
    apply (ends_ParseExpression_body _ _ fuel IHE IHS). lia.
  - intros lexer Hfuel. cbn [ParseStatement].
    apply (ends_ParseStatement_body _ _ _ fuel IHE IHS IHI). lia.
  - intros lexer Hfuel. cbn [ParseIf].
    apply (ends_ParseIf_body _ _ _ fuel IHE IHS IHI). lia.
Qed.

(** [ParseCode] ends with the statements and the lexer at the end of the
    text, or with an exception. *)
Lemma ends_root_statements fuel rounds : ∀ statements lexer,
  characters_ahead lexer + 1 ≤ rounds →
  2 * characters_ahead lexer + 3 ≤ fuel →
  ends (root_statements stod what_at fuel rounds statements lexer)
       (λ _ lexer', at_the_end stod lexer').
Proof.
  induction rounds as [|rounds IH]; intros statements lexer Hrounds Hfuel; [lia|].
  cbn [root_statements]. step. step.
  - eapply ends_then; [apply ends_parser, Hfuel|].
    intros [statement|] lexer2 Hparsed; cbn in Hparsed.
    + apply IH; lia.
    + step. step; [step; tauto|]. destruct Hparsed as [_ Hend]. token_facts.
      congruence.
  - step. token_facts. eexists. split; eassumption.
Qed.

Lemma ends_ParseCode fuel text :
  2 * String.length text + 3 ≤ fuel →
  ends (ParseCode stod what_at fuel text) (λ _ lexer', at_the_end stod lexer').
Proof.
  intros Hfuel. unfold ParseCode.
  apply ends_root_statements; unfold characters_ahead, Lexer_new; cbn [ahead]; lia.
Qed.

End ParserLogic.

(** [ParseCode] comes to an end on every text.  With fuel for twice the
    length of the text and three more, the parser does not run out of
    fuel, and it gives no tree with a null pointer in it: the null pointer
    that [ParseStatement] returns at the end of the text is pushed into a
    block only where an exception follows.  When [ParseCode] returns the
    statements, only the end of the text is ahead of the lexer. *)
Theorem ParseCode_returns stod what_at (text : string) (fuel : nat) :
  enough_fuel text ≤ fuel →
  match ParseCode stod what_at fuel text with
  | Done statements lexer' => at_the_end stod lexer'
  | Failed e => True
  | NullChild | OutOfFuelParsing => False
  end.
Proof.
  intros Hfuel. pose proof (ends_ParseCode stod what_at fuel text Hfuel) as H.
  destruct (ParseCode stod what_at fuel text); cbn [ends] in H; auto.
Qed.

Lemma ParseCode_returns_witness :
  match ParseCode sample_stod "unordered_map::at" 30 "x = 1" with
  | Done statements lexer' => at_the_end sample_stod lexer'
  | Failed e => True
  | NullChild | OutOfFuelParsing => False
  end.
Proof.
  apply (ParseCode_returns sample_stod "unordered_map::at" "x = 1" 30).
  vm_compute. lia.
Defined.

(** The exceptions that leave [ParseCode] are [std::runtime_error]s, of
    the parser or of the lexer, and what [std::stod] throws.
    [kLeftBindingPower.at] and [kRightBindingPower.at] are reached for
    binary operators only, [Get<std::string>] and [Get<double>] for tokens
    that carry a string or a double, so none of them throws. *)
Theorem ParseCode_throws stod what_at (text : string) (fuel : nat) (e : exception) :
  enough_fuel text ≤ fuel →
  ParseCode stod what_at fuel text = Failed e →
  thrown_by_parser stod e.
Proof.
  intros Hfuel Hfailed.
  pose proof (ends_ParseCode stod what_at fuel text Hfuel) as H.
  now rewrite Hfailed in H.
Qed.

Lemma ParseCode_throws_witness :
  thrown_by_parser sample_stod
    (runtime_error ("Expected " +:+ quoted "end while" +:+ ", but got EOF")).
Proof.
  apply (ParseCode_throws sample_stod "unordered_map::at" "while x" 30).
  - vm_compute. lia.
  - vm_compute. reflexivity.
Defined.

(** How two binary operators share an operand.  In [a op1 b op2 c] the
    operand [b] goes to [op2] when the left binding power of [op2] is not
    below the right binding power of [op1], and to [op1] otherwise, for
    every two of the binary operators.  So [a - b * c] is [a - (b * c)],
    [a - b - c] is [(a - b) - c], and [a ^ b ^ c] and [a = b = c] nest to
    the right. *)
Theorem operator_precedence stod what_at
    (text1 text2 : string) (op1 op2 : TokenType)
    (left_binding_power right_binding_power : Z) :
  (text1, op1) ∈ binary_operators →
  (text2, op2) ∈ binary_operators →
  kRightBindingPower op1 = Some right_binding_power →
  kLeftBindingPower op2 = Some left_binding_power →
  parse stod what_at ("a " +:+ text1 +:+ " b " +:+ text2 +:+ " c")
  = Some [ if (left_binding_power <? right_binding_power)%Z
           then BinaryOperationNode op2
                  (BinaryOperationNode op1 (VariableNode "a") (VariableNode "b"))
                  (VariableNode "c")
           else BinaryOperationNode op1 (VariableNode "a")
                  (BinaryOperationNode op2 (VariableNode "b") (VariableNode "c")) ].
Proof.
  intros H1 H2.
  assert (Hoperators : binary_operators
    = [ ("==", kEqual); (">=", kGreaterOrEqual); ("!=", kNotEqual);
        ("<=", kLessOrEqual); (">", kGreater); ("<", kLess);
        ("+", kPlus); ("-", kMinus); ("*", kMultiply); ("/", kDivide);
        ("%", kModulo); ("^", kPower);
        ("=", kAssign); ("+=", kAddAssign); ("-=", kSubAssign);
        ("*=", kMultAssign); ("/=", kDivAssign); ("%=", kModAssign);
        ("^=", kPowAssign); ("and", kLogicalAnd); ("or", kLogicalOr) ])
    by reflexivity.
  rewrite Hoperators in H1, H2. clear Hoperators.
  repeat (apply elem_of_cons in H1 as [[= -> ->]|H1]);
    try (now apply elem_of_nil in H1);
    intros [= <-];
    repeat (apply elem_of_cons in H2 as [[= -> ->]|H2]);
    try (now apply elem_of_nil in H2);
    intros [= <-]; vm_compute; reflexivity.
Qed.

Lemma operator_precedence_witness :
  parse sample_stod "unordered_map::at" "a - b * c"
  = Some [ BinaryOperationNode kMinus (VariableNode "a")
             (BinaryOperationNode kMultiply (VariableNode "b") (VariableNode "c")) ].
Proof.
  apply (operator_precedence sample_stod "unordered_map::at"
           "-" "*" kMinus kMultiply 11 10);
    try reflexivity; apply list_elem_of_In; vm_compute; tauto.
Defined.

(** A prefix operator takes the atom after it and no binary operator:
    [- a ^ b] is [(- a) ^ b] and [not a == b] is [(not a) == b], for every
    prefix operator and every binary operator. *)
Theorem prefix_operator_binds_tighter stod what_at
    (prefix_text text : string) (prefix op : TokenType) :
  (prefix_text, prefix) ∈ prefix_operators →
  (text, op) ∈ binary_operators →
  parse stod what_at (prefix_text +:+ " a " +:+ text +:+ " b")
  = Some [ BinaryOperationNode op
             (UnaryOperationNode prefix (VariableNode "a")) (VariableNode "b") ].
Proof.
  intros H1 H2.
  assert (Hprefix : prefix_operators
    = [ ("+", kPlus); ("-", kMinus); ("not", kLogicalNot) ]) by reflexivity.
  assert (Hoperators : binary_operators
    = [ ("==", kEqual); (">=", kGreaterOrEqual); ("!=", kNotEqual);
        ("<=", kLessOrEqual); (">", kGreater); ("<", kLess);
        ("+", kPlus); ("-", kMinus); ("*", kMultiply); ("/", kDivide);
        ("%", kModulo); ("^", kPower);
        ("=", kAssign); ("+=", kAddAssign); ("-=", kSubAssign);
        ("*=", kMultAssign); ("/=", kDivAssign); ("%=", kModAssign);
        ("^=", kPowAssign); ("and", kLogicalAnd); ("or", kLogicalOr) ])
    by reflexivity.
  rewrite Hprefix in H1. rewrite Hoperators in H2. clear Hprefix Hoperators.
  repeat (apply elem_of_cons in H1 as [[= -> ->]|H1]);
    try (now apply elem_of_nil in H1);
    repeat (apply elem_of_cons in H2 as [[= -> ->]|H2]);
    try (now apply elem_of_nil in H2);
    vm_compute; reflexivity.
Qed.

Lemma prefix_operator_binds_tighter_witness :
  parse sample_stod "unordered_map::at" "- a ^ b"
  = Some [ BinaryOperationNode kPower
             (UnaryOperationNode kMinus (VariableNode "a")) (VariableNode "b") ].
Proof.
  apply (prefix_operator_binds_tighter sample_stod "unordered_map::at"
           "-" "^" kMinus kPower);
    apply list_elem_of_In; vm_compute; tauto.
Defined.

(** ** The test suite, from its texts *)

(** The parser builds the six programs above from the texts of the
    tests, and [interpret] on the texts writes what the tests expect. *)
Example test_suite_parsed :
  parse sample_stod "unordered_map::at" <$>
    [texts.code1; texts.code2; texts.code3; texts.code4; texts.code5; texts.code6]
  = Some <$> [tests.program1; tests.program2; tests.program3; tests.program4;
              tests.program5; tests.program6].
Proof. vm_compute. reflexivity. Qed.

Example test_suite_interpreted :
  (λ code, sample_interpret (enough_fuel code + String.length code) code) <$>
    [texts.code1; texts.code2; texts.code3; texts.code4; texts.code5; texts.code6]
  = Returned true <$> ["3"; "true"; "false"; "123456789"; "TMOITMO"; "3628800"].
Proof. vm_compute. reflexivity. Qed.

(** ** Memory *)

(** The loops of the built-in functions that put an element into a
    container in every round and never move on are left by
    [std::bad_alloc], which [interpret] reports like every other error:
    [split] with an empty delimiter, [replace] of an empty string by one
    that is not empty, a slice of a list with a step of zero. *)
Example interpret_reports_bad_alloc :
  sample_interpret 60
    ("x = split(" +:+ quoted "abc" +:+ ", " +:+ quoted "" +:+ ")")
  = Returned false ("std::bad_alloc" +:+ cxx.newline)
  ∧ sample_interpret 60
      ("print(replace(" +:+ quoted "abc" +:+ ", " +:+ quoted "" +:+ ", "
       +:+ quoted "x" +:+ "))")
    = Returned false ("std::bad_alloc" +:+ cxx.newline)
  ∧ sample_interpret 60
      ("l = [1, 2, 3]" +:+ cxx.newline +:+ "print(l[0:2:0])")
    = Returned false ("std::bad_alloc" +:+ cxx.newline).
Proof. repeat split; vm_compute; reflexivity. Qed.
